(** * The events index and cache layer of gitwed ([src/server/events.ts])

    A shallow embedding of the validator, the mutation pipeline, the
    center directory, the index rebuild and the query engine, followed by
    the properties of these functions.

    Conventions of the embedding.
    - A JavaScript string is a sequence of UTF-16 code units; it is
      modelled by [string], one [ascii] per code unit.
    - The interfaces of the source type every field except [id] and
      [users] as [string]; an object is therefore a finite map from
      property names to strings, with [id] (a number) and [users] kept
      apart.  A property that is missing, or whose value is [undefined],
      is an absent key: every read in the source ([x.k], [JSON.stringify])
      treats the two alike, and [hasOwnProperty] is only asked of request
      bodies, which come out of a JSON parser and hold no [undefined].
    - A serialised document ([JSON.stringify] / [JSON.parse]) is
      represented by the object it denotes.
    - Code after an [await] runs in sequence with the code before it; no
      other request is interleaved.
    - A number is an integer of [Z].  The source computes in binary64,
      which is exact on the safe integers (up to 2^53 - 1 in absolute
      value); the one operation that leaves them, [index.nextId++], is
      rounded as binary64 does ([jsIncr]), and the statements about ids
      say where they need ids to be safe integers.
    - [delta.hasOwnProperty(k)] is read as the presence of the key [k].
      A request body with a property of its own named [hasOwnProperty]
      shadows the method and the call throws; the statements about what
      is accepted are for bodies without such a property.
    - The answer of the geocoder is a function of the environment.  In
      the source the geocoder may fail; it is only asked for a center
      file without [fullcity], and the statements that conclude that a
      call returns are for center files that carry it ([geocoded]). *)

From Stdlib Require Import ZArith String Ascii List Lia Permutation.
From Stdlib Require Import Sorted.
From stdpp Require Import gmap strings list fin_maps pretty.

Open Scope string_scope.
Open Scope Z_scope.

(** ** Regular expressions

    The source tests strings against anchored literals ([/^...$/]).
    [Regex.test r s] decides whether the whole of [s] matches [r], by
    Brzozowski derivatives. *)

Module Regex.

Inductive re : Type :=
| Empty
| Eps
| Chr (p : ascii → bool)
| Seq (r1 r2 : re)
| Alt (r1 r2 : re)
| Star (r : re).

Fixpoint nullable (r : re) : bool :=
  match r with
  | Empty => false
  | Eps => true
  | Chr _ => false
  | Seq r1 r2 => nullable r1 && nullable r2
  | Alt r1 r2 => nullable r1 || nullable r2
  | Star _ => true
  end.

Fixpoint deriv (a : ascii) (r : re) : re :=
  match r with
  | Empty => Empty
  | Eps => Empty
  | Chr p => if p a then Eps else Empty
  | Seq r1 r2 =>
      if nullable r1 then Alt (Seq (deriv a r1) r2) (deriv a r2)
      else Seq (deriv a r1) r2
  | Alt r1 r2 => Alt (deriv a r1) (deriv a r2)
  | Star r1 => Seq (deriv a r1) (Star r1)
  end.

Fixpoint test (r : re) (s : string) : bool :=
  match s with
  | EmptyString => nullable r
  | String a s' => test (deriv a r) s'
  end.

(** [\d]: the ten ASCII digits. *)
Definition digit (a : ascii) : bool :=
  let n := N_of_ascii a in ((48 <=? n) && (n <=? 57))%N.

(** A literal character. *)
Definition lit (c : ascii) : re := Chr (Ascii.eqb c).

Definition d : re := Chr digit.

Definition plus (r : re) : re := Seq r (Star r).

(** A sequence of one-character classes, as in [\d\d:\d\d]. *)
Fixpoint seq (rs : list re) : re :=
  match rs with
  | [] => Eps
  | r :: rs' => Seq r (seq rs')
  end.

(** The language of a regular expression, for the proofs. *)
Inductive lang : re → string → Prop :=
| LEps : lang Eps EmptyString
| LChr p a : p a = true → lang (Chr p) (String a EmptyString)
| LSeq r1 r2 s1 s2 : lang r1 s1 → lang r2 s2 → lang (Seq r1 r2) (s1 +:+ s2)
| LAltL r1 r2 s : lang r1 s → lang (Alt r1 r2) s
| LAltR r1 r2 s : lang r2 s → lang (Alt r1 r2) s
| LStar0 r : lang (Star r) EmptyString
| LStarS r s1 s2 : lang r s1 → lang (Star r) s2 → lang (Star r) (s1 +:+ s2).

End Regex.

(** ** JavaScript values and operators used by the source *)

(** Truthiness of a string-or-undefined value: [undefined] and the empty
    string are falsy. *)
Definition truthy (v : option string) : bool :=
  match v with
  | Some EmptyString => false
  | Some _ => true
  | None => false
  end.

(** [v || dflt] where [dflt] is a string. *)
Definition or_else (v : option string) (dflt : string) : string :=
  match v with
  | Some EmptyString => dflt
  | Some s => s
  | None => dflt
  end.

(** [s.length] *)
Definition str_length (s : string) : Z := Z.of_nat (String.length s).

(** [a == b] on string-or-undefined values. *)
Definition js_eq (a b : option string) : bool := bool_decide (a = b).

(** [a < b]: code-unit order on two strings; a comparison with
    [undefined] goes through [NaN] and is false. *)
Definition js_lt (a b : option string) : bool :=
  match a, b with
  | Some x, Some y => String.ltb x y
  | _, _ => false
  end.

(** [Number.MAX_SAFE_INTEGER], 2^53 - 1: up to it, in magnitude, every
    integer is a number of JavaScript (a binary64). *)
Definition maxSafeInteger : Z := 9007199254740991.

(** The number that an arithmetic operation returns when its exact
    result is the integer [x]: the binary64 nearest to [x], ties to the
    even significand.  Up to 2^53 in magnitude that is [x] itself;
    beyond, the numbers are [ulp] apart, where [ulp] is 2 to the number
    of bits of [x] that do not fit in the 53 of the significand. *)
Definition toDouble (x : Z) : Z :=
  let a := Z.abs x in
  if a <=? 9007199254740992 then x
  else
    let ulp := 2 ^ (Z.log2 a - 52) in
    let q := a / ulp in
    let r := a mod ulp in
    let q := if 2 * r <? ulp then q
             else if ulp <? 2 * r then q + 1
             else if Z.even q then q else q + 1 in
    Z.sgn x * (q * ulp).

(** [n++] and [n + 1] on the number [n]. *)
Definition jsIncr (n : Z) : Z := toDouble (n + 1).

(** ** Data model *)

(** [EventIndexEntry], [EventListEntry] and [FullEvent] are one object
    shape with more or fewer properties. *)
Record FullEvent : Type := mkEvent {
  id : option Z;
  props : gmap string string
}.

Abbreviation EventIndexEntry := FullEvent.
Abbreviation EventListEntry := FullEvent.

Record Center : Type := mkCenter {
  users : list string;
  cprops : gmap string string
}.

Record EventIndex : Type := mkIndex {
  events : list EventIndexEntry;
  nextId : Z
}.

#[global] Instance FullEvent_eq_dec : EqDecision FullEvent.
Proof. solve_decision. Defined.

#[global] Instance Center_eq_dec : EqDecision Center.
Proof. solve_decision. Defined.

(** [e.k] *)
Definition field (k : string) (e : FullEvent) : option string := props e !! k.

(** [e.k = v] for a string [v]. *)
Definition set_field (k v : string) (e : FullEvent) : FullEvent :=
  {| id := id e; props := <[k := v]> (props e) |}.

(** [e.k = v] where [v] may be [undefined]. *)
Definition assign_field (k : string) (v : option string) (e : FullEvent) : FullEvent :=
  match v with
  | Some s => set_field k s e
  | None => {| id := id e; props := delete k (props e) |}
  end.

(** [delete e.k] *)
Definition delete_field (k : string) (e : FullEvent) : FullEvent :=
  {| id := id e; props := delete k (props e) |}.

Definition cfield (k : string) (c : Center) : option string := cprops c !! k.

Definition set_cfield (k v : string) (c : Center) : Center :=
  {| users := users c; cprops := <[k := v]> (cprops c) |}.

Definition assign_cfield (k : string) (v : option string) (c : Center) : Center :=
  match v with
  | Some s => set_cfield k s c
  | None => {| users := users c; cprops := delete k (cprops c) |}
  end.

(** ** Field validator *)

(** [/^2\d\d\d-\d\d-\d\d$/] *)
Definition date_re : Regex.re :=
  Regex.seq [Regex.lit "2"; Regex.d; Regex.d; Regex.d; Regex.lit "-";
             Regex.d; Regex.d; Regex.lit "-"; Regex.d; Regex.d].

(** [/^\d\d:\d\d$/] *)
Definition time_re : Regex.re :=
  Regex.seq [Regex.d; Regex.d; Regex.lit ":"; Regex.d; Regex.d].

Definition validDate (d : option string) : bool :=
  match d with
  | None => true
  | Some EmptyString => true
  | Some s => Regex.test date_re s
  end.

Definition validTime (d : option string) : bool :=
  match d with
  | None => true
  | Some EmptyString => true
  | Some s => Regex.test time_re s
  end.

(** The loop of [applyCenterChanges]: a key starting with a star has the
    limit 4000 and loses the star; a key present in [delta] is checked and
    then written, one key after the other. *)
Fixpoint applyCenterLoop (ks : list string) (curr delta : Center) : Center * string :=
  match ks with
  | [] => (curr, EmptyString)
  | k0 :: ks' =>
      let '(limit, k) :=
        match k0 with
        | String "*" rest => (4000, rest)
        | _ => (200, k0)
        end in
      match cfield k delta with
      | Some v =>
          if str_length v >? limit then (curr, k +:+ " too long")
          else applyCenterLoop ks' (set_cfield k v curr) delta
      | None => applyCenterLoop ks' curr delta
      end
  end.

(** [applyCenterChanges]: the record as the call leaves it, and the
    returned message. *)
Definition applyCenterChanges (curr delta : Center) : Center * string :=
  applyCenterLoop ["*program"; "*about"; "name"; "address"] curr delta.

Definition eventKeys : list string :=
  ["center"; "startDate"; "endDate"; "title"; "description"; "startTime";
   "name"; "address"].

(** The copying loop of [applyChanges]. *)
Definition copyFields (ks : list string) (curr delta : FullEvent) : FullEvent :=
  foldl (λ c k, match field k delta with
                | Some v => set_field k v c
                | None => c
                end) curr ks.

(** [applyChanges]: the record as the call leaves it, and the returned
    message. *)
Definition applyChanges (curr delta : FullEvent) : FullEvent * string :=
  if truthy (field "center" curr)
     && negb (js_eq (field "center" delta) (field "center" curr))
  then (curr, "cannot change event center")
  else if negb (validDate (field "startDate" delta))
  then (curr, "invalid start date")
  else if negb (validDate (field "endDate" delta))
  then (curr, "invalid end date")
  else if negb (validTime (field "startTime" delta))
  then (curr, "invalid start time")
  else if str_length (or_else (field "title" delta) EmptyString) >? 200
  then (curr, "title too long")
  else if str_length (or_else (field "address" delta) EmptyString) >? 200
  then (curr, "address too long")
  else if str_length (or_else (field "name" delta) EmptyString) >? 200
  then (curr, "name too long")
  else if str_length (or_else (field "description" delta) EmptyString) >? 4000
  then (curr, "description too long")
  else (copyFields eventKeys curr delta, EmptyString).

(** ** External collaborators

    The modules [gitfs], [gmaps] and [auth] and the date renderings of
    [tools] are not part of this file; what the code asks of them is a
    parameter of the embedding. *)
Record Env : Type := mkEnv {
  (** whether [gitfs.events] is configured *)
  gitfs_events : bool;
  (** [auth.hasWritePermAsync(user, users)] *)
  hasWritePermAsync : string → list string → bool;
  (** [(await gmaps.parseAddressAsync(address)).fullcity] *)
  parseAddressAsync : option string → option string;
  (** the date renderings of [tools] *)
  weekDay : option string → string;
  monthPlusDay : option string → string;
  fullDate : option string → string;
  monthName : option string → string;
  monthDay : option string → string
}.

(** The events repository on disk: [centers/<id>.json] by id, the files of
    [current/] in directory order, and [current/index.json]. *)
Record Store : Type := mkStore {
  centerFiles : gmap string Center;
  eventFiles : list (string * FullEvent);
  indexFile : option EventIndex
}.

(** The module-level variables of [events.ts], the subscription made by
    [cachedCenters], and the repository. *)
Record State : Type := mkState {
  index : EventIndex;
  eventsCache : gmap string FullEvent;
  hasAllCenters : bool;
  _centers : option (gmap string Center);
  subscribed : bool;
  store : Store
}.

Definition set_index (ix : EventIndex) (st : State) : State :=
  mkState ix (eventsCache st) (hasAllCenters st) (_centers st) (subscribed st) (store st).

Definition set_eventsCache (c : gmap string FullEvent) (st : State) : State :=
  mkState (index st) c (hasAllCenters st) (_centers st) (subscribed st) (store st).

Definition set_hasAllCenters (b : bool) (st : State) : State :=
  mkState (index st) (eventsCache st) b (_centers st) (subscribed st) (store st).

Definition set_centers (c : option (gmap string Center)) (st : State) : State :=
  mkState (index st) (eventsCache st) (hasAllCenters st) c (subscribed st) (store st).

Definition set_subscribed (b : bool) (st : State) : State :=
  mkState (index st) (eventsCache st) (hasAllCenters st) (_centers st) b (store st).

Definition set_store (s : Store) (st : State) : State :=
  mkState (index st) (eventsCache st) (hasAllCenters st) (_centers st) (subscribed st) s.

(** ** A state and exception monad

    A computation runs on the state and either returns a value or throws
    (a rejected promise); the state reached is kept in both cases. *)
Inductive Res (A : Type) : Type :=
| Ret (a : A)
| Throw.

Arguments Ret {A} a.
Arguments Throw {A}.

Definition M (A : Type) : Type := State → Res A * State.

Definition ret {A} (a : A) : M A := λ st, (Ret a, st).

Definition throw {A} : M A := λ st, (Throw, st).

Definition bind {A B} (m : M A) (k : A → M B) : M B :=
  λ st, match m st with
        | (Ret a, st') => k a st'
        | (Throw, st') => (Throw, st')
        end.

Definition gets {A} (f : State → A) : M A := λ st, (Ret (f st), st).

Definition modify (f : State → State) : M unit := λ st, (Ret tt, f st).

Notation "'let*' x ':=' m 'in' k" := (bind m (λ x, k))
  (at level 10, x pattern, m at level 200, k at level 200).

Fixpoint mapM {A B} (f : A → M B) (l : list A) : M (list B) :=
  match l with
  | [] => ret []
  | x :: l' =>
      let* y := f x in
      let* ys := mapM f l' in
      ret (y :: ys)
  end.

(** ** Helpers of [tools] *)

Module tools.

(** Modelled from the spec: [tools.lookup], which is not in this file;
    "if cached, return the cached record": the record that the map keeps
    under the key, or [undefined]. *)
Definition lookup (m : gmap string Center) (k : string) : option Center := m !! k.

(** Modelled from the spec: [tools.clone], which is not in this file;
    "copy the record": a record with the same properties. *)
Definition clone (ev : FullEvent) : FullEvent := ev.

(** Modelled from the spec: [tools.strcmp], which is not in this file; the
    sort is by [startDate] ascending, so it is the three-way comparison of
    its arguments. *)
Definition strcmp (a b : option string) : Z :=
  if js_eq a b then 0 else if js_lt a b then -1 else 1.

End tools.

(** ** Center directory *)

(** The handler that [cachedCenters] registers with
    [gitfs.events.onUpdate]. *)
Definition onUpdate_handler (isPull : bool) (st : State) : State :=
  if isPull then set_hasAllCenters false (set_centers (Some ∅) st) else st.

(** The repository fires its update notification: every registered
    handler runs. *)
Definition deliver_update (isPull : bool) (st : State) : State :=
  if subscribed st then onUpdate_handler isPull st else st.

(** [cachedCenters()].  The object it returns is the one [_centers] holds,
    so a later write through the returned reference is a write to
    [_centers]. *)
Definition cachedCenters (env : Env) : M (gmap string Center) :=
  λ st,
    if negb (gitfs_events env) then (Ret ∅, set_centers (Some ∅) st)
    else match _centers st with
         | None => (Ret ∅, set_centers (Some ∅) (set_subscribed true st))
         | Some c => (Ret c, st)
         end.

(** [centers[id] = c] through the reference got from [cachedCenters]. *)
Definition cacheCenter (i : string) (c : Center) : M unit :=
  modify (λ st, set_centers (Some (<[i := c]> (default ∅ (_centers st)))) st).

(** [gitfs.events.getTextFileAsync("centers/" + id + ".json")]; it throws
    when the file is missing or [gitfs.events] is not configured. *)
Definition readCenterFile (env : Env) (i : string) : M Center :=
  λ st,
    if negb (gitfs_events env) then (Throw, st)
    else match centerFiles (store st) !! i with
         | Some c => (Ret c, st)
         | None => (Throw, st)
         end.

Definition parseCenterAsync (env : Env) (c : Center) : Center :=
  if truthy (cfield "fullcity" c) then c
  else assign_cfield "fullcity" (parseAddressAsync env (cfield "address" c)) c.

(** [getCenterAsync(id)]; [None] stands for an [id] that is not a
    string. *)
Definition getCenterAsync (env : Env) (i : option string) : M (option Center) :=
  match i with
  | None => ret None
  | Some i =>
      let* centers := cachedCenters env in
      let r := tools.lookup centers i in
      let* all := gets hasAllCenters in
      if bool_decide (is_Some r) || all then ret r
      else
        let* str := readCenterFile env i in
        let c := parseCenterAsync env str in
        let* _ := cacheCenter i c in
        ret (Some c)
  end.

(** The property name that [o[k]] reads when [k] may be [undefined]. *)
Definition propKey (k : option string) : string := default "undefined" k.

(** ** Augmenter *)

(** [augmentEvent] after its call of [cachedCenters]: the copy of [ev]
    with [fullcity] and the three display fields. *)
Definition augmentWith (env : Env) (centers : gmap string Center) (ev : EventIndexEntry)
  : EventListEntry :=
  let r := tools.clone ev in
  let r := match centers !! propKey (field "center" r) with
           | Some c => assign_field "fullcity" (cfield "fullcity" c) r
           | None => r
           end in
  let start := field "startDate" ev in
  let stop := field "endDate" ev in
  let weekdayRange := weekDay env start in
  let dateRange := monthPlusDay env start in
  let combinedRange := fullDate env start in
  if truthy (field "endDate" r) then
    let weekdayRange := weekdayRange +:+ "-" +:+ weekDay env stop in
    let dateRange :=
      if negb (String.eqb (monthName env start) (monthName env stop))
      then dateRange +:+ "-" +:+ monthPlusDay env stop
      else dateRange +:+ "-" +:+ monthDay env stop in
    let combinedRange := combinedRange +:+ fullDate env stop in
    set_field "combinedRange" combinedRange
      (set_field "dateRange" dateRange
        (set_field "weekdayRange" weekdayRange r))
  else
    set_field "combinedRange" combinedRange
      (set_field "dateRange" dateRange
        (set_field "weekdayRange" weekdayRange r)).

Definition augmentEvent (env : Env) (ev : EventIndexEntry) : M EventListEntry :=
  let* centers := cachedCenters env in
  ret (augmentWith env centers ev).

(** ** Index manager and event cache *)

Definition indexKeys : list string := ["startDate"; "endDate"; "title"; "center"].

Definition forIndex (js : FullEvent) : EventIndexEntry :=
  {| id := id js;
     props := foldr (λ k m, match field k js with
                            | Some v => <[k := v]> m
                            | None => m
                            end) ∅ indexKeys |}.

(** [id + ""]: an integer prints in decimal. *)
Definition idString (i : option Z) : string :=
  match i with
  | Some z => pretty z
  | None => "undefined"
  end.

(** [s.slice(-6)] *)
Definition sliceLast6 (s : string) : string :=
  substring (String.length s - 6)%nat 6 s.

Definition eventFn (i : option Z) : string :=
  sliceLast6 ("000000" +:+ idString i) +:+ ".json".

Fixpoint findIndex {A} (p : A → bool) (l : list A) : option nat :=
  match l with
  | [] => None
  | x :: l' => if p x then Some 0%nat else S <$> findIndex p l'
  end.

(** [l.splice(idx, 1, x)] for [idx <= l.length]. *)
Definition splice1 {A} (idx : nat) (x : A) (l : list A) : list A :=
  take idx l ++ x :: drop (S idx) l.

Fixpoint readFile (fn : string) (fs : list (string * FullEvent)) : option FullEvent :=
  match fs with
  | [] => None
  | (n, x) :: fs' => if String.eqb n fn then Some x else readFile fn fs'
  end.

Fixpoint writeFile (fn : string) (e : FullEvent) (fs : list (string * FullEvent))
  : list (string * FullEvent) :=
  match fs with
  | [] => [(fn, e)]
  | (n, x) :: fs' =>
      if String.eqb n fn then (fn, e) :: fs' else (n, x) :: writeFile fn e fs'
  end.

Definition upsertIndex (e : FullEvent) (ix : EventIndex) : EventIndex :=
  let idx := default (length (events ix))
               (findIndex (λ x, bool_decide (id x = id e)) (events ix)) in
  {| events := splice1 idx (forIndex e) (events ix); nextId := nextId ix |}.

(** [saveEventAsync(e, user)].  The commit message and the author go to
    the repository's history and are not part of the state. *)
Definition saveEventAsync (env : Env) (e : FullEvent) (user : string) : M unit :=
  let* _ := modify (λ st, set_eventsCache (<[idString (id e) := e]> (eventsCache st)) st) in
  let* _ := modify (λ st, set_index (upsertIndex e (index st)) st) in
  let* _ := modify (λ st,
    set_store (mkStore (centerFiles (store st)) (eventFiles (store st))
                       (Some (index st))) st) in
  if negb (gitfs_events env) then throw
  else modify (λ st,
    set_store (mkStore (centerFiles (store st))
                       (writeFile (eventFn (id e)) e (eventFiles (store st)))
                       (indexFile (store st))) st).

(** [gitfs.events.getTextFileAsync("current/" + fn)] *)
Definition readEventFile (env : Env) (fn : string) : M FullEvent :=
  λ st,
    if negb (gitfs_events env) then (Throw, st)
    else match readFile fn (eventFiles (store st)) with
         | Some e => (Ret e, st)
         | None => (Throw, st)
         end.

(** [readEventAsync(id)]; reading [c.address] of a center that was not
    found throws. *)
Definition readEventAsync (env : Env) (i : Z) : M (option FullEvent) :=
  let* ix := gets index in
  if negb (existsb (λ e, bool_decide (id e = Some i)) (events ix)) then ret None
  else
    let* cached := gets (λ st, eventsCache st !! idString (Some i)) in
    let* r :=
      match cached with
      | Some curr => ret curr
      | None =>
          let* text := readEventFile env (eventFn (Some i)) in
          let* _ := modify (λ st,
            set_eventsCache (<[idString (Some i) := text]> (eventsCache st)) st) in
          ret text
      end in
    let* c := getCenterAsync env (field "center" r) in
    let* r :=
      if negb (truthy (field "address" r)) then
        match c with
        | None => throw
        | Some c =>
            ret (assign_field "name" (cfield "name" c)
                  (assign_field "address" (cfield "address" c) r))
        end
      else ret r in
    let* r := augmentEvent env r in
    ret (Some r).

(** [/^\d+\.json$/] *)
Definition eventFile_re : Regex.re :=
  Regex.Seq (Regex.plus Regex.d)
    (Regex.seq [Regex.lit "."; Regex.lit "j"; Regex.lit "s"; Regex.lit "o"; Regex.lit "n"]).

(** The scan of [loadOrCreateIndex] over the files of [current/]. *)
Definition scanFiles (fs : list (string * FullEvent)) (ix : EventIndex) : EventIndex :=
  foldl (λ ix f,
           if Regex.test eventFile_re f.1 then
             {| events := events ix ++ [forIndex f.2];
                nextId := Z.max (nextId ix) (default 0 (id f.2)) |}
           else ix) ix fs.

Definition loadOrCreateIndex (st : State) : State :=
  match indexFile (store st) with
  | Some ix => set_index ix st
  | None =>
      let ix := scanFiles (eventFiles (store st)) {| events := []; nextId := 0 |} in
      let ix := {| events := events ix; nextId := jsIncr (nextId ix) |} in
      set_store (mkStore (centerFiles (store st)) (eventFiles (store st)) (Some ix))
        (set_index ix st)
  end.

(** ** Query engine *)

(** White space that [parseInt] skips (the code units below 256). *)
Definition isWhite (a : ascii) : bool :=
  let n := N_of_ascii a in
  (((9 <=? n) && (n <=? 13)) || (n =? 32) || (n =? 160))%N.

Fixpoint skipWhite (s : string) : string :=
  match s with
  | String a s' => if isWhite a then skipWhite s' else s
  | EmptyString => s
  end.

Definition digitValue (radix : Z) (a : ascii) : option Z :=
  let n := Z.of_N (N_of_ascii a) in
  let v := (if (48 <=? n) && (n <=? 57) then n - 48
            else if (97 <=? n) && (n <=? 122) then n - 87
            else if (65 <=? n) && (n <=? 90) then n - 55
            else radix)%Z in
  if (v <? radix)%Z then Some v else None.

Fixpoint parseDigits (radix : Z) (s : string) (acc : option Z) : option Z :=
  match s with
  | String a s' =>
      match digitValue radix a with
      | Some v => parseDigits radix s' (Some (default 0 acc * radix + v))
      | None => acc
      end
  | EmptyString => acc
  end.

(** [parseInt(v)]: [None] is [NaN].  A value too large for a double is
    rounded by JavaScript; the rounding changes none of the comparisons
    made with the result here. *)
Definition parseInt (v : option string) : option Z :=
  match v with
  | None => None
  | Some s =>
      let s := skipWhite s in
      let '(sign, s) :=
        match s with
        | String "-" r => (-1, r)
        | String "+" r => (1, r)
        | _ => (1, s)
        end in
      let '(radix, s) :=
        match s with
        | String "0" (String "x" r) => (16, r)
        | String "0" (String "X" r) => (16, r)
        | _ => (10, s)
        end in
      match parseDigits radix s None with
      | Some n => Some (sign * n)
      | None => None
      end
  end.

(** [l.slice(k)] *)
Definition sliceFrom {A} (k : Z) (l : list A) : list A :=
  if (k <? 0)%Z then drop (Z.to_nat (Z.max 0 (Z.of_nat (length l) + k))) l
  else drop (Z.to_nat k) l.

(** The comparator of the sort; a difference with a missing [id] is
    [NaN], which a sort reads as 0. *)
Definition compareEvents (a b : EventIndexEntry) : Z :=
  let c := tools.strcmp (field "startDate" a) (field "startDate" b) in
  if c =? 0 then
    match id a, id b with
    | Some x, Some y => x - y
    | _, _ => 0
    end
  else c.

Fixpoint insertBy {A} (cmp : A → A → Z) (x : A) (l : list A) : list A :=
  match l with
  | [] => [x]
  | y :: l' => if (cmp x y <=? 0)%Z then x :: l else y :: insertBy cmp x l'
  end.

(** [l.sort(cmp)], a stable sort. *)
Definition sortBy {A} (cmp : A → A → Z) (l : list A) : list A :=
  foldr (insertBy cmp) [] l.

Record QueryResult : Type := mkResult {
  totalCount : Z;
  resultEvents : list EventListEntry
}.

(** The predicate of the first [filter] of [queryEventsAsync]. *)
Definition inWindow (startDate stopDate center : string) (e : EventIndexEntry) : bool :=
  let stop := if truthy (field "endDate" e) then field "endDate" e
              else field "startDate" e in
  if js_lt stop (Some startDate) then false
  else if js_lt (Some stopDate) (field "startDate" e) then false
  else if negb (String.eqb center "*") && negb (js_eq (field "center" e) (Some center))
  then false
  else true.

(** The predicate of the country [filter]. *)
Definition inCountry (centers : gmap string Center) (country : string)
    (e : EventIndexEntry) : bool :=
  match centers !! propKey (field "center" e) with
  | None => false
  | Some c => js_eq (cfield "country" c) (Some country)
  end.

(** [queryEventsAsync] up to and including the sort: the entries that
    survive the filters, in the order of the result.  [today3] is
    [formatDate(new Date(Date.now() - 3 * 24 * 3600 * 1000))]. *)
Definition filteredEvents (env : Env) (today3 : string) (query : gmap string string)
  : M (list EventIndexEntry) :=
  let startDate := or_else (query !! "start") today3 in
  let stopDate := or_else (query !! "stop") "9999-99-99" in
  let center := or_else (query !! "center") "*" in
  let country := or_else (query !! "country") "*" in
  let* ix := gets index in
  let events := filter (λ e, inWindow startDate stopDate center e = true) (events ix) in
  let* _ := mapM (λ e, getCenterAsync env (field "center" e)) events in
  let* events :=
    if negb (String.eqb country "*") then
      let* centers := cachedCenters env in
      ret (filter (λ e, inCountry centers country e = true) events)
    else ret events in
  ret (sortBy compareEvents events).

(** The page size: [Math.abs(parseInt(query["count"]) || 100)], at most
    100. *)
Definition pageSize (query : gmap string string) : Z :=
  let count := Z.abs (match parseInt (query !! "count") with
                      | Some 0 => 100
                      | Some n => n
                      | None => 100
                      end) in
  if count >? 100 then 100 else count.

(** [skip] and truncation. *)
Definition paginate {A} (query : gmap string string) (events : list A) : list A :=
  let skip := default 0 (parseInt (query !! "skip")) in
  let events := if skip =? 0 then events else sliceFrom skip events in
  let count := pageSize query in
  if Z.of_nat (length events) >? count then take (Z.to_nat count) events else events.

Definition queryEventsAsync (env : Env) (today3 : string) (query : gmap string string)
  : M QueryResult :=
  let* events := filteredEvents env today3 query in
  let totalCount := Z.of_nat (length events) in
  let events := paginate query events in
  let* augmented := mapM (augmentEvent env) events in
  ret {| totalCount := totalCount; resultEvents := augmented |}.

(** ** Mutation pipeline: [POST /api/events] *)

Record Request : Type := mkRequest {
  appuser : option string;
  body : FullEvent
}.

Inductive Response : Type :=
| Status (code : Z)
| StatusError (code : Z) (error : string)
| Json (ev : FullEvent).

(** The collapse of [address], [name] and [endDate] before the save. *)
Definition collapse (center : Center) (currElt : FullEvent) : FullEvent :=
  let currElt :=
    if js_eq (field "address" currElt) (cfield "address" center)
    then delete_field "address" currElt else currElt in
  let currElt :=
    if js_eq (field "name" currElt) (cfield "name" center)
    then delete_field "name" currElt else currElt in
  if js_eq (field "endDate" currElt) (field "startDate" currElt)
  then delete_field "endDate" currElt else currElt.

(** Whether the handler treats the body as a creation: its [id] is not a
    number, or is at most 0. *)
Definition isCreation (delta : FullEvent) : bool :=
  match id delta with
  | Some n => (n <=? 0)%Z
  | None => true
  end.

(** The handler from [applyChanges] on. *)
Definition commitEvent (env : Env) (user : string) (center : Center)
    (currElt delta : FullEvent) (isFresh : bool) : M Response :=
  let '(currElt, err) := applyChanges currElt delta in
  if truthy (Some err) then ret (StatusError 412 err)
  else
    let* _ := if isFresh
              then modify (λ st, set_index {| events := events (index st);
                                              nextId := jsIncr (nextId (index st)) |} st)
              else ret tt in
    let currElt := collapse center currElt in
    let* _ := saveEventAsync env currElt user in
    ret (Json currElt).

Definition postEvent (env : Env) (req : Request) : M Response :=
  match appuser req with
  | None | Some EmptyString => ret (Status 403)
  | Some user =>
      let delta := body req in
      let* center := getCenterAsync env (field "center" delta) in
      match center with
      | None => ret (Status 404)
      | Some center =>
          if negb (hasWritePermAsync env user (users center)) then ret (Status 402)
          else
            let* next := gets (λ st, nextId (index st)) in
            let currElt := {| id := Some next; props := ∅ |} in
            match id delta with
            | Some n =>
                if (n <=? 0)%Z then
                  commitEvent env user center currElt
                    {| id := None; props := props delta |} true
                else
                  let* currElt := readEventAsync env n in
                  match currElt with
                  | None => ret (Status 444)
                  | Some currElt => commitEvent env user center currElt delta false
                  end
            | None => commitEvent env user center currElt delta true
            end
      end
  end.

(** One handled request: the state it met, what the handler answered
    ([Throw] when it threw) and the state it left. *)
Record Step : Type := mkStep {
  request : Request;
  before : State;
  outcome : Res Response;
  after : State
}.

(** A sequence of requests, handled one after the other. *)
Fixpoint postEvents (env : Env) (reqs : list Request) (st : State) : list Step :=
  match reqs with
  | [] => []
  | req :: reqs' =>
      let '(r, st') := postEvent env req st in
      mkStep req st r st' :: postEvents env reqs' st'
  end.

(** The id that a step assigned: the id of the event answered to a
    creation. *)
Definition createdId (s : Step) : option Z :=
  match outcome s with
  | Ret (Json ev) => if isCreation (body (request s)) then id ev else None
  | _ => None
  end.

Definition assignedIds (t : list Step) : list Z := omap createdId t.

(** ** Notions used in the statements *)

(** Every center file of the repository carries its [fullcity], so that
    [parseCenterAsync] returns the file as it is and does not ask the
    geocoder. *)
Definition geocoded (st : State) : Prop :=
  map_Forall (λ _ c, truthy (cfield "fullcity" c) = true) (centerFiles (store st)).

(** The check of the center in [applyChanges] passes. *)
Definition centerKept (curr delta : FullEvent) : Prop :=
  truthy (field "center" curr) = false ∨ field "center" delta = field "center" curr.

(** The event documents of [current/]: the files that the scan reads. *)
Definition eventDocs (fs : list (string * FullEvent)) : list FullEvent :=
  snd <$> filter (λ f, Regex.test eventFile_re f.1 = true) fs.

(** The ids the scan observes, [js.id || 0]. *)
Definition observedIds (docs : list FullEvent) : list Z :=
  (λ js, default 0 (id js)) <$> docs.

Definition nextIdOf (st : State) : Z := nextId (index st).

(** What one request does to [nextId]: it stays, and then no creation
    was answered with an event; or it is incremented, the request was a
    creation, and the event answered (if the handler did not throw after
    the increment) has the old [nextId] as its id. *)
Definition nextIdStep (creation : bool) (st : State) (p : Res Response * State) : Prop :=
  (nextIdOf p.2 = nextIdOf st
   ∧ ∀ ev, p.1 = Ret (Json ev) → creation = false)
  ∨ (nextIdOf p.2 = jsIncr (nextIdOf st)
     ∧ creation = true
     ∧ (p.1 = Throw ∨ ∃ ev, p.1 = Ret (Json ev) ∧ id ev = Some (nextIdOf st))).

(** The conjunction of the filters of a query: the date window, the
    center, and the country unless it is the wildcard. *)
Definition survives (today3 : string) (query : gmap string string)
    (centers : gmap string Center) (e : EventIndexEntry) : bool :=
  inWindow (or_else (query !! "start") today3)
           (or_else (query !! "stop") "9999-99-99")
           (or_else (query !! "center") "*") e
  && (String.eqb (or_else (query !! "country") "*") "*"
      || inCountry centers (or_else (query !! "country") "*") e).

(** The entries of the index in the date window and of the center of a
    query: what the first [filter] of [queryEventsAsync] keeps. *)
Definition windowEvents (today3 : string) (query : gmap string string)
    (ix : EventIndex) : list EventIndexEntry :=
  filter (λ e, inWindow (or_else (query !! "start") today3)
                        (or_else (query !! "stop") "9999-99-99")
                        (or_else (query !! "center") "*") e = true) (events ix).

(** The directory that a call of [cachedCenters] returns. *)
Definition centersValue (env : Env) (st : State) : gmap string Center :=
  if negb (gitfs_events env) then ∅ else default ∅ (_centers st).

(** The directory holds the center [c] under the key [cid]. *)
Definition holdsCenter (cid : string) (c : Center) (st : State) : Prop :=
  ∃ m, _centers st = Some m ∧ m !! cid = Some c.

(** A computation preserves a property of the state. *)
Definition preserves {A} (P : State → Prop) (m : M A) : Prop :=
  ∀ st, P st → P (snd (m st)).

(** A computation leaves a component of the state as it found it. *)
Definition keeps {A X} (f : State → X) (m : M A) : Prop :=
  ∀ st, f (snd (m st)) = f st.

(** ** The patterns the specification names for dates *)

(** A date with a four-digit year, [YYYY-MM-DD]: four digits, a dash, two
    digits, a dash, two digits. *)
Definition fourDigitYearDate_re : Regex.re :=
  Regex.seq [Regex.d; Regex.d; Regex.d; Regex.d; Regex.lit "-";
             Regex.d; Regex.d; Regex.lit "-"; Regex.d; Regex.d].

Definition isDigit (a : ascii) : Prop := Regex.digit a = true.

(** The strings [2ddd-dd-dd]. *)
Definition dateShape (s : string) : Prop :=
  ∃ y1 y2 y3 m1 m2 d1 d2 : ascii,
    s = String "2" (String y1 (String y2 (String y3 (String "-"
          (String m1 (String m2 (String "-" (String d1 (String d2 EmptyString)))))))))
    ∧ Forall isDigit [y1; y2; y3; m1; m2; d1; d2].

(** The strings [dd:dd]. *)
Definition timeShape (s : string) : Prop :=
  ∃ h1 h2 m1 m2 : ascii,
    s = String h1 (String h2 (String ":" (String m1 (String m2 EmptyString))))
    ∧ Forall isDigit [h1; h2; m1; m2].

(** ** Example data *)

Definition exampleEnv : Env :=
  mkEnv true (λ user users, bool_decide (user ∈ users))
    (λ _, Some "Springfield") (λ _, "Wed") (λ _, "May 1") (λ _, "1 May 2024")
    (λ _, "May") (λ _, "1").

Definition obj (l : list (string * string)) : gmap string string := list_to_map l.

Definition centerX : Center :=
  mkCenter ["ann"]
    (obj [("id", "x"); ("address", "1 Main St"); ("name", "X Center"); ("country", "US")]).

Definition centerW : Center :=
  mkCenter ["ann"]
    (obj [("id", "w"); ("address", "Rynek 1"); ("name", "W Center"); ("country", "PL")]).

Definition exampleStore : Store :=
  mkStore (<["w" := centerW]> {["x" := centerX]}) [] None.

(** The state after [loadOrCreateIndex] on a repository without events. *)
Definition exampleState : State :=
  mkState (mkIndex [] 1) ∅ false None false exampleStore.

Definition entry (i : Z) (center startDate : string) : EventIndexEntry :=
  mkEvent (Some i) (obj [("center", center); ("startDate", startDate); ("title", "T")]).

(** A state whose index lists an event of the Polish center followed by
    two events of the American one. *)
Definition queryState : State :=
  mkState (mkIndex [entry 1 "w" "2024-05-01"; entry 2 "x" "2024-05-02";
                    entry 3 "x" "2024-05-03"] 4)
          ∅ false None false exampleStore.

(** The same repository before [loadOrCreateIndex] has run. *)
Definition freshState : State :=
  mkState (mkIndex [] 0) ∅ false None false exampleStore.

(** A repository whose one event document has the id 2^53. *)
Definition unsafeState : State :=
  mkState (mkIndex [] 0) ∅ false None false
    (mkStore ∅ [("9007199254740992.json", mkEvent (Some 9007199254740992) ∅)] None).

(** A center whose file carries its [fullcity], and a repository without
    events that holds it. *)
Definition centerY : Center :=
  mkCenter ["ann"]
    (obj [("id", "y"); ("address", "2 High St"); ("name", "Y Center"); ("country", "US");
          ("fullcity", "Shelbyville")]).

Definition geocodedState : State :=
  mkState (mkIndex [] 1) ∅ false None false (mkStore {["y" := centerY]} [] None).

(** A state whose [nextId] is 2^53, the least integer that the increment
    of a binary64 leaves as it is. *)
Definition stalledState : State := set_index (mkIndex [] 9007199254740992) geocodedState.

(** A creation by a user of the centers. *)
Definition creation (l : list (string * string)) : Request :=
  mkRequest (Some "ann") (mkEvent None (obj l)).

(** A creation, a creation with a date that is rejected, and a second
    creation. *)
Definition exampleRequests : list Request :=
  [creation [("center", "y"); ("startDate", "2024-05-01"); ("title", "A")];
   creation [("center", "y"); ("startDate", "1999-05-01"); ("title", "B")];
   creation [("center", "y"); ("startDate", "2024-06-01")]].

(** A text of [n] characters. *)
Definition longText (n : nat) : string := string_of_list_ascii (repeat "a"%char n).

(** ** The whole directory: [getCentersAsync] *)

(** [\w]: letters, digits and the underscore. *)
Definition wordChar (a : ascii) : bool :=
  let n := N_of_ascii a in
  (((48 <=? n) && (n <=? 57)) || ((65 <=? n) && (n <=? 90))
   || ((97 <=? n) && (n <=? 122)) || (n =? 95))%N.

(** [/^(\w+)\.json$/] *)
Definition centerFile_re : Regex.re :=
  Regex.Seq (Regex.plus (Regex.Chr wordChar))
    (Regex.seq [Regex.lit "."; Regex.lit "j"; Regex.lit "s"; Regex.lit "o"; Regex.lit "n"]).

(** [/^(\w+)\.json$/.exec(f)]: [None] when [f] does not match, and
    otherwise [m[1]].  A word character is not a dot, so the group is the
    name up to its last five characters. *)
Definition centerFileId (f : string) : option string :=
  if Regex.test centerFile_re f
  then Some (substring 0 (String.length f - 5) f)
  else None.

(** The properties that every object inherits from [Object.prototype];
    [centers[k]] reads a function (or, for [__proto__], the prototype)
    when [k] is one of them, and that value is truthy. *)
Definition inheritedNames : list string :=
  ["constructor"; "__defineGetter__"; "__defineSetter__"; "hasOwnProperty";
   "__lookupGetter__"; "__lookupSetter__"; "isPrototypeOf";
   "propertyIsEnumerable"; "toString"; "valueOf"; "__proto__"; "toLocaleString"].

(** The directory [centers/] as [readdirAsync] and [readAsync] see it: the
    names it lists, each with the center that its content denotes, or
    [None] when the file cannot be read or parsed. *)
Definition CenterDir : Type := list (string * option Center).

(** The body of the loop of [getCentersAsync] for one file. *)
Definition loadCenterFile (env : Env) (f : string * option Center) : M unit :=
  match centerFileId f.1 with
  | Some i =>
      let* cached := gets (λ st, default ∅ (_centers st) !! i) in
      if bool_decide (is_Some cached) || bool_decide (i ∈ inheritedNames) then ret tt
      else
        match f.2 with
        | Some str => cacheCenter i (parseCenterAsync env str)
        | None => throw
        end
  | None => ret tt
  end.

(** [getCentersAsync()]; [dir] is [None] when [readdirAsync] throws.  The
    value returned is the object that [cachedCenters] gave, with what the
    loop has written to it. *)
Definition getCentersAsync (env : Env) (dir : option CenterDir) : M (gmap string Center) :=
  let* centers := cachedCenters env in
  let* all := gets hasAllCenters in
  if negb all then
    match dir with
    | None => throw
    | Some files =>
        let* _ := modify (set_hasAllCenters true) in
        let* _ := mapM (loadCenterFile env) files in
        gets (λ st, default ∅ (_centers st))
    end
  else ret centers.

(** A non-empty string of word characters. *)
Fixpoint wordy (s : string) : bool :=
  match s with
  | EmptyString => true
  | String a s' => wordChar a && wordy s'
  end.

Definition isWord (s : string) : Prop := s ≠ EmptyString ∧ wordy s = true.

(** The ids whose file the loop of [getCentersAsync] loads into the
    directory [m]: the words that [m] does not hold and that are not the
    name of a property every object has. *)
Definition loadable (m : gmap string Center) (i : string) : Prop :=
  m !! i = None ∧ isWord i ∧ i ∉ inheritedNames.

(** ** Mutation pipeline: [POST /api/centers] *)

(** [gitfs.events.setJsonFileAsync("centers/" + c.id + ".json", c, msg,
    user)]; the message and the author go to the history. *)
Definition writeCenterFile (env : Env) (c : Center) : M unit :=
  if negb (gitfs_events env) then throw
  else modify (λ st,
    set_store (mkStore (<[propKey (cfield "id" c) := c]> (centerFiles (store st)))
                       (eventFiles (store st)) (indexFile (store st))) st).

(** [updateCenterAsync(id, f, msg, user)].  [poke] is
    [gitfs.events.pokeAsync()], which is not in this file and is taken as
    it comes.  [f] changes the object it is given, which is the one that
    the directory holds under [id]; the value returned is that object
    after the call.  When the center is not found, [f] gets [null] and the
    read of [c.id] throws. *)
Definition updateCenterAsync (env : Env) (poke : M unit) (i : option string)
    (f : Center → Center) : M Center :=
  let* _ := if negb (gitfs_events env) then throw else poke in
  let* c := getCenterAsync env i in
  match c, i with
  | Some c, Some key =>
      let c := f c in
      let* _ := cacheCenter key c in
      let* _ := writeCenterFile env c in
      ret c
  | _, _ => throw
  end.

Record CenterRequest : Type := mkCenterRequest {
  cappuser : option string;
  cbody : Center
}.

Inductive CenterResponse : Type :=
| CStatus (code : Z)
| CStatusError (code : Z) (error : string)
| CJson (c : Center).

(** The handler of [POST /api/centers].  [applyCenterChanges] works on
    the object that the directory holds under [delta.id], so what it
    writes is written to the directory, also when it returns a message. *)
Definition postCenter (env : Env) (poke : M unit) (req : CenterRequest) : M CenterResponse :=
  match cappuser req with
  | None | Some EmptyString => ret (CStatus 403)
  | Some user =>
      let delta := cbody req in
      let* center := getCenterAsync env (cfield "id" delta) in
      match center, cfield "id" delta with
      | Some center, Some key =>
          if negb (hasWritePermAsync env user (users center)) then ret (CStatus 402)
          else
            let '(center, err) := applyCenterChanges center delta in
            let* _ := cacheCenter key center in
            if truthy (Some err) then ret (CStatusError 412 err)
            else
              let* c := updateCenterAsync env poke (cfield "id" center)
                          (λ c, fst (applyCenterChanges c delta)) in
              ret (CJson c)
      | _, _ => ret (CStatus 404)
      end
  end.

(** ** Notions used in the further statements *)

(** What the loop of [applyCenterChanges] makes of an entry of its list:
    the limit and the key. *)
Definition centerKeySpec (k0 : string) : Z * string :=
  match k0 with
  | String "*" rest => (4000, rest)
  | _ => (200, k0)
  end.

(** The keys that [applyCenterChanges] may write, with their limits. *)
Definition centerLimits : list (string * Z) :=
  [("program", 4000); ("about", 4000); ("name", 200); ("address", 200)].

(** The delta of a center is within the limits. *)
Definition withinLimits (delta : Center) : Prop :=
  ∀ k limit v, (k, limit) ∈ centerLimits → cfield k delta = Some v → str_length v ≤ limit.

(** The [k] lowest decimal digits of [x], in front of [s]. *)
Fixpoint lowDigits (k : nat) (x : N) (s : string) : string :=
  match k with
  | O => s
  | S k' => lowDigits k' (x / 10)%N (String (pretty_N_char (x mod 10)%N) s)
  end.

(** [k] zeros in front of [s]. *)
Fixpoint zeros (k : nat) (s : string) : string :=
  match k with
  | O => s
  | S k' => String "0" (zeros k' s)
  end.

(** The fields that a read of an event or the augmenter may set. *)
Definition displayKeys : list string :=
  ["address"; "name"; "fullcity"; "weekdayRange"; "dateRange"; "combinedRange"].

(** The order of a query result: by [startDate], then by [id]. *)
Definition eventOrder (a b : EventIndexEntry) : Prop :=
  match field "startDate" a, field "startDate" b, id a, id b with
  | Some x, Some y, Some i, Some j => String.ltb x y = true ∨ (x = y ∧ i ≤ j)
  | _, _, _, _ => False
  end.

(** An index entry with a start date and an id. *)
Definition dated (e : EventIndexEntry) : Prop :=
  is_Some (field "startDate" e) ∧ is_Some (id e).

(** A lookup of the center [cid] can be answered: the directory is marked
    complete, or it holds the center, or the repository is configured and
    has the file of the center. *)
Definition canLookup (env : Env) (st : State) (cid : string) : Prop :=
  hasAllCenters st = true
  ∨ is_Some (centersValue env st !! cid)
  ∨ (gitfs_events env = true ∧ is_Some (centerFiles (store st) !! cid)).

(** The state that the handler of [POST /api/events] leaves when it has
    saved the event [e]: the cached document, the index entry, the index
    file and the event file. *)
Definition committed (e : FullEvent) (isFresh : bool) (st : State) : State :=
  let ix0 := if isFresh
             then {| events := events (index st); nextId := jsIncr (nextId (index st)) |}
             else index st in
  let ix := upsertIndex e ix0 in
  mkState ix (<[idString (id e) := e]> (eventsCache st)) (hasAllCenters st)
    (_centers st) (subscribed st)
    (mkStore (centerFiles (store st))
             (writeFile (eventFn (id e)) e (eventFiles (store st))) (Some ix)).

(** A state whose index, cached documents and event files agree: the ids
    of the index are pairwise distinct, positive and below [nextId],
    which is at most one million; a document cached or stored under an
    id of the index has that id. *)
Definition wellFormed (st : State) : Prop :=
  NoDup (id <$> events (index st))
  ∧ (∀ e, e ∈ events (index st) → ∃ n, id e = Some n ∧ 0 < n < nextId (index st))
  ∧ 0 < nextId (index st) ≤ 1000000
  ∧ (∀ n raw, eventsCache st !! idString (Some n) = Some raw → id raw = Some n)
  ∧ (∀ n raw, Some n ∈ id <$> events (index st) →
       readFile (eventFn (Some n)) (eventFiles (store st)) = Some raw →
       id raw = Some n).

(** The event files of a repository that was only written by this
    module: no two files have the same name, and a file that the scan
    reads holds a document with a positive id below one million and is
    named after it. *)
Definition consistentFiles (fs : list (string * FullEvent)) : Prop :=
  NoDup fs.*1
  ∧ ∀ f, f ∈ fs → Regex.test eventFile_re f.1 = true →
         ∃ n, id f.2 = Some n ∧ 0 < n < 1000000 ∧ f.1 = eventFn (Some n).

(** ** Tactics *)

(** Take apart a match of a string against a sequence of character
    classes. *)
Ltac invert_classes :=
  repeat match goal with
    | H : Forall2 _ (_ :: _) _ |- _ =>
        apply Forall2_cons_inv_l in H as (? & ? & ? & H & ?)
    | H : Forall2 _ [] _ |- _ => apply Forall2_nil_inv_l in H
    | H : Forall _ (_ :: _) |- _ => apply Forall_cons in H as [? H]
    end.

(** A run that cannot have returned what the hypothesis says. *)
Ltac absurd_run :=
  let H := fresh in
  intros H; cbv [ret throw cacheCenter modify] in H; cbv beta iota in H; discriminate.

(** Membership of a key in the whitelist. *)
Ltac in_keys :=
  unfold eventKeys; repeat first [apply list_elem_of_here | apply list_elem_of_further].

(** * Properties *)

(** ** Numbers *)

(** Up to the greatest safe integer the increment is exact. *)
Lemma jsIncr_safe n : - maxSafeInteger - 1 ≤ n ≤ maxSafeInteger → jsIncr n = n + 1.
Proof.
  unfold maxSafeInteger, jsIncr, toDouble. intros Hn.
  destruct (Z.leb_spec (Z.abs (n + 1)) 9007199254740992); [done | lia].
Qed.

(** ** The matcher *)

Lemma test_Empty s : Regex.test Regex.Empty s = false.
Proof. induction s; simpl; auto. Qed.

Lemma test_Alt s : ∀ r1 r2,
  Regex.test (Regex.Alt r1 r2) s = Regex.test r1 s || Regex.test r2 s.
Proof. induction s as [|a s IH]; intros; simpl; auto. Qed.

Lemma test_Seq_Empty s r : Regex.test (Regex.Seq Regex.Empty r) s = false.
Proof. induction s as [|a s IH]; simpl; auto. Qed.

Lemma test_Seq_Eps s : ∀ r, Regex.test (Regex.Seq Regex.Eps r) s = Regex.test r s.
Proof.
  destruct s as [|a s]; intros; simpl; auto.
  by rewrite test_Alt, test_Seq_Empty.
Qed.

Lemma test_Eps s : Regex.test Regex.Eps s = bool_decide (s = EmptyString).
Proof. destruct s; simpl; auto using test_Empty. Qed.

(** One character class followed by [r]: the first character is in the
    class and the rest matches [r]. *)
Lemma test_Chr_Seq p r s :
  Regex.test (Regex.Seq (Regex.Chr p) r) s =
  match s with
  | EmptyString => false
  | String a s' => p a && Regex.test r s'
  end.
Proof.
  destruct s as [|a s]; simpl; auto.
  destruct (p a); simpl; auto using test_Seq_Eps, test_Seq_Empty.
Qed.

Lemma lang_Seq_inv r1 r2 s :
  Regex.lang (Regex.Seq r1 r2) s →
  ∃ s1 s2, s = s1 +:+ s2 ∧ Regex.lang r1 s1 ∧ Regex.lang r2 s2.
Proof. inversion 1; subst; eauto. Qed.

Lemma lang_Alt_inv r1 r2 s :
  Regex.lang (Regex.Alt r1 r2) s → Regex.lang r1 s ∨ Regex.lang r2 s.
Proof. inversion 1; subst; eauto. Qed.

Lemma append_empty s1 s2 :
  s1 +:+ s2 = EmptyString → s1 = EmptyString ∧ s2 = EmptyString.
Proof. destruct s1; simpl; [auto | discriminate]. Qed.

Lemma nullable_lang r : Regex.nullable r = true ↔ Regex.lang r EmptyString.
Proof.
  induction r; simpl; split; intros H; try discriminate.
  - inversion H.
  - constructor.
  - done.
  - inversion H.
  - apply andb_true_iff in H as [H1 H2].
    change EmptyString with (EmptyString +:+ EmptyString).
    constructor; [by apply IHr1 | by apply IHr2].
  - apply lang_Seq_inv in H as (s1 & s2 & Hs & H1 & H2).
    symmetry in Hs. apply append_empty in Hs as [-> ->].
    apply andb_true_iff. split; [by apply IHr1 | by apply IHr2].
  - apply orb_true_iff in H as [H|H];
      [apply Regex.LAltL, IHr1 | apply Regex.LAltR, IHr2]; done.
  - apply orb_true_iff.
    apply lang_Alt_inv in H as [H|H]; [left; by apply IHr1 | right; by apply IHr2].
  - constructor.
  - done.
Qed.

Lemma lang_Star_cons r a s :
  Regex.lang (Regex.Star r) (String a s) →
  ∃ s1 s2, s = s1 +:+ s2 ∧ Regex.lang r (String a s1) ∧ Regex.lang (Regex.Star r) s2.
Proof.
  intros H. remember (Regex.Star r) as r' eqn:Hr. remember (String a s) as w eqn:Hw.
  revert s Hw. induction H; intros w' Hw; try discriminate.
  injection Hr as ->. destruct s1 as [|b s1].
  - simpl in Hw. by apply IHlang2.
  - simpl in Hw. injection Hw as -> <-. eauto.
Qed.

Lemma deriv_lang r : ∀ a s,
  Regex.lang (Regex.deriv a r) s ↔ Regex.lang r (String a s).
Proof.
  induction r; intros a s; simpl.
  - split; inversion 1.
  - split; inversion 1.
  - destruct (p a) eqn:Hp; split; intros H.
    + inversion H; subst. by constructor.
    + inversion H; subst. constructor.
    + inversion H.
    + inversion H; subst. congruence.
  - assert (Hseq : Regex.lang (Regex.Seq (Regex.deriv a r1) r2) s →
                   Regex.lang (Regex.Seq r1 r2) (String a s)).
    { intros H. apply lang_Seq_inv in H as (s1 & s2 & -> & H1 & H2).
      change (String a (s1 +:+ s2)) with (String a s1 +:+ s2).
      constructor; [by apply IHr1 | done]. }
    assert (Hinv : Regex.lang (Regex.Seq r1 r2) (String a s) →
                   Regex.lang (Regex.Seq (Regex.deriv a r1) r2) s ∨
                   (Regex.lang r1 EmptyString ∧ Regex.lang r2 (String a s))).
    { intros H. apply lang_Seq_inv in H as (s1 & s2 & Hs & H1 & H2).
      destruct s1 as [|b s1].
      - change (EmptyString +:+ s2) with s2 in Hs. subst. right. auto.
      - change (String b s1 +:+ s2) with (String b (s1 +:+ s2)) in Hs.
        injection Hs as -> ->. left. constructor; [by apply IHr1 | done]. }
    destruct (Regex.nullable r1) eqn:Hn; split; intros H.
    + apply lang_Alt_inv in H as [H|H]; [by apply Hseq |].
      change (String a s) with (EmptyString +:+ String a s).
      constructor; [by apply nullable_lang | by apply IHr2].
    + destruct (Hinv H) as [?|[_ ?]];
        [by apply Regex.LAltL | apply Regex.LAltR; by apply IHr2].
    + by apply Hseq.
    + destruct (Hinv H) as [?|[Hnull _]]; [done |].
      apply nullable_lang in Hnull. congruence.
  - split; intros H; apply lang_Alt_inv in H as [H|H];
      [apply Regex.LAltL; by apply IHr1 | apply Regex.LAltR; by apply IHr2
      | apply Regex.LAltL; by apply IHr1 | apply Regex.LAltR; by apply IHr2].
  - split; intros H.
    + apply lang_Seq_inv in H as (s1 & s2 & -> & H1 & H2).
      change (String a (s1 +:+ s2)) with (String a s1 +:+ s2).
      constructor; [by apply IHr | done].
    + apply lang_Star_cons in H as (s1 & s2 & -> & H1 & H2).
      constructor; [by apply IHr | done].
Qed.

(** The matcher decides the language of the expression. *)
Lemma test_lang s : ∀ r, Regex.test r s = true ↔ Regex.lang r s.
Proof.
  induction s as [|a s IH]; intros r; simpl.
  - apply nullable_lang.
  - rewrite IH. apply deriv_lang.
Qed.

(** ** Field validator *)

(** A sequence of character classes matches the strings that have one
    character per class, each in its class. *)
Lemma test_classes ps : ∀ s,
  Regex.test (Regex.seq (Regex.Chr <$> ps)) s = true ↔
  Forall2 (λ (p : ascii → bool) a, p a = true) ps (list_ascii_of_string s).
Proof.
  induction ps as [|p ps IH]; intros s; simpl.
  - rewrite test_Eps. destruct s; simpl; split; intros H;
      try done; try constructor; inversion H.
  - rewrite test_Chr_Seq. destruct s as [|a s]; simpl.
    + split; [done | inversion 1].
    + rewrite andb_true_iff, IH. split.
      * intros [? ?]. by constructor.
      * inversion 1; subst. auto.
Qed.

Lemma list_ascii_of_string_eq s l :
  list_ascii_of_string s = l → s = string_of_list_ascii l.
Proof. intros <-. by rewrite string_of_list_ascii_of_string. Qed.

Lemma date_re_shape s : Regex.test date_re s = true ↔ dateShape s.
Proof.
  change date_re with
    (Regex.seq (Regex.Chr <$> [Ascii.eqb "2"; Regex.digit; Regex.digit; Regex.digit;
                               Ascii.eqb "-"; Regex.digit; Regex.digit; Ascii.eqb "-";
                               Regex.digit; Regex.digit])).
  rewrite test_classes. split.
  - intros H. rewrite <- (string_of_list_ascii_of_string s).
    revert H. generalize (list_ascii_of_string s). intros l H.
    invert_classes. subst.
    repeat match goal with H : Ascii.eqb _ _ = true |- _ => apply Ascii.eqb_eq in H end.
    subst. simpl.
    do 7 eexists. split; [reflexivity |]. repeat constructor; assumption.
  - intros (y1 & y2 & y3 & m1 & m2 & d1 & d2 & -> & H). simpl.
    invert_classes. repeat constructor; assumption.
Qed.

Lemma time_re_shape s : Regex.test time_re s = true ↔ timeShape s.
Proof.
  change time_re with
    (Regex.seq (Regex.Chr <$> [Regex.digit; Regex.digit; Ascii.eqb ":";
                               Regex.digit; Regex.digit])).
  rewrite test_classes. split.
  - intros H. rewrite <- (string_of_list_ascii_of_string s).
    revert H. generalize (list_ascii_of_string s). intros l H.
    invert_classes. subst.
    repeat match goal with H : Ascii.eqb _ _ = true |- _ => apply Ascii.eqb_eq in H end.
    subst. simpl.
    do 4 eexists. split; [reflexivity |]. repeat constructor; assumption.
  - intros (h1 & h2 & m1 & m2 & -> & H). simpl.
    invert_classes. repeat constructor; assumption.
Qed.

Lemma dateShape_nonempty s : dateShape s → s ≠ EmptyString.
Proof. by intros (? & ? & ? & ? & ? & ? & ? & -> & _). Qed.

Lemma timeShape_nonempty s : timeShape s → s ≠ EmptyString.
Proof. by intros (? & ? & ? & ? & -> & _). Qed.

Lemma validDate_iff (d : option string) :
  validDate d = true ↔
  d = None ∨ d = Some EmptyString ∨ ∃ s, d = Some s ∧ dateShape s.
Proof.
  destruct d as [[|a s]|]; [split; auto | | split; auto].
  change (validDate (Some (String a s))) with (Regex.test date_re (String a s)).
  rewrite date_re_shape. split.
  - intros H. right. right. eauto.
  - intros [?|[?|(s' & [= <-] & H)]]; done.
Qed.

Lemma validTime_iff (d : option string) :
  validTime d = true ↔
  d = None ∨ d = Some EmptyString ∨ ∃ s, d = Some s ∧ timeShape s.
Proof.
  destruct d as [[|a s]|]; [split; auto | | split; auto].
  change (validTime (Some (String a s))) with (Regex.test time_re (String a s)).
  rewrite time_re_shape. split.
  - intros H. right. right. eauto.
  - intros [?|[?|(s' & [= <-] & H)]]; done.
Qed.

Lemma centerKept_guard curr delta :
  truthy (field "center" curr)
    && negb (js_eq (field "center" delta) (field "center" curr)) = false
  ↔ centerKept curr delta.
Proof.
  unfold centerKept, js_eq. rewrite andb_false_iff, negb_false_iff, bool_decide_eq_true.
  tauto.
Qed.

(** C8 (as amended).  A start or end date is accepted exactly when it is
    absent, empty or of the form [2ddd-dd-dd]: a four-digit year whose
    first digit is 2, a two-digit month and a two-digit day.  A start time
    is accepted exactly when it is absent, empty or of the form [dd:dd].
    In [applyChanges] a rejected start date, end date or start time gives
    the matching message, once the center check has passed. *)
Theorem validDate_validTime_accept :
  (∀ d, validDate d = true ↔
        d = None ∨ d = Some EmptyString ∨ ∃ s, d = Some s ∧ dateShape s)
  ∧ (∀ t, validTime t = true ↔
          t = None ∨ t = Some EmptyString ∨ ∃ s, t = Some s ∧ timeShape s)
  ∧ (∀ curr delta, centerKept curr delta →
       (validDate (field "startDate" delta) = false ↔
        snd (applyChanges curr delta) = "invalid start date")
       ∧ (validDate (field "startDate" delta) = true
          ∧ validDate (field "endDate" delta) = false ↔
          snd (applyChanges curr delta) = "invalid end date")
       ∧ (validDate (field "startDate" delta) = true
          ∧ validDate (field "endDate" delta) = true
          ∧ validTime (field "startTime" delta) = false ↔
          snd (applyChanges curr delta) = "invalid start time")).
Proof.
  split; [exact validDate_iff | split; [exact validTime_iff |]].
  intros curr delta Hc. apply centerKept_guard in Hc.
  unfold applyChanges. rewrite Hc.
  destruct (validDate (field "startDate" delta)); simpl.
  2: { repeat split; try done; intros [? ?]; done. }
  destruct (validDate (field "endDate" delta)); simpl.
  2: { repeat split; try done. intros (? & ? & ?); done. }
  destruct (validTime (field "startTime" delta)); simpl.
  2: { repeat split; try done. intros [? ?]; done. }
  repeat match goal with |- context [if ?b then _ else _] => destruct b end;
    simpl; repeat split; try done; try (intros [? ?]; done); try (intros (? & ? & ?); done).
Qed.

(** The claim of C8 as it is written fails: the date 1999-12-31 has a
    four-digit year and the form [YYYY-MM-DD], and is rejected. *)
Lemma validDate_rejects_1999 :
  ¬ (validDate (Some "1999-12-31") = true ↔
     "1999-12-31" = EmptyString
     ∨ Regex.test fourDigitYearDate_re "1999-12-31" = true).
Proof. intros [_ H]. assert (E : validDate (Some "1999-12-31") = true) by (apply H; right; reflexivity). vm_compute in E. discriminate. Qed.

Lemma copyFields_id ks : ∀ curr delta, id (copyFields ks curr delta) = id curr.
Proof.
  unfold copyFields. induction ks as [|k ks IH]; intros; simpl; [done |].
  rewrite IH. by destruct (field k delta).
Qed.

(** After the copying loop a whitelisted key holds the value of the delta
    when the delta has the key, and every other key holds what it held. *)
Lemma copyFields_field ks : ∀ curr delta k,
  field k (copyFields ks curr delta) =
  if bool_decide (k ∈ ks) then
    match field k delta with
    | Some v => Some v
    | None => field k curr
    end
  else field k curr.
Proof.
  unfold copyFields. induction ks as [|k0 ks IH]; intros curr delta k; cbn [foldl].
  - by rewrite bool_decide_eq_false_2 by apply not_elem_of_nil.
  - rewrite IH. destruct (decide (k = k0)) as [->|Hne].
    + rewrite (bool_decide_eq_true_2 (k0 ∈ k0 :: ks)) by left.
      destruct (field k0 delta) as [v|] eqn:Hd.
      * unfold field, set_field. simpl. rewrite lookup_insert_eq.
        by destruct (bool_decide (k0 ∈ ks)).
      * by destruct (bool_decide (k0 ∈ ks)).
    + assert (Hin : bool_decide (k ∈ k0 :: ks) = bool_decide (k ∈ ks)).
      { apply bool_decide_ext. rewrite elem_of_cons. tauto. }
      rewrite Hin.
      assert (Hstep : field k (match field k0 delta with
                               | Some v => set_field k0 v curr
                               | None => curr
                               end) = field k curr).
      { destruct (field k0 delta); [|done].
        unfold field, set_field. simpl. by rewrite lookup_insert_ne. }
      by rewrite Hstep.
Qed.

(** [applyChanges] writes nothing when it returns a message. *)
Lemma applyChanges_atomic curr delta :
  snd (applyChanges curr delta) ≠ EmptyString →
  fst (applyChanges curr delta) = curr.
Proof.
  unfold applyChanges.
  repeat match goal with |- context [if ?b then _ else _] => destruct b end;
    simpl; done.
Qed.

Lemma applyChanges_id curr delta : id (fst (applyChanges curr delta)) = id curr.
Proof.
  unfold applyChanges.
  repeat match goal with |- context [if ?b then _ else _] => destruct b end;
    cbn [fst]; auto using copyFields_id.
Qed.

(** C1, the code at the failing input.  The current center has the
    program "old"; the delta carries a program of 3 characters and an
    [about] of 4001.  [applyCenterChanges] returns "about too long" and
    leaves the program of the current record overwritten. *)
Theorem applyCenterChanges_not_atomic :
  let curr := mkCenter ["ann"] (obj [("id", "x"); ("program", "old")]) in
  let delta := mkCenter [] (obj [("id", "x"); ("program", "new"); ("about", longText 4001)]) in
  snd (applyCenterChanges curr delta) = "about too long"
  ∧ cfield "program" curr = Some "old"
  ∧ cfield "program" (fst (applyCenterChanges curr delta)) = Some "new"
  ∧ fst (applyCenterChanges curr delta) ≠ curr.
Proof.
  cbv zeta. split; [by vm_compute |]. split; [by vm_compute |].
  assert (H : cfield "program"
                (fst (applyCenterChanges
                        (mkCenter ["ann"] (obj [("id", "x"); ("program", "old")]))
                        (mkCenter [] (obj [("id", "x"); ("program", "new");
                                           ("about", longText 4001)]))))
              = Some "new") by (by vm_compute).
  split; [exact H |]. intros E. rewrite E in H. vm_compute in H. discriminate.
Qed.

(** C7.  An event whose center is set keeps it: a delta whose center is
    another value, or is missing, is rejected with "cannot change event
    center" and nothing is written; and whatever the delta and the
    outcome, the center of the record after the call is the one it had. *)
Theorem applyChanges_center_immutable (curr delta : FullEvent) (c : string) :
  field "center" curr = Some c → c ≠ EmptyString →
  (field "center" delta ≠ Some c →
   applyChanges curr delta = (curr, "cannot change event center"))
  ∧ field "center" (fst (applyChanges curr delta)) = Some c.
Proof.
  intros Hc Hne.
  assert (Ht : truthy (field "center" curr) = true).
  { rewrite Hc. by destruct c. }
  split.
  - intros Hd. unfold applyChanges. rewrite Ht, Hc. unfold js_eq.
    by rewrite bool_decide_eq_false_2.
  - destruct (decide (field "center" delta = Some c)) as [Hd|Hd].
    + unfold applyChanges.
      repeat match goal with |- context [if ?b then _ else _] => destruct b end;
        cbn [fst]; try done.
      rewrite copyFields_field, Hd. reflexivity.
    + unfold applyChanges. rewrite Ht, Hc. unfold js_eq.
      by rewrite bool_decide_eq_false_2.
Qed.

Lemma applyChanges_center_immutable_witness :
  let curr := mkEvent (Some 7) (obj [("center", "x"); ("title", "T")]) in
  let delta := mkEvent None (obj [("center", "w"); ("title", "U")]) in
  applyChanges curr delta = (curr, "cannot change event center")
  ∧ field "center" (fst (applyChanges curr delta)) = Some "x".
Proof.
  cbv zeta.
  destruct (applyChanges_center_immutable
              (mkEvent (Some 7) (obj [("center", "x"); ("title", "T")]))
              (mkEvent None (obj [("center", "w"); ("title", "U")])) "x")
    as [H1 H2]; [reflexivity | discriminate |].
  split; [apply H1; vm_compute; discriminate | exact H2].
Defined.

(** C10.  For a record whose center is set, a delta without a [center]
    key is rejected with "cannot change event center": the missing value
    is not equal to the current center. *)
Theorem applyChanges_requires_center (curr delta : FullEvent) :
  truthy (field "center" curr) = true →
  field "center" delta = None →
  applyChanges curr delta = (curr, "cannot change event center").
Proof.
  intros Ht Hd. unfold applyChanges. rewrite Ht, Hd. unfold js_eq.
  rewrite bool_decide_eq_false_2; [done |].
  intros E. rewrite <- E in Ht. discriminate.
Qed.

Lemma applyChanges_requires_center_witness :
  applyChanges (mkEvent (Some 7) (obj [("center", "x"); ("title", "T")]))
               (mkEvent (Some 7) (obj [("title", "U")]))
  = (mkEvent (Some 7) (obj [("center", "x"); ("title", "T")]),
     "cannot change event center").
Proof. apply applyChanges_requires_center; reflexivity. Defined.

(** ** Center directory *)

(** The first call of [cachedCenters] registers the handler. *)
Lemma cachedCenters_subscribes env st :
  gitfs_events env = true → _centers st = None →
  subscribed (snd (cachedCenters env st)) = true.
Proof. intros Hg Hc. unfold cachedCenters. by rewrite Hg, Hc. Qed.

(** C4.  Once [cachedCenters] has registered its handler, an update
    notification with [isPull = true] empties the center directory and
    resets [hasAllCenters]; the event cache, the index and the repository
    are as before. *)
Theorem pull_clears_directory_only (st : State) :
  subscribed st = true →
  let st' := deliver_update true st in
  _centers st' = Some ∅
  ∧ hasAllCenters st' = false
  ∧ eventsCache st' = eventsCache st
  ∧ index st' = index st
  ∧ store st' = store st.
Proof. intros Hs. unfold deliver_update. rewrite Hs. simpl. auto. Qed.

Lemma pull_clears_directory_only_witness :
  let st := snd (getCenterAsync exampleEnv (Some "x") exampleState) in
  let st' := deliver_update true st in
  _centers st = Some {["x" := parseCenterAsync exampleEnv centerX]}
  ∧ _centers st' = Some ∅
  ∧ hasAllCenters st' = false
  ∧ eventsCache st' = eventsCache st
  ∧ index st' = index st
  ∧ store st' = store st.
Proof.
  cbv zeta. split; [reflexivity |].
  apply (pull_clears_directory_only
           (snd (getCenterAsync exampleEnv (Some "x") exampleState))).
  reflexivity.
Defined.

(** ** Index rebuild *)

Lemma forIndex_field js k :
  field k (forIndex js) = if bool_decide (k ∈ indexKeys) then field k js else None.
Proof.
  unfold forIndex, field at 1. cbn [props].
  induction indexKeys as [|k0 ks IH]; cbn [foldr].
  - by rewrite lookup_empty, bool_decide_eq_false_2 by apply not_elem_of_nil.
  - destruct (decide (k = k0)) as [->|Hne].
    + rewrite (bool_decide_eq_true_2 (k0 ∈ k0 :: ks)) by left.
      destruct (field k0 js) as [v|] eqn:Hf.
      * by rewrite lookup_insert_eq.
      * rewrite IH. by destruct (bool_decide (k0 ∈ ks)).
    + assert (Hin : bool_decide (k ∈ k0 :: ks) = bool_decide (k ∈ ks)).
      { apply bool_decide_ext. rewrite elem_of_cons. tauto. }
      rewrite Hin, <- IH.
      destruct (field k0 js); [by rewrite lookup_insert_ne | done].
Qed.

Lemma scanFiles_events fs : ∀ ix,
  events (scanFiles fs ix) = (events ix ++ (forIndex <$> eventDocs fs))%list.
Proof.
  unfold scanFiles, eventDocs.
  induction fs as [|f fs IH]; intros ix; cbn [foldl].
  - by rewrite app_nil_r.
  - rewrite IH. rewrite filter_cons.
    destruct (decide (Regex.test eventFile_re f.1 = true)) as [Ht|Ht].
    + rewrite Ht. cbn. by rewrite <- app_assoc.
    + apply not_true_is_false in Ht. by rewrite Ht.
Qed.

Lemma scanFiles_nextId fs : ∀ ix,
  0 ≤ nextId ix →
  nextId (scanFiles fs ix) = Z.max (nextId ix) (foldr Z.max 0 (observedIds (eventDocs fs))).
Proof.
  unfold scanFiles, eventDocs, observedIds.
  induction fs as [|f fs IH]; intros ix Hix; cbn [foldl].
  - cbn. lia.
  - rewrite filter_cons.
    destruct (decide (Regex.test eventFile_re f.1 = true)) as [Ht|Ht].
    + rewrite Ht, IH by (cbn; lia). cbn. lia.
    + apply not_true_is_false in Ht. rewrite Ht. by apply IH.
Qed.

Lemma foldr_max_bound (l : list Z) x : x ∈ l → x ≤ foldr Z.max 0 l.
Proof.
  induction l as [|y l IH]; [by intros ?%not_elem_of_nil |].
  intros [->|Hin]%elem_of_cons; cbn; [lia |]. specialize (IH Hin). lia.
Qed.

(** C9 (as amended).  When there is no [index.json], [loadOrCreateIndex]
    builds the index from the event documents of [current/]: one summary
    per document, in directory order, holding the document's [id],
    [startDate], [endDate], [title] and [center] and nothing else; and,
    when the observed ids are safe integers (at most 2^53 - 1), [nextId]
    is one past the greatest of 0 and the observed ids, which is 1 when
    there is no document.  The index built is also written to
    [index.json]. *)
Theorem loadOrCreateIndex_rebuild (st : State) :
  indexFile (store st) = None →
  let docs := eventDocs (eventFiles (store st)) in
  let st' := loadOrCreateIndex st in
  events (index st') = forIndex <$> docs
  ∧ (∀ js, id (forIndex js) = id js
           ∧ ∀ k, field k (forIndex js) =
                  if bool_decide (k ∈ indexKeys) then field k js else None)
  ∧ (Forall (λ i, i ≤ maxSafeInteger) (observedIds docs) →
     nextId (index st') = 1 + foldr Z.max 0 (observedIds docs)
     ∧ ∀ js, js ∈ docs → default 0 (id js) < nextId (index st'))
  ∧ (docs = [] → nextId (index st') = 1)
  ∧ indexFile (store st') = Some (index st').
Proof.
  intros Hnone. cbv zeta. unfold loadOrCreateIndex. rewrite Hnone. cbn.
  rewrite scanFiles_events, scanFiles_nextId by (cbn; lia). cbn.
  assert (Hmax : 0 ≤ foldr Z.max 0 (observedIds (eventDocs (eventFiles (store st))))).
  { generalize (observedIds (eventDocs (eventFiles (store st)))).
    intros l. induction l; cbn; lia. }
  split; [done |]. split; [split; [done | apply forIndex_field] |].
  split; [| split].
  - intros Hsafe.
    assert (Hle : foldr Z.max 0 (observedIds (eventDocs (eventFiles (store st))))
                  ≤ maxSafeInteger).
    { revert Hsafe. generalize (observedIds (eventDocs (eventFiles (store st)))).
      intros l. induction 1; cbn; [unfold maxSafeInteger |]; lia. }
    rewrite jsIncr_safe by (unfold maxSafeInteger in *; lia).
    split; [lia |]. intros js Hjs.
    assert (default 0 (id js)
            ≤ foldr Z.max 0 (observedIds (eventDocs (eventFiles (store st))))).
    { apply foldr_max_bound. unfold observedIds. apply list_elem_of_fmap. eauto. }
    lia.
  - intros ->. reflexivity.
  - done.
Qed.

Lemma loadOrCreateIndex_rebuild_witness :
  let fs := [("000003.json", mkEvent (Some 3) (obj [("title", "A"); ("name", "N")]));
             ("index.bak", mkEvent (Some 9) ∅);
             ("000001.json", mkEvent (Some 1) (obj [("title", "B")]))] in
  let st := mkState (mkIndex [] 0) ∅ false None false (mkStore ∅ fs None) in
  events (index (loadOrCreateIndex st))
  = [mkEvent (Some 3) (obj [("title", "A")]); mkEvent (Some 1) (obj [("title", "B")])]
  ∧ nextId (index (loadOrCreateIndex st)) = 4.
Proof.
  cbv zeta.
  destruct (loadOrCreateIndex_rebuild
              (mkState (mkIndex [] 0) ∅ false None false
                 (mkStore ∅
                    [("000003.json", mkEvent (Some 3) (obj [("title", "A"); ("name", "N")]));
                     ("index.bak", mkEvent (Some 9) ∅);
                     ("000001.json", mkEvent (Some 1) (obj [("title", "B")]))] None))
              eq_refl) as (He & _ & Hn & _).
  split; [rewrite He; reflexivity |].
  destruct Hn as [Hn _]; [| rewrite Hn; reflexivity].
  repeat constructor; vm_compute; discriminate.
Defined.

(** The claim of C9 as it is written fails: with no index snapshot and no
    event document, [nextId] is 1 and not 0; and with a document whose id
    is 2^53, [nextId] is that id and not one past it. *)
Lemma loadOrCreateIndex_nextId_counterexample :
  (indexFile (store freshState) = None
   ∧ eventDocs (eventFiles (store freshState)) = []
   ∧ nextId (index (loadOrCreateIndex freshState)) = 1
   ∧ nextId (index (loadOrCreateIndex freshState)) ≠ 0)
  ∧ (indexFile (store unsafeState) = None
     ∧ observedIds (eventDocs (eventFiles (store unsafeState))) = [9007199254740992]
     ∧ nextId (index (loadOrCreateIndex unsafeState)) = 9007199254740992
     ∧ nextId (index (loadOrCreateIndex unsafeState)) ≠ 1 + 9007199254740992).
Proof. split; [repeat split; discriminate |]. vm_compute. repeat split; discriminate. Qed.

(** ** Frame lemmas of the monad *)

Section Keeps.
Context {X : Type} (f : State → X).

Lemma keeps_ret {A} (a : A) : keeps f (ret a).
Proof. by intros st. Qed.

Lemma keeps_throw {A} : keeps f (@throw A).
Proof. by intros st. Qed.

Lemma keeps_gets {A} (g : State → A) : keeps f (gets g).
Proof. by intros st. Qed.

Lemma keeps_modify (g : State → State) :
  (∀ st, f (g st) = f st) → keeps f (modify g).
Proof. intros H st. apply H. Qed.

Lemma keeps_bind {A B} (m : M A) (k : A → M B) :
  keeps f m → (∀ a, keeps f (k a)) → keeps f (bind m k).
Proof.
  intros Hm Hk st. unfold bind. specialize (Hm st).
  destruct (m st) as [[a|] st1]; simpl in *; [by rewrite Hk | done].
Qed.

Lemma keeps_mapM {A B} (g : A → M B) (l : list A) :
  (∀ a, keeps f (g a)) → keeps f (mapM g l).
Proof.
  intros Hg. induction l as [|x l IH]; simpl.
  - apply keeps_ret.
  - apply keeps_bind; [apply Hg |]. intros y.
    apply keeps_bind; [apply IH |]. intros ys. apply keeps_ret.
Qed.

End Keeps.

Lemma cachedCenters_keeps {X} (f : State → X) env :
  (∀ c st, f (set_centers c st) = f st) →
  (∀ b st, f (set_subscribed b st) = f st) →
  keeps f (cachedCenters env).
Proof.
  intros H1 H2 st. unfold cachedCenters.
  destruct (gitfs_events env); simpl; [|apply H1].
  destruct (_centers st); simpl; [done |]. by rewrite H1, H2.
Qed.

Lemma readCenterFile_state env i st : snd (readCenterFile env i st) = st.
Proof.
  unfold readCenterFile. destruct (gitfs_events env); simpl; [|done].
  by destruct (centerFiles (store st) !! i).
Qed.

Lemma readEventFile_state env fn st : snd (readEventFile env fn st) = st.
Proof.
  unfold readEventFile. destruct (gitfs_events env); simpl; [|done].
  by destruct (readFile fn (eventFiles (store st))).
Qed.

Lemma getCenterAsync_keeps {X} (f : State → X) env i :
  (∀ c st, f (set_centers c st) = f st) →
  (∀ b st, f (set_subscribed b st) = f st) →
  keeps f (getCenterAsync env i).
Proof.
  intros H1 H2. destruct i as [i|]; simpl; [|apply keeps_ret].
  apply keeps_bind; [by apply cachedCenters_keeps |]. intros centers.
  apply keeps_bind; [apply keeps_gets |]. intros all.
  match goal with |- context [if ?b then _ else _] => destruct b end;
    [apply keeps_ret |].
  apply keeps_bind; [intros st; by rewrite readCenterFile_state |]. intros str.
  apply keeps_bind; [apply keeps_modify; intros; apply H1 |]. intros _.
  apply keeps_ret.
Qed.

Lemma augmentEvent_keeps {X} (f : State → X) env ev :
  (∀ c st, f (set_centers c st) = f st) →
  (∀ b st, f (set_subscribed b st) = f st) →
  keeps f (augmentEvent env ev).
Proof.
  intros H1 H2. unfold augmentEvent.
  apply keeps_bind; [by apply cachedCenters_keeps |]. intros centers.
  apply keeps_ret.
Qed.

Lemma readEventAsync_keeps {X} (f : State → X) env i :
  (∀ c st, f (set_centers c st) = f st) →
  (∀ b st, f (set_subscribed b st) = f st) →
  (∀ c st, f (set_eventsCache c st) = f st) →
  keeps f (readEventAsync env i).
Proof.
  intros H1 H2 H3. unfold readEventAsync.
  apply keeps_bind; [apply keeps_gets |]. intros ix.
  match goal with |- context [if ?b then _ else _] => destruct b end;
    [apply keeps_ret |].
  apply keeps_bind; [apply keeps_gets |]. intros cached.
  apply keeps_bind.
  { destruct cached; [apply keeps_ret |].
    apply keeps_bind; [intros st; by rewrite readEventFile_state |]. intros text.
    apply keeps_bind; [apply keeps_modify; intros; apply H3 |]. intros _.
    apply keeps_ret. }
  intros r. apply keeps_bind; [by apply getCenterAsync_keeps |]. intros c.
  apply keeps_bind.
  { match goal with |- context [if ?b then _ else _] => destruct b end;
      [destruct c; [apply keeps_ret | apply keeps_throw] | apply keeps_ret]. }
  intros r'. apply keeps_bind; [by apply augmentEvent_keeps |]. intros r''.
  apply keeps_ret.
Qed.

Lemma saveEventAsync_keeps_nextId env e user : keeps nextIdOf (saveEventAsync env e user).
Proof.
  unfold saveEventAsync.
  apply keeps_bind; [by apply keeps_modify |]. intros _.
  apply keeps_bind; [by apply keeps_modify |]. intros _.
  apply keeps_bind; [by apply keeps_modify |]. intros _.
  destruct (negb (gitfs_events env)); [apply keeps_throw | by apply keeps_modify].
Qed.

Lemma collapse_id center e : id (collapse center e) = id e.
Proof.
  unfold collapse.
  repeat match goal with |- context [if ?b then _ else _] => destruct b end; done.
Qed.

(** What the handler does from [applyChanges] on: either the validation
    fails, the answer is 412 and the state is untouched; or it passes,
    [nextId] is incremented exactly for a fresh record, and the event
    answered has the id of the record the handler started from. *)
Lemma commitEvent_step env user center curr delta fresh st :
  let r := fst (commitEvent env user center curr delta fresh st) in
  let st' := snd (commitEvent env user center curr delta fresh st) in
  (snd (applyChanges curr delta) ≠ EmptyString
   ∧ r = Ret (StatusError 412 (snd (applyChanges curr delta))) ∧ st' = st)
  ∨ (snd (applyChanges curr delta) = EmptyString
     ∧ nextIdOf st' = (if fresh then jsIncr (nextIdOf st) else nextIdOf st)
     ∧ (r = Throw ∨ ∃ ev, r = Ret (Json ev) ∧ id ev = id curr)).
Proof.
  cbv zeta. unfold commitEvent.
  pose proof (applyChanges_id curr delta) as Hid.
  destruct (applyChanges curr delta) as [c' err]. cbn [fst snd] in *.
  destruct err as [|a err]; cbn [truthy].
  - right. split; [done |].
    set (e := collapse center c').
    assert (He : id e = id curr) by (unfold e; by rewrite collapse_id).
    clearbody e.
    unfold bind, nextIdOf.
    destruct fresh; cbn [modify ret];
      match goal with
      | |- context [saveEventAsync env e user ?s] =>
          pose proof (saveEventAsync_keeps_nextId env e user s) as Hk;
          destruct (saveEventAsync env e user s) as [[[]|] st2]
      end; unfold nextIdOf in Hk; cbn [fst snd index set_index nextId ret] in *;
      (split; [done |]); eauto.
  - left. by cbn.
Qed.

(** The message of [applyChanges] and the record it leaves depend on the
    delta through its properties only. *)
Lemma applyChanges_props curr d1 d2 :
  props d1 = props d2 → applyChanges curr d1 = applyChanges curr d2.
Proof. intros Hp. unfold applyChanges, copyFields, field. by rewrite Hp. Qed.

Lemma postEvent_step env req st :
  nextIdStep (isCreation (body req)) st (postEvent env req st).
Proof.
  unfold postEvent.
  destruct (appuser req) as [[|a u]|]; [by left | | by left].
  set (user := String a u). clearbody user.
  unfold bind at 1.
  pose proof (getCenterAsync_keeps nextIdOf env (field "center" (body req))
                (λ _ _, eq_refl) (λ _ _, eq_refl) st) as Hc.
  destruct (getCenterAsync env (field "center" (body req)) st) as [[[center|]|] st1];
    cbn [fst snd] in Hc; [| by left | by left].
  destruct (negb (hasWritePermAsync env user (users center))); [by left |].
  unfold bind at 1. cbn [gets].
  assert (Hfresh : ∀ delta', isCreation (body req) = true →
    nextIdStep (isCreation (body req)) st
      (commitEvent env user center
         {| id := Some (nextId (index st1)); props := ∅ |} delta' true st1)).
  { intros delta' Hcr.
    destruct (commitEvent_step env user center
                {| id := Some (nextId (index st1)); props := ∅ |} delta' true st1)
      as [(_ & Hr & Hst)|(_ & Hn & Hr)].
    - left. rewrite Hst, Hr. split; [done | intros ev; discriminate].
    - right. rewrite <- Hc. split; [exact Hn |]. split; [exact Hcr |]. exact Hr. }
  unfold isCreation in *.
  destruct (id (body req)) as [n|] eqn:Hid.
  - destruct (n <=? 0)%Z eqn:Hn.
    + by apply Hfresh.
    + unfold bind at 1.
      pose proof (readEventAsync_keeps nextIdOf env n
                    (λ _ _, eq_refl) (λ _ _, eq_refl) (λ _ _, eq_refl) st1) as Hr.
      destruct (readEventAsync env n st1) as [[[curr|]|] st2]; cbn [fst snd] in Hr;
        [| left; split; [cbn; congruence | done]
         | left; split; [cbn; congruence | done]].
      left. split; [| done].
      destruct (commitEvent_step env user center curr (body req) false st2)
        as [(_ & _ & ->)|(_ & -> & _)]; congruence.
  - by apply Hfresh.
Qed.

(** A creation that passes every test of the handler: [nextId] is
    incremented, and the event answered, if the save does not throw, has
    the [nextId] that the request met. *)
Lemma postEvent_accepted env req st user center st1 :
  isCreation (body req) = true →
  appuser req = Some user → user ≠ EmptyString →
  getCenterAsync env (field "center" (body req)) st = (Ret (Some center), st1) →
  hasWritePermAsync env user (users center) = true →
  snd (applyChanges {| id := Some (nextIdOf st); props := ∅ |} (body req)) = EmptyString →
  nextIdOf (snd (postEvent env req st)) = jsIncr (nextIdOf st)
  ∧ (fst (postEvent env req st) = Throw
     ∨ ∃ ev, fst (postEvent env req st) = Ret (Json ev) ∧ id ev = Some (nextIdOf st)).
Proof.
  intros Hcre Huser Hne Hget Hperm Hok.
  pose proof (getCenterAsync_keeps nextIdOf env (field "center" (body req))
                (λ _ _, eq_refl) (λ _ _, eq_refl) st) as Hc.
  rewrite Hget in Hc. cbn [snd] in Hc.
  assert (Hrun : ∃ delta', props delta' = props (body req)
            ∧ postEvent env req st
              = commitEvent env user center
                  {| id := Some (nextId (index st1)); props := ∅ |} delta' true st1).
  { unfold postEvent. rewrite Huser. destruct user as [|a u]; [done |].
    unfold bind at 1. rewrite Hget, Hperm. cbn [negb]. unfold bind at 1. cbn [gets].
    unfold isCreation in Hcre. destruct (id (body req)) as [n|].
    - rewrite Hcre. by exists {| id := None; props := props (body req) |}.
    - by exists (body req). }
  destruct Hrun as (delta' & Hp & ->).
  destruct (commitEvent_step env user center
              {| id := Some (nextId (index st1)); props := ∅ |} delta' true st1)
    as [(Herr & _)|(_ & Hn & Hr)].
  - destruct Herr. rewrite (applyChanges_props _ delta' (body req) Hp).
    change (nextId (index st1)) with (nextIdOf st1). by rewrite Hc.
  - rewrite Hn, Hc. split; [done |].
    destruct Hr as [?|(ev & ? & Hid)]; [by left |]. right. exists ev.
    split; [done |]. rewrite Hid. cbn. change (nextId (index st1)) with (nextIdOf st1).
    by rewrite Hc.
Qed.

Lemma nextIdStep_mono creation st p :
  - maxSafeInteger - 1 ≤ nextIdOf st ≤ maxSafeInteger →
  nextIdStep creation st p →
  nextIdOf st ≤ nextIdOf p.2 ≤ nextIdOf st + 1.
Proof. intros Hs [[-> _]|[-> _]]; rewrite ?jsIncr_safe by done; lia. Qed.

Lemma nextIdStep_created st p ev :
  nextIdStep true st p → p.1 = Ret (Json ev) →
  id ev = Some (nextIdOf st) ∧ nextIdOf p.2 = jsIncr (nextIdOf st).
Proof.
  intros [[_ H]|(Hn & _ & [Ht|(ev' & He & Hid)])] Hr.
  - by specialize (H ev Hr).
  - congruence.
  - split; [congruence | done].
Qed.

Lemma nextIdStep_rejected creation st p code err :
  nextIdStep creation st p → p.1 = Ret (StatusError code err) →
  nextIdOf p.2 = nextIdOf st.
Proof.
  intros [[Hn _]|(_ & _ & [Ht|(ev' & He & _)])] Hr; [done | congruence | congruence].
Qed.

Lemma nextIdStep_update st p : nextIdStep false st p → nextIdOf p.2 = nextIdOf st.
Proof. by intros [[Hn _]|(_ & ? & _)]. Qed.

(** Every step of a trace is a run of the handler, and the steps are
    chained. *)
Lemma postEvents_steps env reqs : ∀ st,
  Forall (λ s, postEvent env (request s) (before s) = (outcome s, after s))
    (postEvents env reqs st).
Proof.
  induction reqs as [|req reqs IH]; intros st; cbn [postEvents]; [constructor |].
  destruct (postEvent env req st) as [r st'] eqn:E. constructor; [exact E | apply IH].
Qed.

(** While [nextId] stays a safe integer, every request of a trace meets a
    [nextId] that is at least the one the trace started from and is
    below the greatest safe integer. *)
Lemma postEvents_before env reqs : ∀ st s,
  - maxSafeInteger ≤ nextIdOf st →
  nextIdOf st + Z.of_nat (length reqs) ≤ maxSafeInteger →
  s ∈ postEvents env reqs st →
  nextIdOf st ≤ nextIdOf (before s) ≤ maxSafeInteger - 1.
Proof.
  induction reqs as [|req reqs IH]; intros st s Hlo Hhi; cbn [postEvents].
  - by intros ?%not_elem_of_nil.
  - cbn [length] in Hhi.
    pose proof (nextIdStep_mono _ st _ ltac:(lia) (postEvent_step env req st)) as Hm.
    destruct (postEvent env req st) as [r st']. cbn [snd] in Hm.
    intros [->|Hin]%elem_of_cons; [cbn; lia |].
    specialize (IH st' s ltac:(lia) ltac:(lia) Hin). lia.
Qed.

Lemma postEvents_assigned env reqs : ∀ st z,
  - maxSafeInteger ≤ nextIdOf st →
  nextIdOf st + Z.of_nat (length reqs) ≤ maxSafeInteger →
  z ∈ assignedIds (postEvents env reqs st) → nextIdOf st ≤ z.
Proof.
  intros st z Hlo Hhi. unfold assignedIds. rewrite list_elem_of_omap.
  intros (s & Hs & Hz).
  pose proof (postEvents_before _ _ _ _ Hlo Hhi Hs) as Hb.
  pose proof (postEvents_steps env reqs st) as Hsteps.
  rewrite Forall_forall in Hsteps. specialize (Hsteps s Hs).
  unfold createdId in Hz.
  destruct (outcome s) as [[| |ev]|] eqn:Ho; try discriminate.
  destruct (isCreation (body (request s))) eqn:Hc; [|discriminate].
  pose proof (postEvent_step env (request s) (before s)) as Hst.
  rewrite Hsteps, Hc in Hst.
  destruct (nextIdStep_created _ _ ev Hst eq_refl) as [Hid _].
  rewrite Hid in Hz. injection Hz as <-. lia.
Qed.

(** C3 (as amended).  For every sequence of requests to
    [POST /api/events], handled one after the other from any state, during
    which [nextId] stays a safe integer (it starts at -(2^53 - 1) or more
    and has room for one increment per request below 2^53): [nextId]
    never decreases from one step to a later one; a creation that is
    answered with the event gave it the [nextId] it met as its id and left
    [nextId] greater by exactly one; a creation that passes the tests of
    the handler (the lookup of the center of the body returns a center,
    without the geocoder being asked, since the center files carry their
    [fullcity]; the user may write to it; the body has no property named
    [hasOwnProperty], and [applyChanges] accepts it) does increment
    [nextId] by one and, unless the save throws, is answered with such an
    event; a request answered with a validation failure, and every update,
    left [nextId] as it was; and the ids given to the created events are
    pairwise distinct. *)
Theorem nextId_monotone_ids_distinct (env : Env) (reqs : list Request) (st : State) :
  - maxSafeInteger ≤ nextIdOf st →
  nextIdOf st + Z.of_nat (length reqs) ≤ maxSafeInteger →
  let t := postEvents env reqs st in
  request <$> t = reqs
  ∧ Forall (λ s, postEvent env (request s) (before s) = (outcome s, after s)) t
  ∧ (∀ s, t !! 0%nat = Some s → before s = st)
  ∧ (∀ i s1 s2, t !! i = Some s1 → t !! S i = Some s2 → before s2 = after s1)
  ∧ (∀ i j s1 s2, t !! i = Some s1 → t !! j = Some s2 → (i ≤ j)%nat →
       nextIdOf (before s1) ≤ nextIdOf (before s2)
       ∧ nextIdOf (before s2) ≤ nextIdOf (after s2))
  ∧ Forall (λ s,
       (∀ ev, outcome s = Ret (Json ev) → isCreation (body (request s)) = true →
          id ev = Some (nextIdOf (before s))
          ∧ nextIdOf (after s) = nextIdOf (before s) + 1)
       ∧ (∀ user center st1,
            isCreation (body (request s)) = true →
            appuser (request s) = Some user → user ≠ EmptyString →
            geocoded (before s) →
            getCenterAsync env (field "center" (body (request s))) (before s)
              = (Ret (Some center), st1) →
            hasWritePermAsync env user (users center) = true →
            field "hasOwnProperty" (body (request s)) = None →
            snd (applyChanges {| id := Some (nextIdOf (before s)); props := ∅ |}
                   (body (request s))) = EmptyString →
            nextIdOf (after s) = nextIdOf (before s) + 1
            ∧ (outcome s = Throw
               ∨ ∃ ev, outcome s = Ret (Json ev) ∧ id ev = Some (nextIdOf (before s))))
       ∧ (∀ code err, outcome s = Ret (StatusError code err) →
            nextIdOf (after s) = nextIdOf (before s))
       ∧ (isCreation (body (request s)) = false →
            nextIdOf (after s) = nextIdOf (before s))) t
  ∧ NoDup (assignedIds t).
Proof.
  intros Hlo Hhi. cbv zeta. split; [| split; [apply postEvents_steps |]].
  { clear. revert st. induction reqs as [|req reqs IH]; intros st; cbn [postEvents];
      [done |].
    destruct (postEvent env req st) as [r st']. cbn. by rewrite IH. }
  split.
  { destruct reqs as [|req reqs]; cbn [postEvents]; [done |].
    destruct (postEvent env req st) as [r st']. by intros s [= <-]. }
  split.
  { clear. revert st. induction reqs as [|req reqs IH]; intros st i s1 s2;
      cbn [postEvents]; [done |].
    destruct (postEvent env req st) as [r st'].
    destruct i as [|i]; cbn.
    - intros [= <-]. destruct reqs as [|req' reqs]; cbn [postEvents]; [done |].
      destruct (postEvent env req' st') as [r' st'']. by intros [= <-].
    - apply IH. }
  split.
  { revert st Hlo Hhi. induction reqs as [|req reqs IH]; intros st Hlo Hhi i j s1 s2;
      cbn [postEvents]; [done |].
    cbn [length] in Hhi.
    pose proof (nextIdStep_mono _ st _ ltac:(lia) (postEvent_step env req st)) as Hst.
    destruct (postEvent env req st) as [r st'] eqn:E. cbn [snd] in Hst.
    destruct i as [|i]; cbn.
    - intros [= <-]. cbn [before].
      destruct j as [|j]; cbn.
      + intros [= <-] _. cbn. lia.
      + intros Hj _.
        pose proof (postEvents_before env reqs st' s2 ltac:(lia) ltac:(lia)
                      (list_elem_of_lookup_2 _ _ _ Hj)) as Hb.
        pose proof (postEvents_steps env reqs st') as Hsteps.
        rewrite Forall_forall in Hsteps.
        specialize (Hsteps s2 (list_elem_of_lookup_2 _ _ _ Hj)).
        pose proof (nextIdStep_mono _ (before s2) _ ltac:(lia)
                      (postEvent_step env (request s2) (before s2))) as H2.
        rewrite Hsteps in H2. cbn [snd] in H2. lia.
    - destruct j as [|j]; [lia |]. cbn. intros H1 H2 Hij.
      eapply (IH st'); eauto; lia. }
  split.
  { rewrite Forall_forall. intros s Hs.
    pose proof (postEvents_before env reqs st s Hlo Hhi Hs) as Hb.
    pose proof (postEvents_steps env reqs st) as Hsteps.
    rewrite Forall_forall in Hsteps. specialize (Hsteps s Hs).
    pose proof (postEvent_step env (request s) (before s)) as Hst.
    rewrite Hsteps in Hst.
    assert (Hinc : jsIncr (nextIdOf (before s)) = nextIdOf (before s) + 1)
      by (apply jsIncr_safe; lia).
    split; [| split; [| split]].
    - intros ev Ho Hc. rewrite Hc in Hst. rewrite <- Hinc.
      apply (nextIdStep_created _ _ ev Hst). exact Ho.
    - intros user center st1 Hc Hu Hne _ Hget Hperm _ Hok.
      destruct (postEvent_accepted env (request s) (before s) user center st1
                  Hc Hu Hne Hget Hperm Hok) as [Hn Hr].
      rewrite Hsteps in Hn, Hr. cbn [fst snd] in Hn, Hr. by rewrite Hn, Hinc.
    - intros code err Ho. apply (nextIdStep_rejected _ _ _ code err Hst). exact Ho.
    - intros Hc. rewrite Hc in Hst. by apply nextIdStep_update in Hst. }
  revert st Hlo Hhi. induction reqs as [|req reqs IH]; intros st Hlo Hhi;
    cbn [postEvents]; [constructor |].
  cbn [length] in Hhi.
  pose proof (postEvent_step env req st) as Hst.
  pose proof (nextIdStep_mono _ st _ ltac:(lia) Hst) as Hm.
  destruct (postEvent env req st) as [r st'] eqn:E. cbn [snd] in Hm.
  unfold assignedIds. cbn [omap list_omap].
  destruct (createdId (mkStep req st r st')) as [z|] eqn:Hz;
    [| apply IH; lia].
  constructor; [| apply IH; lia].
  intros Hin. apply postEvents_assigned in Hin; [| lia | lia].
  unfold createdId in Hz. cbn [outcome request] in Hz.
  destruct r as [[| |ev]|]; try discriminate.
  destruct (isCreation (body req)) eqn:Hc; [|discriminate].
  destruct (nextIdStep_created _ _ ev Hst eq_refl) as [Hid Hn].
  cbn [snd] in Hn. rewrite jsIncr_safe in Hn by lia.
  rewrite Hid in Hz. injection Hz as <-. lia.
Qed.

Lemma nextId_monotone_ids_distinct_witness :
  let t := postEvents exampleEnv exampleRequests geocodedState in
  (- maxSafeInteger ≤ nextIdOf geocodedState
   ∧ nextIdOf geocodedState + Z.of_nat (length exampleRequests) ≤ maxSafeInteger)
  ∧ (∃ s, t !! 0%nat = Some s
          ∧ nextIdOf (before s) = 1 ∧ nextIdOf (after s) = nextIdOf (before s) + 1
          ∧ ∃ ev, outcome s = Ret (Json ev) ∧ id ev = Some (nextIdOf (before s)))
  ∧ (∃ s msg, t !! 1%nat = Some s ∧ outcome s = Ret (StatusError 412 msg)
              ∧ nextIdOf (after s) = nextIdOf (before s))
  ∧ assignedIds t = [1; 2]
  ∧ NoDup (assignedIds t).
Proof.
  cbv zeta.
  assert (Hlo : - maxSafeInteger ≤ nextIdOf geocodedState) by (vm_compute; discriminate).
  assert (Hhi : nextIdOf geocodedState + Z.of_nat (length exampleRequests) ≤ maxSafeInteger)
    by (vm_compute; discriminate).
  destruct (nextId_monotone_ids_distinct exampleEnv exampleRequests geocodedState Hlo Hhi)
    as (_ & _ & _ & _ & _ & Hsteps & Hnd).
  split; [by split |].
  split; [| split; [| split; [vm_compute; reflexivity | exact Hnd]]].
  - set (r := creation [("center", "y"); ("startDate", "2024-05-01"); ("title", "A")]).
    set (p := postEvent exampleEnv r geocodedState).
    assert (H0 : postEvents exampleEnv exampleRequests geocodedState !! 0%nat
                 = Some (mkStep r geocodedState (fst p) (snd p)))
      by (vm_compute; reflexivity).
    exists (mkStep r geocodedState (fst p) (snd p)). split; [exact H0 |].
    apply (Forall_lookup_1 _ _ _ _ Hsteps) in H0 as (_ & Hlive & _).
    cbn [request before after outcome] in Hlive |- *.
    destruct (Hlive "ann" centerY (snd (getCenterAsync exampleEnv (Some "y") geocodedState)))
      as [Hn [Ht|Hr]];
      [reflexivity | reflexivity | discriminate
      | apply (bool_decide_unpack _); vm_compute; reflexivity
      | vm_compute; reflexivity | vm_compute; reflexivity | reflexivity
      | vm_compute; reflexivity | vm_compute in Ht; discriminate | ].
    split; [reflexivity |]. split; [exact Hn | exact Hr].
  - set (r := creation [("center", "y"); ("startDate", "1999-05-01"); ("title", "B")]).
    set (st1 := snd (postEvent exampleEnv
                       (creation [("center", "y"); ("startDate", "2024-05-01");
                                  ("title", "A")]) geocodedState)).
    set (p := postEvent exampleEnv r st1).
    assert (H1 : postEvents exampleEnv exampleRequests geocodedState !! 1%nat
                 = Some (mkStep r st1 (fst p) (snd p)))
      by (vm_compute; reflexivity).
    exists (mkStep r st1 (fst p) (snd p)).
    assert (Hout : ∃ msg, fst p = Ret (StatusError 412 msg))
      by (eexists; vm_compute; reflexivity).
    destruct Hout as [msg Hout]. exists msg. split; [exact H1 |]. split; [exact Hout |].
    apply (Forall_lookup_1 _ _ _ _ Hsteps) in H1 as (_ & _ & Hrej & _).
    exact (Hrej 412 msg Hout).
Defined.

(** The claim of C3 as it is written fails: from a [nextId] of 2^53, two
    creations that are answered with their events get the same id, and
    [nextId] is not incremented. *)
Lemma nextId_stalls_counterexample :
  let t := postEvents exampleEnv
             [creation [("center", "y"); ("startDate", "2024-05-01"); ("title", "A")];
              creation [("center", "y"); ("startDate", "2024-06-01"); ("title", "B")]]
             stalledState in
  (∃ e1 e2, outcome <$> t = [Ret (Json e1); Ret (Json e2)]
            ∧ field "title" e1 = Some "A" ∧ field "title" e2 = Some "B")
  ∧ (λ s, nextIdOf (before s)) <$> t = [9007199254740992; 9007199254740992]
  ∧ (λ s, nextIdOf (after s)) <$> t = [9007199254740992; 9007199254740992]
  ∧ assignedIds t = [9007199254740992; 9007199254740992]
  ∧ ¬ NoDup (assignedIds t).
Proof.
  cbv zeta. split; [eexists; eexists; vm_compute; repeat split |].
  split; [vm_compute; reflexivity |]. split; [vm_compute; reflexivity |].
  assert (Hids : assignedIds
            (postEvents exampleEnv
               [creation [("center", "y"); ("startDate", "2024-05-01"); ("title", "A")];
                creation [("center", "y"); ("startDate", "2024-06-01"); ("title", "B")]]
               stalledState)
          = [9007199254740992; 9007199254740992]) by (vm_compute; reflexivity).
  split; [exact Hids |]. rewrite Hids. intros Hnd. inversion Hnd as [|? ? Hin _].
  apply Hin. left.
Qed.

(** A run of six requests on the example repository: a creation, a
    creation with a date that is rejected, a request by a user without the
    permission, an update, an update without center, and a second
    creation. *)
Example postEvents_run :
  let mk := λ l, mkRequest (Some "ann") (mkEvent None (obj l)) in
  let t := postEvents exampleEnv
             [mk [("center", "x"); ("startDate", "2024-05-01"); ("title", "A")];
              mk [("center", "x"); ("startDate", "1999-05-01"); ("title", "B")];
              mkRequest (Some "bob") (mkEvent None (obj [("center", "x")]));
              mkRequest (Some "ann")
                (mkEvent (Some 1) (obj [("center", "x"); ("title", "A2")]));
              mkRequest (Some "ann") (mkEvent (Some 1) (obj [("title", "A3")]));
              mkRequest (Some "ann")
                (mkEvent (Some 0) (obj [("center", "w"); ("startDate", "2024-06-01")]))]
             exampleState in
  assignedIds t = [1; 2]
  ∧ (λ s, nextIdOf (after s)) <$> t = [2; 2; 2; 2; 2; 3].
Proof. cbv zeta. split; vm_compute; reflexivity. Qed.

(** ** Query engine *)

Lemma insertBy_perm {A} (cmp : A → A → Z) x l : insertBy cmp x l ≡ₚ x :: l.
Proof.
  induction l as [|y l IH]; cbn [insertBy]; [done |].
  destruct (cmp x y <=? 0)%Z; [done |]. rewrite IH. apply Permutation_swap.
Qed.

(** The sort rearranges its argument. *)
Lemma sortBy_perm {A} (cmp : A → A → Z) l : sortBy cmp l ≡ₚ l.
Proof.
  unfold sortBy. induction l as [|x l IH]; cbn [foldr]; [done |].
  by rewrite insertBy_perm, IH.
Qed.

Lemma pageSize_eq q :
  pageSize q =
  match parseInt (q !! "count") with
  | Some n => if (n =? 0)%Z then 100 else Z.min (Z.abs n) 100
  | None => 100
  end.
Proof.
  unfold pageSize. destruct (parseInt (q !! "count")) as [[|n|n]|]; try done.
  - rewrite Z.gtb_ltb. cbn [Z.eqb]. destruct (Z.ltb_spec 100 (Z.abs (Z.pos n))); lia.
  - rewrite Z.gtb_ltb. cbn [Z.eqb]. destruct (Z.ltb_spec 100 (Z.abs (Z.neg n))); lia.
Qed.

Lemma pageSize_bounds q : 0 ≤ pageSize q ≤ 100.
Proof.
  rewrite pageSize_eq. destruct (parseInt (q !! "count")) as [n|]; [|lia].
  destruct (n =? 0)%Z; lia.
Qed.

Lemma sliceFrom_sublist {A} k (l : list A) : sliceFrom k l `sublist_of` l.
Proof. unfold sliceFrom. destruct (k <? 0)%Z; apply sublist_drop. Qed.

Lemma paginate_sublist {A} q (l : list A) : paginate q l `sublist_of` l.
Proof.
  unfold paginate.
  set (l1 := if default 0 (parseInt (q !! "skip")) =? 0 then l
             else sliceFrom (default 0 (parseInt (q !! "skip"))) l).
  assert (H1 : l1 `sublist_of` l).
  { unfold l1. destruct (_ =? 0)%Z; [done |]. apply sliceFrom_sublist. }
  destruct (Z.of_nat (length l1) >? pageSize q)%Z; [| done].
  etrans; [apply sublist_take | done].
Qed.

Lemma paginate_length {A} q (l : list A) :
  Z.of_nat (length (paginate q l)) ≤ pageSize q.
Proof.
  pose proof (pageSize_bounds q) as Hb. unfold paginate.
  match goal with |- context [Z.of_nat (length ?l1) >? _] => generalize l1 end.
  intros l1. rewrite Z.gtb_ltb.
  destruct (Z.ltb_spec (pageSize q) (Z.of_nat (length l1))); [| lia].
  rewrite length_take. lia.
Qed.

Lemma sublist_full {A} (l1 l2 : list A) :
  l1 `sublist_of` l2 → length l1 = length l2 → l1 = l2.
Proof.
  induction 1 as [|x l1 l2 Hs IH|x l1 l2 Hs IH]; cbn; intros Hl; [done | |].
  - f_equal. apply IH. lia.
  - apply sublist_length in Hs. lia.
Qed.

(** [cachedCenters] returns the directory, and a second call finds the
    state the first one left. *)
Lemma cachedCenters_run env st :
  cachedCenters env st = (Ret (centersValue env st), snd (cachedCenters env st)).
Proof.
  unfold cachedCenters, centersValue.
  destruct (gitfs_events env); cbn; [| done].
  destruct (_centers st) eqn:E; cbn; by rewrite ?E.
Qed.

Lemma cachedCenters_idem env st :
  cachedCenters env (snd (cachedCenters env st))
  = (Ret (centersValue env st), snd (cachedCenters env st)).
Proof.
  unfold cachedCenters, centersValue.
  destruct (gitfs_events env); cbn; [| done].
  destruct (_centers st) eqn:E; cbn; by rewrite ?E.
Qed.

Lemma cachedCenters_centers env st :
  _centers (snd (cachedCenters env st)) = Some (centersValue env st).
Proof.
  unfold cachedCenters, centersValue.
  destruct (gitfs_events env); cbn; [| done].
  destruct (_centers st) eqn:E; cbn; by rewrite ?E.
Qed.

Lemma augmentEvent_run env ev st :
  augmentEvent env ev st
  = (Ret (augmentWith env (centersValue env st) ev), snd (cachedCenters env st)).
Proof. unfold augmentEvent, bind. by rewrite cachedCenters_run. Qed.

(** The augmentation of a page never throws; every entry is augmented
    with the same directory. *)
Lemma mapM_augmentEvent env l : ∀ st,
  mapM (augmentEvent env) l st
  = (Ret (augmentWith env (centersValue env st) <$> l),
     match l with [] => st | _ => snd (cachedCenters env st) end).
Proof.
  induction l as [|x l IH]; intros st; cbn [mapM]; [done |].
  unfold bind at 1. rewrite augmentEvent_run.
  unfold bind at 1. rewrite IH.
  assert (Hv : centersValue env (snd (cachedCenters env st)) = centersValue env st).
  { pose proof (cachedCenters_run env (snd (cachedCenters env st))) as H.
    rewrite cachedCenters_idem in H. by injection H as <-. }
  rewrite Hv. cbn [ret fmap list_fmap]. f_equal.
  destruct l; [done |]. by rewrite cachedCenters_idem.
Qed.

(** [queryEventsAsync] up to the sort, step by step. *)
Lemma filteredEvents_run env today3 q st :
  filteredEvents env today3 q st =
  let w := windowEvents today3 q (index st) in
  let country := or_else (q !! "country") "*" in
  match mapM (λ e, getCenterAsync env (field "center" e)) w st with
  | (Ret _, st2) =>
      if negb (String.eqb country "*") then
        (Ret (sortBy compareEvents
                (filter (λ e, inCountry (centersValue env st2) country e = true) w)),
         snd (cachedCenters env st2))
      else (Ret (sortBy compareEvents w), st2)
  | (Throw, st2) => (Throw, st2)
  end.
Proof.
  unfold filteredEvents, windowEvents. cbv zeta.
  unfold bind at 1. cbn [gets]. unfold bind at 1.
  destruct (mapM _ _ st) as [[l|] st2]; [| done].
  unfold bind at 1.
  destruct (negb (String.eqb (or_else (q !! "country") "*") "*")); [| done].
  unfold bind at 1. by rewrite cachedCenters_run.
Qed.

Lemma queryEventsAsync_run env today3 q st :
  queryEventsAsync env today3 q st =
  match filteredEvents env today3 q st with
  | (Ret l, st3) =>
      (Ret {| totalCount := Z.of_nat (length l);
              resultEvents := augmentWith env (centersValue env st3) <$> paginate q l |},
       match paginate q l with [] => st3 | _ => snd (cachedCenters env st3) end)
  | (Throw, st3) => (Throw, st3)
  end.
Proof.
  unfold queryEventsAsync. unfold bind at 1.
  destruct (filteredEvents env today3 q st) as [[l|] st3]; [| done].
  unfold bind at 1. by rewrite mapM_augmentEvent.
Qed.

Lemma centersValue_cachedCenters env st :
  centersValue env (snd (cachedCenters env st)) = centersValue env st.
Proof.
  pose proof (cachedCenters_run env (snd (cachedCenters env st))) as H.
  rewrite cachedCenters_idem in H. by injection H as <-.
Qed.

Lemma survives_wildcard today3 q c c' e :
  or_else (q !! "country") "*" = "*" →
  survives today3 q c e = survives today3 q c' e.
Proof. intros Hw. unfold survives. by rewrite Hw. Qed.

Lemma survives_country today3 q c e :
  or_else (q !! "country") "*" ≠ "*" →
  survives today3 q c e = true ↔
  inCountry c (or_else (q !! "country") "*") e = true
  ∧ inWindow (or_else (q !! "start") today3) (or_else (q !! "stop") "9999-99-99")
             (or_else (q !! "center") "*") e = true.
Proof.
  intros Hc. unfold survives.
  apply String.eqb_neq in Hc. rewrite Hc, andb_true_iff. cbn. tauto.
Qed.

(** The entries that reach the sort are those of the index that pass the
    filters, with the directory as the query leaves it. *)
Lemma filteredEvents_spec env today3 q st l st3 :
  filteredEvents env today3 q st = (Ret l, st3) →
  l ≡ₚ filter (λ e, survives today3 q (centersValue env st3) e = true)
        (events (index st))
  ∧ (or_else (q !! "country") "*" ≠ "*" →
     cachedCenters env st3 = (Ret (centersValue env st3), st3)).
Proof.
  rewrite filteredEvents_run. cbv zeta. unfold windowEvents.
  destruct (mapM _ _ st) as [[u|] st2]; [| discriminate].
  destruct (String.eqb (or_else (q !! "country") "*") "*") eqn:Hc; cbn [negb].
  - apply String.eqb_eq in Hc. intros [= <- <-]. split; [| done].
    rewrite sortBy_perm. apply reflexive_eq.
    apply list_filter_iff. intros e. unfold survives.
    rewrite Hc. cbn. by rewrite andb_true_r.
  - apply String.eqb_neq in Hc. intros [= <- <-]. split.
    + rewrite sortBy_perm, list_filter_filter. apply reflexive_eq.
      apply list_filter_iff. intros e.
      by rewrite survives_country, centersValue_cachedCenters.
    + intros _. by rewrite cachedCenters_idem, centersValue_cachedCenters.
Qed.

(** C5 (as amended).  When a query returns, the number of events
    returned is at most the page size, which is [min(|n|, 100)] when
    [count] parses to an integer [n] other than 0, and 100 when [count] is
    absent, is not a number, or is 0; and [totalCount] is the number of
    index entries that pass the date, center and country filters (with the
    directory as the query leaves it), before [skip] and the truncation, so
    it bounds the number returned. *)
Theorem query_page_and_total (env : Env) (today3 : string) (q : gmap string string)
    (st st' : State) (r : QueryResult) :
  queryEventsAsync env today3 q st = (Ret r, st') →
  Z.of_nat (length (resultEvents r)) ≤ pageSize q
  ∧ pageSize q = match parseInt (q !! "count") with
                 | Some n => if (n =? 0)%Z then 100 else Z.min (Z.abs n) 100
                 | None => 100
                 end
  ∧ totalCount r =
    Z.of_nat (length (filter (λ e, survives today3 q (default ∅ (_centers st')) e = true)
                        (events (index st))))
  ∧ Z.of_nat (length (resultEvents r)) ≤ totalCount r.
Proof.
  rewrite queryEventsAsync_run.
  destruct (filteredEvents env today3 q st) as [[l|] st3] eqn:Hf; [| discriminate].
  intros [= <- <-]. cbn [resultEvents totalCount].
  rewrite length_fmap.
  split; [apply paginate_length |]. split; [apply pageSize_eq |].
  apply filteredEvents_spec in Hf as [Hl Hs].
  split.
  - rewrite Hl. do 2 f_equal. apply list_filter_iff. intros e.
    destruct (decide (or_else (q !! "country") "*" = "*")) as [Hw|Hc].
    + erewrite survives_wildcard; [reflexivity | exact Hw].
    + specialize (Hs Hc).
      assert (Hcs : _centers st3 = Some (centersValue env st3)).
      { rewrite <- (cachedCenters_centers env st3). by rewrite Hs. }
      destruct (paginate q l); [by rewrite Hcs |].
      rewrite Hs. cbn [snd]. by rewrite Hcs.
  - apply inj_le, sublist_length, paginate_sublist.
Qed.

Lemma query_page_and_total_witness :
  let q := obj [("count", "-2"); ("country", "US")] in
  ∃ r st',
    queryEventsAsync exampleEnv "2024-04-28" q queryState = (Ret r, st')
    ∧ (id <$> resultEvents r) = [Some 2; Some 3]
    ∧ Z.of_nat (length (resultEvents r)) ≤ pageSize q
    ∧ pageSize q = match parseInt (q !! "count") with
                   | Some n => if (n =? 0)%Z then 100 else Z.min (Z.abs n) 100
                   | None => 100
                   end
    ∧ totalCount r =
      Z.of_nat (length (filter (λ e, survives "2024-04-28" q
                                       (default ∅ (_centers st')) e = true)
                          (events (index queryState))))
    ∧ Z.of_nat (length (resultEvents r)) ≤ totalCount r.
Proof.
  cbv zeta. eexists _, _. split; [vm_compute; reflexivity |].
  split; [vm_compute; reflexivity |].
  apply (query_page_and_total exampleEnv "2024-04-28"
           (obj [("count", "-2"); ("country", "US")]) queryState).
  vm_compute. reflexivity.
Defined.

(** The claim of C5 as it is written fails: with [count=0] the value 0 is
    replaced by 100, and the query returns three events, more than
    [min(|0|, 100) = 0]. *)
Lemma query_count_zero_counterexample :
  ∃ r st',
    queryEventsAsync exampleEnv "2024-04-28" (obj [("count", "0")]) queryState
    = (Ret r, st')
    ∧ parseInt (obj [("count", "0")] !! "count") = Some 0
    ∧ length (resultEvents r) = 3%nat
    ∧ ¬ (Z.of_nat (length (resultEvents r)) ≤ Z.min (Z.abs 0) 100).
Proof.
  eexists _, _. split; [vm_compute; reflexivity |].
  split; [vm_compute; reflexivity |]. split; [vm_compute; reflexivity |].
  vm_compute. intros H. apply H. reflexivity.
Qed.

(** C6 (as amended).  Take two queries that differ only in [country],
    one naming a country and the other the wildcard (or none), run from the
    same state.  Either both throw or both return.  When they return, the
    entries that survive the filters of the first are exactly those
    surviving entries of the second whose center is in the directory with
    that country: an entry is removed if and only if the directory has no
    such center for it.  So the surviving entries of the wildcard query
    contain those of the other, and its [totalCount] is at least as large;
    and when the wildcard query returns all its surviving entries, the
    events it returns contain the events returned for the country. *)
Theorem country_filter_exact (env : Env) (today3 : string) (qc qw : gmap string string)
    (st : State) :
  or_else (qc !! "country") "*" ≠ "*" →
  or_else (qw !! "country") "*" = "*" →
  (∀ k, k ≠ "country" → qw !! k = qc !! k) →
  match filteredEvents env today3 qw st, filteredEvents env today3 qc st with
  | (Ret lw, stw), (Ret lc, stc) =>
      lc ≡ₚ filter (λ e, inCountry (default ∅ (_centers stc))
                           (or_else (qc !! "country") "*") e = true) lw
      ∧ (∀ e, e ∈ lc → e ∈ lw)
      ∧ (∀ e, e ∈ lw → e ∉ lc →
           inCountry (default ∅ (_centers stc)) (or_else (qc !! "country") "*") e = false)
  | (Throw, _), (Throw, _) => True
  | _, _ => False
  end
  ∧ (∀ rw stw rc stc,
       queryEventsAsync env today3 qw st = (Ret rw, stw) →
       queryEventsAsync env today3 qc st = (Ret rc, stc) →
       totalCount rc ≤ totalCount rw
       ∧ (Z.of_nat (length (resultEvents rw)) = totalCount rw →
          ∀ e, e ∈ resultEvents rc → e ∈ resultEvents rw)).
Proof.
  intros Hc Hw Hk.
  assert (Hwin : windowEvents today3 qw (index st) = windowEvents today3 qc (index st)).
  { unfold windowEvents. by rewrite !Hk by discriminate. }
  assert (Hrun : ∃ p, mapM (λ e, getCenterAsync env (field "center" e))
                        (windowEvents today3 qc (index st)) st = p) by eauto.
  destruct Hrun as [[u st2] Hrun].
  assert (Hfw : filteredEvents env today3 qw st =
                match u with
                | Ret _ => (Ret (sortBy compareEvents (windowEvents today3 qc (index st))),
                            st2)
                | Throw => (Throw, st2)
                end).
  { rewrite filteredEvents_run. cbv zeta. rewrite Hwin, Hrun, Hw. by destruct u. }
  assert (Hfc : filteredEvents env today3 qc st =
                match u with
                | Ret _ =>
                    (Ret (sortBy compareEvents
                            (filter (λ e, inCountry (centersValue env st2)
                                            (or_else (qc !! "country") "*") e = true)
                               (windowEvents today3 qc (index st)))),
                     snd (cachedCenters env st2))
                | Throw => (Throw, st2)
                end).
  { rewrite filteredEvents_run. cbv zeta. rewrite Hrun.
    apply String.eqb_neq in Hc. rewrite Hc. by destruct u. }
  set (w := windowEvents today3 qc (index st)) in *.
  set (country := or_else (qc !! "country") "*") in *.
  assert (Hperm : sortBy compareEvents
                    (filter (λ e, inCountry (centersValue env st2) country e = true) w)
                  ≡ₚ filter (λ e, inCountry (centersValue env st2) country e = true)
                       (sortBy compareEvents w)).
  { by rewrite !sortBy_perm. }
  assert (Hsub : ∀ e, e ∈ sortBy compareEvents
                        (filter (λ e, inCountry (centersValue env st2) country e = true) w)
                      → e ∈ sortBy compareEvents w).
  { intros e. rewrite Hperm, list_elem_of_filter. tauto. }
  rewrite Hfw, Hfc. split.
  - destruct u as [_u|]; [| done].
    rewrite cachedCenters_centers. cbn [default]. split; [exact Hperm |].
    split; [exact Hsub |].
    intros e He Hne. apply not_true_is_false. intros Hin. apply Hne.
    rewrite Hperm, list_elem_of_filter. tauto.
  - intros rw stw rc stc. rewrite !queryEventsAsync_run, Hfw, Hfc.
    destruct u as [_u|]; [| discriminate].
    intros [= <- <-] [= <- <-]. cbn [totalCount resultEvents].
    rewrite centersValue_cachedCenters. split.
    + apply inj_le. rewrite Hperm, sortBy_perm. apply sublist_length, sublist_filter.
    + rewrite length_fmap. intros Hfull%Nat2Z.inj.
      apply sublist_full in Hfull; [| apply paginate_sublist]. rewrite Hfull.
      intros e (x & -> & Hx)%list_elem_of_fmap. apply list_elem_of_fmap_2.
      apply Hsub. eapply elem_of_sublist; [exact Hx | apply paginate_sublist].
Qed.

Lemma country_filter_exact_witness :
  let qc := obj [("start", "2024-05-01"); ("country", "US")] in
  let qw := obj [("start", "2024-05-01"); ("country", "*")] in
  match filteredEvents exampleEnv "2024-04-28" qw queryState,
        filteredEvents exampleEnv "2024-04-28" qc queryState with
  | (Ret lw, stw), (Ret lc, stc) =>
      lc ≡ₚ filter (λ e, inCountry (default ∅ (_centers stc))
                           (or_else (qc !! "country") "*") e = true) lw
      ∧ (∀ e, e ∈ lc → e ∈ lw)
      ∧ (∀ e, e ∈ lw → e ∉ lc →
           inCountry (default ∅ (_centers stc)) (or_else (qc !! "country") "*") e = false)
  | (Throw, _), (Throw, _) => True
  | _, _ => False
  end
  ∧ (∀ rw stw rc stc,
       queryEventsAsync exampleEnv "2024-04-28" qw queryState = (Ret rw, stw) →
       queryEventsAsync exampleEnv "2024-04-28" qc queryState = (Ret rc, stc) →
       totalCount rc ≤ totalCount rw
       ∧ (Z.of_nat (length (resultEvents rw)) = totalCount rw →
          ∀ e, e ∈ resultEvents rc → e ∈ resultEvents rw)).
Proof.
  cbv zeta. apply country_filter_exact.
  - vm_compute. discriminate.
  - reflexivity.
  - intros k Hk. unfold obj. cbn [list_to_map foldr uncurry].
    destruct (decide (k = "start")) as [->|Hs]; [reflexivity |].
    by rewrite !(lookup_insert_ne _ "start"), !lookup_insert_ne.
Defined.

(** The claim of C6 as it is written fails for the events returned: with
    [count=1] the wildcard query returns the event of the Polish center,
    the first by date, and the query for the country US returns an event
    that the wildcard query does not return. *)
Lemma country_page_not_superset :
  ∃ rw stw rc stc,
    queryEventsAsync exampleEnv "2024-04-28" (obj [("count", "1"); ("country", "*")])
      queryState = (Ret rw, stw)
    ∧ queryEventsAsync exampleEnv "2024-04-28" (obj [("count", "1"); ("country", "US")])
        queryState = (Ret rc, stc)
    ∧ (id <$> resultEvents rw) = [Some 1]
    ∧ (id <$> resultEvents rc) = [Some 2]
    ∧ ¬ (∀ e, e ∈ resultEvents rc → e ∈ resultEvents rw).
Proof.
  eexists _, _, _, _. split; [vm_compute; reflexivity |].
  split; [vm_compute; reflexivity |].
  split; [vm_compute; reflexivity |]. split; [vm_compute; reflexivity |].
  intros H. cbn [resultEvents] in H.
  match goal with
  | H : ∀ e, e ∈ [?x] → e ∈ [?y] |- _ =>
      specialize (H x (list_elem_of_here _ _)); apply list_elem_of_singleton in H;
      apply (f_equal id) in H
  end.
  discriminate.
Qed.

(** ** Saving an event and reading it back *)

Lemma preserves_ret {A} P (a : A) : preserves P (ret a).
Proof. by intros st. Qed.

Lemma preserves_throw {A} P : preserves P (@throw A).
Proof. by intros st. Qed.

Lemma preserves_gets {A} P (g : State → A) : preserves P (gets g).
Proof. by intros st. Qed.

Lemma preserves_bind {A B} P (m : M A) (k : A → M B) :
  preserves P m → (∀ a, preserves P (k a)) → preserves P (bind m k).
Proof.
  intros Hm Hk st HP. unfold bind. specialize (Hm st HP).
  destruct (m st) as [[a|] st1]; cbn [snd] in *; [by apply Hk | done].
Qed.

Section Directory.
Context (env : Env) (Hgit : gitfs_events env = true).
Context (cid : string) (center : Center).

Lemma cachedCenters_held st :
  holdsCenter cid center st →
  cachedCenters env st = (Ret (default ∅ (_centers st)), st).
Proof. intros (m & Hm & _). unfold cachedCenters. by rewrite Hgit, Hm. Qed.

Lemma getCenterAsync_held st :
  holdsCenter cid center st →
  getCenterAsync env (Some cid) st = (Ret (Some center), st).
Proof.
  intros H. pose proof H as (m & Hm & Hc). cbn [getCenterAsync]. unfold bind.
  rewrite (cachedCenters_held st H), Hm. cbn [default from_option Datatypes.id gets].
  unfold tools.lookup. rewrite Hc.
  by rewrite bool_decide_eq_true_2 by eauto.
Qed.

Lemma cachedCenters_preserves : preserves (holdsCenter cid center) (cachedCenters env).
Proof. intros st H. by rewrite (cachedCenters_held st H). Qed.

Lemma getCenterAsync_preserves i :
  preserves (holdsCenter cid center) (getCenterAsync env i).
Proof.
  destruct i as [i|]; [| apply preserves_ret]. intros st H.
  pose proof H as (m & Hm & Hc). cbn [getCenterAsync]. unfold bind.
  rewrite (cachedCenters_held st H), Hm. cbn [default from_option Datatypes.id gets].
  unfold tools.lookup. destruct (m !! i) as [c|] eqn:Hi.
  - by rewrite bool_decide_eq_true_2 by eauto.
  - rewrite bool_decide_eq_false_2 by (by intros [? ?]). cbn [orb].
    destruct (hasAllCenters st); [done |].
    unfold readCenterFile. rewrite Hgit. cbn [negb].
    destruct (centerFiles (store st) !! i) as [c0|]; [| done].
    cbn. exists (<[i := parseCenterAsync env c0]> m). rewrite Hm. split; [done |].
    rewrite lookup_insert_ne; [done |]. intros ->. congruence.
Qed.

Lemma augmentEvent_preserves ev :
  preserves (holdsCenter cid center) (augmentEvent env ev).
Proof.
  apply preserves_bind; [apply cachedCenters_preserves |]. intros c. apply preserves_ret.
Qed.

Lemma readEventAsync_preserves n :
  preserves (holdsCenter cid center) (readEventAsync env n).
Proof.
  unfold readEventAsync.
  apply preserves_bind; [apply preserves_gets |]. intros ix.
  match goal with |- context [if ?b then _ else _] => destruct b end;
    [apply preserves_ret |].
  apply preserves_bind; [apply preserves_gets |]. intros cached.
  apply preserves_bind.
  { destruct cached; [apply preserves_ret |].
    apply preserves_bind; [intros st; by rewrite readEventFile_state |]. intros text.
    apply preserves_bind; [by intros st | intros _; apply preserves_ret]. }
  intros r. apply preserves_bind; [apply getCenterAsync_preserves |]. intros c.
  apply preserves_bind.
  { match goal with |- context [if ?b then _ else _] => destruct b end;
      [destruct c; [apply preserves_ret | apply preserves_throw] | apply preserves_ret]. }
  intros r'. apply preserves_bind; [apply augmentEvent_preserves |]. intros r''.
  apply preserves_ret.
Qed.

End Directory.

(** A center that [getCenterAsync] returns is held by the directory
    afterwards, and the repository is configured. *)
Lemma getCenterAsync_Some env i st c st1 :
  getCenterAsync env i st = (Ret (Some c), st1) →
  gitfs_events env = true ∧ ∃ cid, i = Some cid ∧ holdsCenter cid c st1.
Proof.
  destruct i as [cid|]; [| discriminate]. cbn [getCenterAsync]. unfold bind.
  rewrite cachedCenters_run. cbn [gets].
  unfold centersValue, cachedCenters, readCenterFile, tools.lookup.
  destruct (gitfs_events env) eqn:Hgit; cbn [negb].
  - destruct (_centers st) as [m|] eqn:Hm; cbn [default from_option Datatypes.id snd].
    + destruct (m !! cid) as [c0|] eqn:Hc.
      * rewrite bool_decide_eq_true_2 by eauto. cbn [orb]. unfold ret.
        intros H. simplify_eq. split; [done |]. exists cid. split; [done |]. by exists m.
      * rewrite bool_decide_eq_false_2 by (by intros [? ?]). cbn [orb].
        destruct (hasAllCenters st); [absurd_run |].
        destruct (centerFiles (store st) !! cid) as [c0|]; cbv beta iota; [| absurd_run].
        intros H. cbv [cacheCenter modify ret] in H. rewrite Hm in H. simplify_eq.
        split; [done |]. exists cid. split; [done |].
        eexists. split; [reflexivity |]. apply lookup_insert_eq.
    + rewrite lookup_empty, bool_decide_eq_false_2 by (by intros [? ?]). cbn [orb].
      cbn [hasAllCenters set_centers set_subscribed].
      destruct (hasAllCenters st); [absurd_run |].
      intros H. cbv [cacheCenter modify ret] in H.
      cbn [store set_centers set_subscribed] in H.
      destruct (centerFiles (store st) !! cid) as [c0|]; cbv beta iota in H;
        [| discriminate].
      simplify_eq. split; [done |]. exists cid. split; [done |].
      eexists. split; [reflexivity |]. apply lookup_insert_eq.
  - cbn [snd]. rewrite lookup_empty, bool_decide_eq_false_2 by (by intros [? ?]).
    cbn [orb hasAllCenters set_centers]. destruct (hasAllCenters st); absurd_run.
Qed.

Lemma applyChanges_ok curr delta :
  snd (applyChanges curr delta) = EmptyString →
  fst (applyChanges curr delta) = copyFields eventKeys curr delta.
Proof.
  unfold applyChanges.
  repeat match goal with |- context [if ?b then _ else _] => destruct b end;
    cbn [fst snd]; done.
Qed.

(** The index lists the event after the upsert. *)
Lemma upsertIndex_listed e ix :
  existsb (λ x, bool_decide (id x = id e)) (events (upsertIndex e ix)) = true.
Proof.
  unfold upsertIndex, splice1. cbn [events].
  rewrite existsb_app. cbn [existsb forIndex id].
  rewrite bool_decide_eq_true_2 by done. by rewrite orb_true_r.
Qed.

Lemma saveEventAsync_run env e user st :
  gitfs_events env = true →
  ∃ st', saveEventAsync env e user st = (Ret tt, st')
         ∧ eventsCache st' = <[idString (id e) := e]> (eventsCache st)
         ∧ index st' = upsertIndex e (index st)
         ∧ _centers st' = _centers st.
Proof.
  intros Hgit. unfold saveEventAsync, bind, modify. rewrite Hgit. cbn [negb].
  eexists. split; [reflexivity |]. done.
Qed.

(** A commit that answers with the event: the validation passed, the
    event answered is the collapsed merge, and the state holds it in the
    cache and in the index. *)
Lemma commitEvent_saved env user center curr delta fresh st ev st1 :
  gitfs_events env = true →
  commitEvent env user center curr delta fresh st = (Ret (Json ev), st1) →
  ev = collapse center (copyFields eventKeys curr delta)
  ∧ eventsCache st1 !! idString (id ev) = Some ev
  ∧ existsb (λ x, bool_decide (id x = id ev)) (events (index st1)) = true
  ∧ _centers st1 = _centers st.
Proof.
  intros Hgit. unfold commitEvent.
  pose proof (applyChanges_ok curr delta) as Hok.
  destruct (applyChanges curr delta) as [c' err]. cbn [fst snd] in Hok.
  destruct err as [|a err]; cbn [truthy]; [| discriminate].
  rewrite Hok by done. set (e := collapse center (copyFields eventKeys curr delta)).
  unfold bind at 1.
  assert (Hpre : ∃ st0, (if fresh
                         then modify (λ st, set_index
                                {| events := events (index st);
                                   nextId := jsIncr (nextId (index st)) |} st)
                         else ret tt) st = (Ret tt, st0)
                        ∧ eventsCache st0 = eventsCache st
                        ∧ events (index st0) = events (index st)
                        ∧ _centers st0 = _centers st).
  { destruct fresh; eexists; (split; [reflexivity |]); done. }
  destruct Hpre as (st0 & -> & Hc0 & Hi0 & Hm0).
  unfold bind at 1.
  destruct (saveEventAsync_run env e user st0 Hgit) as (st' & -> & Hc & Hi & Hm).
  unfold ret. intros H. simplify_eq.
  split; [done |]. split; [by rewrite Hc, lookup_insert_eq |].
  split; [rewrite Hi; apply upsertIndex_listed | congruence].
Qed.

Lemma delete_field_if (b : bool) k0 e k :
  field k (if b then delete_field k0 e else e) =
  if bool_decide (k = k0) && b then None else field k e.
Proof.
  destruct b; rewrite ?andb_true_r, ?andb_false_r; [| done].
  unfold field, delete_field. cbn [props]. case_bool_decide as Hk.
  - subst. apply lookup_delete_eq.
  - by rewrite lookup_delete_ne.
Qed.

(** The fields of a record after the collapse. *)
Lemma collapse_field center e k :
  field k (collapse center e) =
  if bool_decide (k = "address") && js_eq (field "address" e) (cfield "address" center)
  then None
  else if bool_decide (k = "name") && js_eq (field "name" e) (cfield "name" center)
  then None
  else if bool_decide (k = "endDate") && js_eq (field "endDate" e) (field "startDate" e)
  then None
  else field k e.
Proof.
  unfold collapse. rewrite !delete_field_if.
  rewrite (bool_decide_eq_false_2 ("name" = "address")) by done.
  rewrite (bool_decide_eq_false_2 ("endDate" = "address")) by done.
  rewrite (bool_decide_eq_false_2 ("endDate" = "name")) by done.
  rewrite (bool_decide_eq_false_2 ("startDate" = "address")) by done.
  rewrite (bool_decide_eq_false_2 ("startDate" = "name")) by done.
  cbn [andb].
  repeat match goal with |- context [if ?b then _ else _] => destruct b eqn:? end;
    try done.
Qed.

Lemma assign_field_ne k0 v e k : k ≠ k0 → field k (assign_field k0 v e) = field k e.
Proof.
  intros Hk. unfold field, assign_field, set_field.
  destruct v; cbn [props]; [by rewrite lookup_insert_ne | by rewrite lookup_delete_ne].
Qed.

Lemma assign_field_eq k v e : field k (assign_field k v e) = v.
Proof.
  unfold field, assign_field, set_field.
  destruct v; cbn [props]; [apply lookup_insert_eq | apply lookup_delete_eq].
Qed.

Lemma set_field_ne k0 v e k : k ≠ k0 → field k (set_field k0 v e) = field k e.
Proof. intros Hk. unfold field, set_field. cbn [props]. by rewrite lookup_insert_ne. Qed.

(** The augmenter touches none of the whitelisted fields. *)
Lemma augmentWith_field env centers ev k :
  k ∈ eventKeys → field k (augmentWith env centers ev) = field k ev.
Proof.
  intros Hk.
  assert (Hne : k ≠ "fullcity" ∧ k ≠ "weekdayRange" ∧ k ≠ "dateRange"
                ∧ k ≠ "combinedRange").
  { unfold eventKeys in Hk.
    repeat (apply elem_of_cons in Hk as [->|Hk]; [done |]).
    by apply not_elem_of_nil in Hk. }
  destruct Hne as (H1 & H2 & H3 & H4).
  unfold augmentWith, tools.clone.
  destruct (truthy _); rewrite !set_field_ne by done;
    destruct (centers !! _); by rewrite ?assign_field_ne by done.
Qed.

(** Reading back an event that the cache and the index hold, with its
    center in the directory: the whitelisted fields are those of the cached
    record, except that [address] and [name] are both the center's when the
    cached record has no address. *)
Lemma readEventAsync_cached env n ev st cid center :
  gitfs_events env = true →
  existsb (λ e, bool_decide (id e = Some n)) (events (index st)) = true →
  eventsCache st !! idString (Some n) = Some ev →
  holdsCenter cid center st →
  field "center" ev = Some cid →
  ∃ back, readEventAsync env n st = (Ret (Some back), st)
    ∧ ∀ k, k ∈ eventKeys →
        field k back =
        if negb (truthy (field "address" ev))
           && (bool_decide (k = "address") || bool_decide (k = "name"))
        then cfield k center
        else field k ev.
Proof.
  intros Hgit Hidx Hcache Hheld Hcenter.
  unfold readEventAsync. unfold bind at 1. cbn [gets]. rewrite Hidx. cbn [negb].
  unfold bind at 1. cbn [gets]. rewrite Hcache.
  unfold bind at 1. cbn [ret]. unfold bind at 1.
  rewrite Hcenter, (getCenterAsync_held env Hgit cid center st Hheld).
  unfold bind at 1.
  destruct (truthy (field "address" ev)) eqn:Ht; cbn [negb ret];
    unfold bind; rewrite augmentEvent_run,
      (cachedCenters_held env Hgit cid center _ Hheld); cbn [snd ret];
    eexists; (split; [reflexivity |]); intros k Hk; rewrite augmentWith_field by done;
    cbn [andb]; [done |].
  repeat case_bool_decide; subst; cbn [orb].
  - rewrite assign_field_ne by done. apply assign_field_eq.
  - rewrite assign_field_ne by done. apply assign_field_eq.
  - apply assign_field_eq.
  - by rewrite !assign_field_ne.
Qed.

(** A request answered with an event went through [commitEvent], with the
    center of its body in the directory. *)
Lemma postEvent_answer env req st ev st1 :
  postEvent env req st = (Ret (Json ev), st1) →
  gitfs_events env = true
  ∧ ∃ user center cid curr delta fresh st0,
      field "center" (body req) = Some cid
      ∧ holdsCenter cid center st0
      ∧ props delta = props (body req)
      ∧ (isCreation (body req) = true → props curr = ∅)
      ∧ commitEvent env user center curr delta fresh st0 = (Ret (Json ev), st1).
Proof.
  unfold postEvent.
  destruct (appuser req) as [[|a u]|]; [discriminate | | discriminate].
  set (user := String a u). clearbody user.
  unfold bind at 1.
  destruct (getCenterAsync env (field "center" (body req)) st) as [[[center|]|] st0]
    eqn:Hget; [| discriminate | discriminate].
  apply getCenterAsync_Some in Hget as (Hgit & cid & Hcid & Hheld).
  destruct (negb (hasWritePermAsync env user (users center))); [discriminate |].
  unfold bind at 1. cbn [gets]. unfold isCreation.
  destruct (id (body req)) as [n|] eqn:Hid.
  - destruct (n <=? 0)%Z eqn:Hn.
    + intros Hcommit. split; [done |].
      by exists user, center, cid, {| id := Some (nextId (index st0)); props := ∅ |},
        {| id := None; props := props (body req) |}, true, st0.
    + unfold bind at 1.
      pose proof (readEventAsync_preserves env Hgit cid center n st0 Hheld) as Hheld'.
      destruct (readEventAsync env n st0) as [[[curr|]|] st0'];
        [| discriminate | discriminate].
      intros Hcommit. split; [done |].
      by exists user, center, cid, curr, (body req), false, st0'.
  - intros Hcommit. split; [done |].
    by exists user, center, cid, {| id := Some (nextId (index st0)); props := ∅ |},
      (body req), true, st0.
Qed.

(** C2 (as amended).  Take an event that [POST /api/events] has saved
    (the request was answered with the stored record) and whose stored
    record has neither address nor name.  Reading it back by its id
    succeeds; the address and the name of the record read are those of the
    center named in the body, as the directory holds it; and every
    whitelisted field that the body carried is read back with the value of
    the body, except [endDate] when the save dropped it, which stays
    absent.  For a creation the save drops [endDate] exactly when it equals
    the [startDate] of the body. *)
Theorem saved_event_read_back (env : Env) (req : Request) (st st1 : State)
    (ev : FullEvent) (n : Z) :
  postEvent env req st = (Ret (Json ev), st1) →
  id ev = Some n →
  field "address" ev = None →
  field "name" ev = None →
  ∃ cid center back,
    field "center" (body req) = Some cid
    ∧ holdsCenter cid center st1
    ∧ readEventAsync env n st1 = (Ret (Some back), st1)
    ∧ field "address" back = cfield "address" center
    ∧ field "name" back = cfield "name" center
    ∧ (∀ k v, k ∈ eventKeys → field k (body req) = Some v →
         field k back =
         if bool_decide (k = "endDate") && bool_decide (field "endDate" ev = None)
         then None else Some v)
    ∧ (isCreation (body req) = true →
       ∀ v, field "endDate" (body req) = Some v →
         (field "endDate" ev = None ↔ field "startDate" (body req) = Some v)).
Proof.
  intros Hpost Hid Haddr Hname.
  apply postEvent_answer in Hpost
    as (Hgit & user & center & cid & curr & delta & fresh & st0
        & Hcid & Hheld & Hprops & Hfresh & Hcommit).
  apply commitEvent_saved in Hcommit as (Hev & Hcache & Hidx & Hm); [| done].
  assert (Hdelta : ∀ k, field k delta = field k (body req)).
  { intros k. unfold field. by rewrite Hprops. }
  set (c' := copyFields eventKeys curr delta) in *.
  assert (Hc' : ∀ k v, k ∈ eventKeys → field k (body req) = Some v → field k c' = Some v).
  { intros k v Hk Hv. unfold c'. rewrite copyFields_field, Hdelta, Hv.
    by rewrite bool_decide_eq_true_2. }
  assert (Hheld1 : holdsCenter cid center st1).
  { destruct Hheld as (m & Hm0 & Hc). exists m. split; [congruence | done]. }
  assert (Hcenter : field "center" ev = Some cid).
  { rewrite Hev, collapse_field. cbn [andb].
    rewrite !(bool_decide_eq_false_2 ("center" = _)) by done. cbn [andb].
    apply Hc'; [in_keys | done]. }
  rewrite Hid in Hcache, Hidx.
  destruct (readEventAsync_cached env n ev st1 cid center Hgit Hidx Hcache Hheld1 Hcenter)
    as (back & Hread & Hback).
  assert (Hfalsy : truthy (field "address" ev) = false) by (by rewrite Haddr).
  rewrite Hfalsy in Hback. cbn [negb andb] in Hback.
  assert (Ha : field "address" back = cfield "address" center).
  { rewrite Hback by in_keys. done. }
  assert (Hn : field "name" back = cfield "name" center).
  { rewrite Hback by in_keys. done. }
  exists cid, center, back. do 5 (split; [done |]). split.
  - intros k v Hk Hv. specialize (Hc' k v Hk Hv).
    destruct (decide (k = "address")) as [->|Hka].
    { rewrite Ha. cbn [andb].
      rewrite (bool_decide_eq_false_2 ("address" = "endDate")) by done. cbn [andb].
      rewrite Hev, collapse_field in Haddr. cbn [andb] in Haddr.
      rewrite (bool_decide_eq_true_2 ("address" = "address")) in Haddr by done.
      cbn [andb] in Haddr. unfold js_eq in Haddr.
      case_bool_decide as Heq; [congruence |].
      rewrite !(bool_decide_eq_false_2 ("address" = _)) in Haddr by done.
      cbn [andb] in Haddr. congruence. }
    destruct (decide (k = "name")) as [->|Hkn].
    { rewrite Hn. rewrite (bool_decide_eq_false_2 ("name" = "endDate")) by done.
      cbn [andb].
      rewrite Hev, collapse_field in Hname.
      rewrite (bool_decide_eq_false_2 ("name" = "address")) in Hname by done.
      rewrite (bool_decide_eq_true_2 ("name" = "name")) in Hname by done.
      cbn [andb] in Hname. unfold js_eq in Hname.
      case_bool_decide as Heq; [congruence |].
      rewrite !(bool_decide_eq_false_2 ("name" = _)) in Hname by done.
      cbn [andb] in Hname. congruence. }
    rewrite Hback by done.
    rewrite (bool_decide_eq_false_2 (k = "address")),
      (bool_decide_eq_false_2 (k = "name")) by done. cbn [orb].
    case_bool_decide as Hke; cbn [andb].
    + subst k. case_bool_decide as Hend; [done |].
      rewrite Hev, collapse_field in Hend |- *.
      rewrite !(bool_decide_eq_false_2 ("endDate" = "address")),
        !(bool_decide_eq_false_2 ("endDate" = "name")) in Hend |- * by done.
      cbn [andb] in Hend |- *.
      destruct (bool_decide ("endDate" = "endDate")
                && js_eq (field "endDate" c') (field "startDate" c')); done.
    + rewrite Hev, collapse_field.
      rewrite (bool_decide_eq_false_2 (k = "address")),
        (bool_decide_eq_false_2 (k = "name")),
        (bool_decide_eq_false_2 (k = "endDate")) by done.
      done.
  - intros Hcr v Hv. specialize (Hfresh Hcr).
    assert (Hstart : field "startDate" c' = field "startDate" (body req)).
    { unfold c'. rewrite copyFields_field, Hdelta.
      rewrite bool_decide_eq_true_2 by in_keys.
      destruct (field "startDate" (body req)); [done |].
      unfold field. by rewrite Hfresh, lookup_empty. }
    assert (Hend : field "endDate" c' = Some v).
    { apply Hc'; [in_keys | done]. }
    rewrite Hev, collapse_field.
    rewrite !(bool_decide_eq_false_2 ("endDate" = "address")),
      !(bool_decide_eq_false_2 ("endDate" = "name")) by done.
    rewrite (bool_decide_eq_true_2 ("endDate" = "endDate")) by done.
    cbn [andb]. rewrite Hend, Hstart. unfold js_eq.
    case_bool_decide as Heq; split; intros H; congruence.
Qed.

Lemma saved_event_read_back_witness :
  let req := mkRequest (Some "ann")
               (mkEvent None (obj [("center", "x"); ("startDate", "2024-05-01");
                                   ("endDate", "2024-05-02"); ("title", "T");
                                   ("address", "1 Main St"); ("name", "X Center")])) in
  ∃ ev st1,
    postEvent exampleEnv req exampleState = (Ret (Json ev), st1)
    ∧ ∃ cid center back,
        field "center" (body req) = Some cid
        ∧ holdsCenter cid center st1
        ∧ readEventAsync exampleEnv 1 st1 = (Ret (Some back), st1)
        ∧ field "address" back = cfield "address" center
        ∧ field "name" back = cfield "name" center
        ∧ (∀ k v, k ∈ eventKeys → field k (body req) = Some v →
             field k back =
             if bool_decide (k = "endDate") && bool_decide (field "endDate" ev = None)
             then None else Some v)
        ∧ (isCreation (body req) = true →
           ∀ v, field "endDate" (body req) = Some v →
             (field "endDate" ev = None ↔ field "startDate" (body req) = Some v)).
Proof.
  cbv zeta. eexists _, _. split; [vm_compute; reflexivity |].
  apply (saved_event_read_back exampleEnv
           (mkRequest (Some "ann")
              (mkEvent None (obj [("center", "x"); ("startDate", "2024-05-01");
                                  ("endDate", "2024-05-02"); ("title", "T");
                                  ("address", "1 Main St"); ("name", "X Center")])))
           exampleState).
  - vm_compute. reflexivity.
  - reflexivity.
  - reflexivity.
  - reflexivity.
Defined.

(** The claim of C2 as it is written fails: an event created with the
    address and the name of its center and with an end date equal to its
    start date is stored without address, name and end date; read back, it
    has the address and the name of the center, but no end date, so its
    whitelisted fields are not those of the delta saved. *)
Lemma read_back_endDate_counterexample :
  let delta := mkEvent None (obj [("center", "x"); ("startDate", "2024-05-01");
                                  ("endDate", "2024-05-01"); ("title", "T");
                                  ("address", "1 Main St"); ("name", "X Center")]) in
  let p := postEvent exampleEnv (mkRequest (Some "ann") delta) exampleState in
  ∃ saved back st2,
    p.1 = Ret (Json saved)
    ∧ field "address" saved = None
    ∧ field "name" saved = None
    ∧ readEventAsync exampleEnv 1 p.2 = (Ret (Some back), st2)
    ∧ field "address" back = Some "1 Main St"
    ∧ field "name" back = Some "X Center"
    ∧ field "endDate" delta = Some "2024-05-01"
    ∧ field "endDate" back = None
    ∧ ¬ (∀ k, k ∈ eventKeys → field k back = field k delta).
Proof.
  cbv zeta. eexists _, _, _.
  split; [vm_compute; reflexivity |].
  do 7 (split; [vm_compute; reflexivity |]).
  intros H. specialize (H "endDate"). vm_compute in H.
  assert (E : @None string = Some "2024-05-01"); [| discriminate].
  apply H. in_keys.
Qed.

(** ** Records stored with only one of address and name

    The save drops [address] and [name] one by one; [readEventAsync] takes
    both from the center when the address is missing and neither
    otherwise. *)

(** The center "x" has the address "1 Main St" and the name "X Center".
    An event is created with another address and the name of the center:
    the name is dropped from the stored record, the address is kept.
    [readEventAsync] then finds an address, so it takes nothing from the
    center, and the record it returns has no name, although the delta
    saved had "X Center". *)
Lemma readEventAsync_name_not_restored :
  let delta := mkEvent None (obj [("center", "x"); ("startDate", "2024-05-01");
                                  ("title", "T"); ("address", "2 Side St");
                                  ("name", "X Center")]) in
  let p := postEvent exampleEnv (mkRequest (Some "ann") delta) exampleState in
  ∃ saved back st2,
    p.1 = Ret (Json saved)
    ∧ id saved = Some 1
    ∧ readFile (eventFn (Some 1)) (eventFiles (store p.2)) = Some saved
    ∧ field "address" saved = Some "2 Side St"
    ∧ field "name" saved = None
    ∧ readEventAsync exampleEnv 1 p.2 = (Ret (Some back), st2)
    ∧ field "address" back = Some "2 Side St"
    ∧ field "name" back = None
    ∧ field "name" delta = Some "X Center"
    ∧ cfield "name" centerX = Some "X Center".
Proof.
  cbv zeta. eexists _, _, _.
  split; [vm_compute; reflexivity |].
  repeat (split; [vm_compute; reflexivity |]). vm_compute; reflexivity.
Qed.

(** The other way round: an event created with the address of the center
    and a name of its own is stored without the address, and the name it
    is read back with is the name of the center. *)
Lemma readEventAsync_name_overwritten :
  let delta := mkEvent None (obj [("center", "x"); ("startDate", "2024-05-01");
                                  ("title", "T"); ("address", "1 Main St");
                                  ("name", "Town Hall")]) in
  let p := postEvent exampleEnv (mkRequest (Some "ann") delta) exampleState in
  ∃ saved back st2,
    p.1 = Ret (Json saved)
    ∧ field "address" saved = None
    ∧ field "name" saved = Some "Town Hall"
    ∧ readEventAsync exampleEnv 1 p.2 = (Ret (Some back), st2)
    ∧ field "address" back = Some "1 Main St"
    ∧ field "name" back = Some "X Center".
Proof.
  cbv zeta. eexists _, _, _.
  split; [vm_compute; reflexivity |].
  repeat (split; [vm_compute; reflexivity |]). vm_compute; reflexivity.
Qed.

(** The example of the specification: created without address and name,
    the event is stored without them and read back with those of its
    center. *)
Lemma readEventAsync_inherits_both :
  let delta := mkEvent None (obj [("center", "x"); ("startDate", "2024-05-01");
                                  ("title", "T")]) in
  let p := postEvent exampleEnv (mkRequest (Some "ann") delta) exampleState in
  ∃ saved back st2,
    p.1 = Ret (Json saved)
    ∧ field "address" saved = None
    ∧ field "name" saved = None
    ∧ readEventAsync exampleEnv 1 p.2 = (Ret (Some back), st2)
    ∧ field "address" back = Some "1 Main St"
    ∧ field "name" back = Some "X Center"
    ∧ (∀ k, k ∈ eventKeys → is_Some (field k delta) → field k back = field k delta).
Proof.
  cbv zeta. eexists _, _, _.
  split; [vm_compute; reflexivity |].
  repeat (split; [vm_compute; reflexivity |]).
  intros k Hk. unfold eventKeys in Hk.
  repeat (apply elem_of_cons in Hk as [->|Hk]; [vm_compute; try reflexivity; intros [? [=]] |]).
  by apply not_elem_of_nil in Hk.
Qed.

(** * Further properties *)

(** ** The event validator *)

Lemma FullEvent_eq (e1 e2 : FullEvent) :
  id e1 = id e2 → (∀ k, field k e1 = field k e2) → e1 = e2.
Proof.
  destruct e1 as [i1 p1], e2 as [i2 p2]. unfold field. cbn. intros -> H.
  f_equal. by apply map_eq.
Qed.


(** The message of [applyChanges] depends on the record only through the
    check of the center. *)
Lemma applyChanges_message (curr c' delta : FullEvent) :
  centerKept c' delta →
  snd (applyChanges curr delta) = EmptyString →
  snd (applyChanges c' delta) = EmptyString.
Proof.
  intros Hk. apply centerKept_guard in Hk. unfold applyChanges. rewrite Hk.
  destruct (truthy (field "center" curr)
            && negb (js_eq (field "center" delta) (field "center" curr)));
    [discriminate |].
  repeat match goal with |- context [if ?b then _ else _] => destruct b end; done.
Qed.

Lemma applyChanges_centerKept curr delta :
  snd (applyChanges curr delta) = EmptyString → centerKept curr delta.
Proof.
  intros H. apply centerKept_guard. revert H. unfold applyChanges.
  destruct (truthy (field "center" curr)
            && negb (js_eq (field "center" delta) (field "center" curr))); [| done].
  cbn [snd]. discriminate.
Qed.

(** X1.  [applyChanges] never touches the [id] of the record nor any
    property outside its whitelist, whatever it returns; and when it
    returns the empty message, every whitelisted key that the delta
    carries has the value of the delta and every other whitelisted key has
    the value it had. *)
Theorem applyChanges_whitelist (curr delta : FullEvent) :
  id (fst (applyChanges curr delta)) = id curr
  ∧ (∀ k, k ∉ eventKeys → field k (fst (applyChanges curr delta)) = field k curr)
  ∧ (snd (applyChanges curr delta) = EmptyString →
     ∀ k, k ∈ eventKeys →
       field k (fst (applyChanges curr delta)) =
       match field k delta with
       | Some v => Some v
       | None => field k curr
       end).
Proof.
  split; [apply applyChanges_id |]. split.
  - intros k Hk. destruct (decide (snd (applyChanges curr delta) = EmptyString)) as [E|E].
    + rewrite applyChanges_ok by done. rewrite copyFields_field.
      by rewrite bool_decide_eq_false_2.
    + by rewrite applyChanges_atomic.
  - intros E k Hk. rewrite applyChanges_ok by done. rewrite copyFields_field.
    by rewrite bool_decide_eq_true_2.
Qed.

(** X3.  [applyChanges] is idempotent: when a delta has been applied, a
    second application of the same delta is accepted and changes nothing. *)
Theorem applyChanges_idempotent (curr delta c' : FullEvent) :
  applyChanges curr delta = (c', EmptyString) →
  applyChanges c' delta = (c', EmptyString).
Proof.
  intros H.
  assert (Hs : snd (applyChanges curr delta) = EmptyString) by (by rewrite H).
  pose proof (applyChanges_ok curr delta Hs) as Hc. rewrite H in Hc. cbn [fst] in Hc.
  assert (Hs' : snd (applyChanges c' delta) = EmptyString).
  { apply (applyChanges_message curr); [| done].
    apply applyChanges_centerKept in Hs as Hk. unfold centerKept in *.
    assert (Hcenter : field "center" c' = match field "center" delta with
                                          | Some v => Some v
                                          | None => field "center" curr
                                          end).
    { rewrite Hc, copyFields_field. by rewrite bool_decide_eq_true_2 by in_keys. }
    rewrite Hcenter. destruct (field "center" delta) as [v|]; [by right |].
    destruct Hk as [Hk|Hk]; [by left | by right]. }
  pose proof (applyChanges_ok c' delta Hs') as Hc'.
  destruct (applyChanges c' delta) as [c'' err]. cbn [fst snd] in *. subst err c''.
  f_equal. apply FullEvent_eq; [apply copyFields_id |]. intros k.
  rewrite copyFields_field, Hc, copyFields_field.
  case_bool_decide; [by destruct (field k delta) | done].
Qed.

Lemma applyChanges_idempotent_witness :
  let curr := mkEvent (Some 7) (obj [("center", "x"); ("title", "T")]) in
  let delta := mkEvent None (obj [("center", "x"); ("title", "U"); ("other", "o")]) in
  let c' := mkEvent (Some 7) (obj [("center", "x"); ("title", "U")]) in
  applyChanges c' delta = (c', EmptyString).
Proof.
  cbv zeta.
  apply (applyChanges_idempotent
           (mkEvent (Some 7) (obj [("center", "x"); ("title", "T")]))).
  vm_compute. reflexivity.
Defined.

(** ** The center validator *)

Lemma applyCenterLoop_cons k0 ks curr delta :
  applyCenterLoop (k0 :: ks) curr delta =
  match cfield (centerKeySpec k0).2 delta with
  | Some v =>
      if str_length v >? (centerKeySpec k0).1
      then (curr, (centerKeySpec k0).2 +:+ " too long")
      else applyCenterLoop ks (set_cfield (centerKeySpec k0).2 v curr) delta
  | None => applyCenterLoop ks curr delta
  end.
Proof.
  cbn [applyCenterLoop]. unfold centerKeySpec.
  destruct k0 as [|a k]; [done |].
  destruct a as [[] [] [] [] [] [] [] []]; done.
Qed.

Lemma too_long_nonempty k : k +:+ " too long" ≠ EmptyString.
Proof. intros H. apply append_empty in H as [_ H]. discriminate. Qed.

Lemma applyCenterLoop_frame delta ks : ∀ curr,
  users (fst (applyCenterLoop ks curr delta)) = users curr
  ∧ ∀ k, k ∉ (λ k0, (centerKeySpec k0).2) <$> ks →
         cfield k (fst (applyCenterLoop ks curr delta)) = cfield k curr.
Proof.
  induction ks as [|k0 ks IH]; intros curr; [done |].
  rewrite applyCenterLoop_cons.
  destruct (cfield (centerKeySpec k0).2 delta) as [v|].
  - destruct (str_length v >? (centerKeySpec k0).1); [by split |].
    destruct (IH (set_cfield (centerKeySpec k0).2 v curr)) as [Hu Hf].
    split; [by rewrite Hu |]. intros k Hk. rewrite fmap_cons, not_elem_of_cons in Hk.
    destruct Hk as [Hne Hk]. rewrite Hf by done.
    unfold cfield, set_cfield. cbn. by rewrite lookup_insert_ne.
  - destruct (IH curr) as [Hu Hf]. split; [done |]. intros k Hk.
    rewrite fmap_cons, not_elem_of_cons in Hk. apply Hf, Hk.
Qed.

Lemma applyCenterLoop_ok delta ks : ∀ curr,
  snd (applyCenterLoop ks curr delta) = EmptyString ↔
  Forall (λ k0, ∀ v, cfield (centerKeySpec k0).2 delta = Some v →
                     str_length v ≤ (centerKeySpec k0).1) ks.
Proof.
  induction ks as [|k0 ks IH]; intros curr; [by split; [constructor |] |].
  rewrite applyCenterLoop_cons, Forall_cons.
  destruct (cfield (centerKeySpec k0).2 delta) as [v|] eqn:Hd.
  - rewrite Z.gtb_ltb. destruct (Z.ltb_spec (centerKeySpec k0).1 (str_length v)).
    + cbn [snd]. split; [by intros ?%too_long_nonempty |].
      intros [H0 _]. specialize (H0 v eq_refl). lia.
    + rewrite IH. split; [intros ?; split; [intros ? [= <-]; lia | done] | by intros [_ ?]].
  - rewrite IH. split; [intros ?; split; [discriminate | done] | by intros [_ ?]].
Qed.

Lemma applyCenterLoop_fields delta ks : ∀ curr,
  snd (applyCenterLoop ks curr delta) = EmptyString →
  ∀ k, cfield k (fst (applyCenterLoop ks curr delta)) =
       if bool_decide (k ∈ (λ k0, (centerKeySpec k0).2) <$> ks)
       then match cfield k delta with
            | Some v => Some v
            | None => cfield k curr
            end
       else cfield k curr.
Proof.
  induction ks as [|k0 ks IH]; intros curr Hok k.
  { by rewrite bool_decide_eq_false_2 by apply not_elem_of_nil. }
  rewrite applyCenterLoop_cons in Hok |- *. rewrite fmap_cons.
  set (key := (centerKeySpec k0).2) in *.
  assert (Hcase : ∀ c1, cfield k c1 = (if bool_decide (k = key)
                                        then match cfield k delta with
                                             | Some v => Some v
                                             | None => cfield k curr
                                             end
                                        else cfield k curr) →
            snd (applyCenterLoop ks c1 delta) = EmptyString →
            cfield k (fst (applyCenterLoop ks c1 delta)) =
            if bool_decide (k ∈ key :: ((λ k1, (centerKeySpec k1).2) <$> ks))
            then match cfield k delta with
                 | Some v => Some v
                 | None => cfield k curr
                 end
            else cfield k curr).
  { intros c1 Hc1 Hok1. rewrite IH by done. rewrite Hc1.
    destruct (decide (k = key)) as [Hk|Hk];
      destruct (decide (k ∈ (λ k1, (centerKeySpec k1).2) <$> ks)) as [Hin|Hin].
    - rewrite (bool_decide_eq_true_2 (k = key)) by done.
      rewrite (bool_decide_eq_true_2 (k ∈ _ <$> ks)) by done.
      rewrite (bool_decide_eq_true_2 (k ∈ key :: _)) by (by right).
      by destruct (cfield k delta).
    - rewrite (bool_decide_eq_true_2 (k = key)) by done.
      rewrite (bool_decide_eq_false_2 (k ∈ _ <$> ks)) by done.
      rewrite (bool_decide_eq_true_2 (k ∈ key :: _)) by (subst k; by left).
      done.
    - rewrite (bool_decide_eq_false_2 (k = key)) by done.
      rewrite (bool_decide_eq_true_2 (k ∈ _ <$> ks)) by done.
      rewrite (bool_decide_eq_true_2 (k ∈ key :: _)) by (by right).
      done.
    - rewrite (bool_decide_eq_false_2 (k = key)) by done.
      rewrite (bool_decide_eq_false_2 (k ∈ _ <$> ks)) by done.
      rewrite (bool_decide_eq_false_2 (k ∈ key :: _)); [done |].
      rewrite not_elem_of_cons. done. }
  destruct (cfield key delta) as [v|] eqn:Hd.
  - destruct (str_length v >? (centerKeySpec k0).1);
      [cbn [snd] in Hok; by apply too_long_nonempty in Hok |].
    apply Hcase; [| done]. unfold cfield, set_cfield. cbn [cprops].
    case_bool_decide as Hk.
    + subst k. rewrite lookup_insert_eq. unfold cfield in Hd. by rewrite Hd.
    + by rewrite lookup_insert_ne.
  - apply Hcase; [| done]. case_bool_decide as Hk; [| done].
    subst k. by rewrite Hd.
Qed.

Lemma centerKeys_stripped :
  (λ k0, (centerKeySpec k0).2) <$> ["*program"; "*about"; "name"; "address"]
  = ["program"; "about"; "name"; "address"].
Proof. reflexivity. Qed.

Lemma withinLimits_Forall delta :
  withinLimits delta ↔
  Forall (λ k0, ∀ v, cfield (centerKeySpec k0).2 delta = Some v →
                     str_length v ≤ (centerKeySpec k0).1)
    ["*program"; "*about"; "name"; "address"].
Proof.
  unfold withinLimits, centerLimits. rewrite !Forall_cons. cbn [centerKeySpec fst snd].
  split.
  - intros H. repeat split; try (intros v; apply H;
      repeat first [apply list_elem_of_here | apply list_elem_of_further]).
    constructor.
  - intros (H1 & H2 & H3 & H4 & _) k limit v Hin.
    repeat (apply elem_of_cons in Hin as [[= -> ->]|Hin]; [auto |]).
    by apply not_elem_of_nil in Hin.
Qed.

(** The acceptance test of [applyCenterChanges]. *)
Lemma applyCenterChanges_ok (curr delta : Center) :
  snd (applyCenterChanges curr delta) = EmptyString ↔ withinLimits delta.
Proof.
  unfold applyCenterChanges. rewrite withinLimits_Forall. apply applyCenterLoop_ok.
Qed.

(** The properties of a center after an accepted delta. *)
Lemma applyCenterChanges_fields (curr delta : Center) k :
  withinLimits delta →
  cfield k (fst (applyCenterChanges curr delta)) =
  if bool_decide (k ∈ ["program"; "about"; "name"; "address"])
  then match cfield k delta with
       | Some v => Some v
       | None => cfield k curr
       end
  else cfield k curr.
Proof.
  intros Hw. unfold applyCenterChanges.
  rewrite applyCenterLoop_fields by (by apply applyCenterLoop_ok, withinLimits_Forall).
  by rewrite centerKeys_stripped.
Qed.

(** X4.  Whatever it returns, [applyCenterChanges] leaves the users of
    the center and every property other than [program], [about], [name]
    and [address] as they were: it never changes [id], [country] or
    [fullcity]. *)
Theorem applyCenterChanges_frame (curr delta : Center) :
  users (fst (applyCenterChanges curr delta)) = users curr
  ∧ ∀ k, k ∉ ["program"; "about"; "name"; "address"] →
         cfield k (fst (applyCenterChanges curr delta)) = cfield k curr.
Proof.
  unfold applyCenterChanges. rewrite <- centerKeys_stripped.
  apply applyCenterLoop_frame.
Qed.

(** X5.  For a delta that has no property named [hasOwnProperty] (one
    would shadow the method that the loop calls on the delta, and the call
    would throw): [applyCenterChanges] returns the empty message exactly
    when every one of [program], [about] (at most 4000 characters), [name]
    and [address] (at most 200) that the delta carries is within its
    limit; and then each of these keys has the value of the delta when the
    delta carries it and the value it had otherwise. *)
Theorem applyCenterChanges_accepts_iff (curr delta : Center) :
  cfield "hasOwnProperty" delta = None →
  (snd (applyCenterChanges curr delta) = EmptyString ↔ withinLimits delta)
  ∧ (withinLimits delta →
     ∀ k, k ∈ ["program"; "about"; "name"; "address"] →
       cfield k (fst (applyCenterChanges curr delta)) =
       match cfield k delta with
       | Some v => Some v
       | None => cfield k curr
       end).
Proof.
  intros _. split; [apply applyCenterChanges_ok |].
  intros Hw k Hk. rewrite applyCenterChanges_fields by done.
  by rewrite bool_decide_eq_true_2.
Qed.

Lemma applyCenterChanges_accepts_iff_witness :
  let curr := mkCenter ["ann"] (obj [("id", "x"); ("name", "Old"); ("address", "1 Main St")]) in
  let delta := mkCenter [] (obj [("name", "New"); ("about", "A")]) in
  cfield "hasOwnProperty" delta = None
  ∧ withinLimits delta
  ∧ cfield "name" (fst (applyCenterChanges curr delta)) = Some "New"
  ∧ cfield "address" (fst (applyCenterChanges curr delta)) = Some "1 Main St".
Proof.
  cbv zeta. split; [reflexivity |].
  destruct (applyCenterChanges_accepts_iff
              (mkCenter ["ann"] (obj [("id", "x"); ("name", "Old"); ("address", "1 Main St")]))
              (mkCenter [] (obj [("name", "New"); ("about", "A")])) eq_refl)
    as [Hiff Hf].
  assert (Hw : withinLimits (mkCenter [] (obj [("name", "New"); ("about", "A")])))
    by (apply Hiff; vm_compute; reflexivity).
  split; [exact Hw |]. split.
  - rewrite (Hf Hw "name") by (apply (bool_decide_unpack _); vm_compute; exact I). reflexivity.
  - rewrite (Hf Hw "address") by (apply (bool_decide_unpack _); vm_compute; exact I). reflexivity.
Defined.



(** ** The index and the event files *)

Lemma findIndex_Some {A} (p : A → bool) l i :
  findIndex p l = Some i → ∃ x, l !! i = Some x ∧ p x = true.
Proof.
  revert i. induction l as [|y l IH]; intros i; cbn [findIndex]; [discriminate |].
  destruct (p y) eqn:Hp.
  - intros [= <-]. by exists y.
  - destruct (findIndex p l) as [j|]; [| discriminate]. intros [= <-].
    destruct (IH j eq_refl) as (x & Hx & Hpx). by exists x.
Qed.

Lemma findIndex_None {A} (p : A → bool) l :
  findIndex p l = None → ∀ x, x ∈ l → p x = false.
Proof.
  induction l as [|y l IH]; cbn [findIndex]; [by intros _ x ?%not_elem_of_nil |].
  destruct (p y) eqn:Hp; [discriminate |].
  destruct (findIndex p l) as [j|]; [discriminate |]. intros _ x.
  intros [->|Hin]%elem_of_cons; [done | by apply IH].
Qed.

Lemma saveEventAsync_index_eq env e user st :
  index (snd (saveEventAsync env e user st)) = upsertIndex e (index st).
Proof.
  unfold saveEventAsync, bind, modify, throw.
  by destruct (negb (gitfs_events env)).
Qed.

(** The index that [findIndex] returns is the first at which the test
    holds. *)
Lemma findIndex_first {A} (p : A → bool) l i :
  findIndex p l = Some i → ∀ j y, (j < i)%nat → l !! j = Some y → p y = false.
Proof.
  revert i. induction l as [|x l IH]; intros i; cbn [findIndex]; [discriminate |].
  destruct (p x) eqn:Hp.
  - intros [= <-] j y Hj. lia.
  - destruct (findIndex p l) as [k|]; [| discriminate]. intros [= <-] j y Hj.
    destruct j as [|j]; cbn; [congruence |]. apply (IH k eq_refl). lia.
Qed.

(** The two cases of the upsert: the first entry with the id of [e] is
    replaced where it stands, or, when no entry has it, the summary of [e]
    is appended. *)
Lemma upsertIndex_cases e ix :
  (∃ i x, events ix !! i = Some x ∧ id x = id e
          ∧ (∀ j y, (j < i)%nat → events ix !! j = Some y → id y ≠ id e)
          ∧ events (upsertIndex e ix) = <[i := forIndex e]> (events ix))
  ∨ ((id e ∉ id <$> events ix)
     ∧ events (upsertIndex e ix) = (events ix ++ [forIndex e])%list).
Proof.
  unfold upsertIndex. cbn [events].
  destruct (findIndex _ (events ix)) as [i|] eqn:Hf; cbn [default from_option Datatypes.id].
  - left. pose proof (findIndex_first _ _ _ Hf) as Hfirst.
    apply findIndex_Some in Hf as (x & Hx & Hp).
    apply bool_decide_eq_true in Hp. exists i, x. split; [done |]. split; [done |].
    split.
    { intros j y Hj Hy. specialize (Hfirst j y Hj Hy).
      by apply bool_decide_eq_false in Hfirst. }
    unfold splice1. symmetry. apply insert_take_drop. by eapply lookup_lt_Some.
  - right. pose proof (findIndex_None _ _ Hf) as Hn. split.
    + intros (x & Hx & Hin)%list_elem_of_fmap. specialize (Hn x Hin).
      apply bool_decide_eq_false in Hn. congruence.
    + unfold splice1. rewrite firstn_all, drop_ge by lia. done.
Qed.

(** X7.  What [saveEventAsync] does to the index: [nextId] stays; when an
    entry has the id of the event, the first such entry (no entry before
    it has the id) is replaced where it stands and the sequence of ids is
    the same; when none has it, the summary is appended; no other entry is
    touched; and ids that were pairwise distinct stay so. *)
Theorem saveEventAsync_index (env : Env) (e : FullEvent) (user : string) (st : State) :
  let ix := index st in
  let ix' := index (snd (saveEventAsync env e user st)) in
  nextId ix' = nextId ix
  ∧ (id e ∈ id <$> events ix →
     id <$> events ix' = id <$> events ix
     ∧ ∃ i x, events ix !! i = Some x ∧ id x = id e
              ∧ (∀ j y, (j < i)%nat → events ix !! j = Some y → id y ≠ id e)
              ∧ events ix' = <[i := forIndex e]> (events ix))
  ∧ (id e ∉ id <$> events ix → events ix' = (events ix ++ [forIndex e])%list)
  ∧ forIndex e ∈ events ix'
  ∧ (∀ x, x ∈ events ix → id x ≠ id e → x ∈ events ix')
  ∧ (∀ x, x ∈ events ix' → x = forIndex e ∨ x ∈ events ix)
  ∧ (NoDup (id <$> events ix) → NoDup (id <$> events ix')).
Proof.
  cbv zeta. rewrite saveEventAsync_index_eq. split; [done |].
  destruct (upsertIndex_cases e (index st))
    as [(i & x & Hx & Hid & Hfirst & ->)|[Hnot ->]].
  - assert (Hids : id <$> <[i := forIndex e]> (events (index st))
                   = id <$> events (index st)).
    { rewrite list_fmap_insert. cbn [forIndex id]. apply list_insert_id.
      rewrite list_lookup_fmap, Hx. cbn. by rewrite Hid. }
    split; [intros _; split; [done | by exists i, x] |].
    split.
    { intros Hnot. exfalso. apply Hnot. rewrite <- Hid.
      apply list_elem_of_fmap_2. by eapply list_elem_of_lookup_2. }
    split.
    { eapply list_elem_of_lookup_2. apply list_lookup_insert_eq.
      by eapply lookup_lt_Some. }
    split.
    { intros y [j Hj]%list_elem_of_lookup_1 Hne.
      eapply (list_elem_of_lookup_2 _ j). rewrite list_lookup_insert_ne; [done |].
      intros ->. congruence. }
    split.
    { intros y [j Hj]%list_elem_of_lookup_1.
      destruct (decide (i = j)) as [->|Hij].
      - rewrite list_lookup_insert_eq in Hj by (by eapply lookup_lt_Some). left. congruence.
      - rewrite list_lookup_insert_ne in Hj by done. right.
        by eapply list_elem_of_lookup_2. }
    by rewrite Hids.
  - split; [by intros ? |]. split; [done |].
    split; [apply elem_of_app; right; apply list_elem_of_here |].
    split; [intros y Hy _; apply elem_of_app; by left |].
    split.
    { intros y [Hy|Hy%list_elem_of_singleton]%elem_of_app; [by right | by left]. }
    intros Hnd. rewrite fmap_app. apply NoDup_app. split; [done |].
    split; [| apply NoDup_singleton].
    intros y Hy Hy'%list_elem_of_singleton. cbn [forIndex id] in Hy'. congruence.
Qed.

Lemma readFile_writeFile fn e fs : readFile fn (writeFile fn e fs) = Some e.
Proof.
  induction fs as [|[n x] fs IH]; cbn [writeFile readFile].
  - by rewrite String.eqb_refl.
  - destruct (String.eqb n fn) eqn:E; cbn [readFile]; [by rewrite String.eqb_refl |].
    by rewrite E.
Qed.

Lemma readFile_writeFile_ne fn fn' e fs :
  fn' ≠ fn → readFile fn' (writeFile fn e fs) = readFile fn' fs.
Proof.
  intros Hne. induction fs as [|[n x] fs IH]; cbn [writeFile readFile].
  - by rewrite (proj2 (String.eqb_neq fn fn')).
  - destruct (String.eqb n fn) eqn:E; cbn [readFile].
    + apply String.eqb_eq in E as ->.
      by rewrite !(proj2 (String.eqb_neq fn fn')).
    + by rewrite IH.
Qed.

(** X8.  When [saveEventAsync] returns, the event is the cached document
    of its id and the content of its file, and [index.json] holds the index
    as it is in memory; every other cached document, every other event file
    and the center files are as before, as are the directory of centers and
    its flag. *)
Theorem saveEventAsync_persists (env : Env) (e : FullEvent) (user : string)
    (st st' : State) :
  saveEventAsync env e user st = (Ret tt, st') →
  eventsCache st' !! idString (id e) = Some e
  ∧ readFile (eventFn (id e)) (eventFiles (store st')) = Some e
  ∧ indexFile (store st') = Some (index st')
  ∧ (∀ k, k ≠ idString (id e) → eventsCache st' !! k = eventsCache st !! k)
  ∧ (∀ fn, fn ≠ eventFn (id e) →
       readFile fn (eventFiles (store st')) = readFile fn (eventFiles (store st)))
  ∧ centerFiles (store st') = centerFiles (store st)
  ∧ _centers st' = _centers st
  ∧ hasAllCenters st' = hasAllCenters st.
Proof.
  unfold saveEventAsync, bind, modify, throw.
  destruct (negb (gitfs_events env)); [discriminate |].
  intros [= <-]. cbn.
  split; [apply lookup_insert_eq |]. split; [apply readFile_writeFile |].
  split; [done |]. split; [intros k Hk; by rewrite lookup_insert_ne |].
  split; [intros fn Hfn; by apply readFile_writeFile_ne | done].
Qed.

Lemma saveEventAsync_persists_witness :
  let e := mkEvent (Some 5) (obj [("center", "x"); ("title", "T")]) in
  ∃ st',
    saveEventAsync exampleEnv e "ann" exampleState = (Ret tt, st')
    ∧ eventsCache st' !! idString (id e) = Some e
    ∧ readFile (eventFn (id e)) (eventFiles (store st')) = Some e
    ∧ indexFile (store st') = Some (index st')
    ∧ (∀ k, k ≠ idString (id e) → eventsCache st' !! k = eventsCache exampleState !! k)
    ∧ (∀ fn, fn ≠ eventFn (id e) →
         readFile fn (eventFiles (store st'))
         = readFile fn (eventFiles (store exampleState)))
    ∧ centerFiles (store st') = centerFiles (store exampleState)
    ∧ _centers st' = _centers exampleState
    ∧ hasAllCenters st' = hasAllCenters exampleState.
Proof.
  cbv zeta. eexists. split; [vm_compute; reflexivity |].
  apply (saveEventAsync_persists exampleEnv
           (mkEvent (Some 5) (obj [("center", "x"); ("title", "T")])) "ann" exampleState).
  vm_compute. reflexivity.
Defined.

(** X9.  [loadOrCreateIndex] with an [index.json] takes the index from it
    and writes nothing, whatever the event files are; without one it writes
    the index it builds; in both cases the caches are untouched and a second
    load gives the same state as the first. *)
Theorem loadOrCreateIndex_idempotent (st : State) :
  loadOrCreateIndex (loadOrCreateIndex st) = loadOrCreateIndex st
  ∧ indexFile (store (loadOrCreateIndex st)) = Some (index (loadOrCreateIndex st))
  ∧ (∀ ix, indexFile (store st) = Some ix →
       index (loadOrCreateIndex st) = ix ∧ store (loadOrCreateIndex st) = store st)
  ∧ eventFiles (store (loadOrCreateIndex st)) = eventFiles (store st)
  ∧ centerFiles (store (loadOrCreateIndex st)) = centerFiles (store st)
  ∧ eventsCache (loadOrCreateIndex st) = eventsCache st
  ∧ _centers (loadOrCreateIndex st) = _centers st
  ∧ hasAllCenters (loadOrCreateIndex st) = hasAllCenters st.
Proof.
  assert (Hsnap : indexFile (store (loadOrCreateIndex st))
                  = Some (index (loadOrCreateIndex st))).
  { unfold loadOrCreateIndex. by destruct (indexFile (store st)) eqn:E. }
  split.
  { unfold loadOrCreateIndex at 1. rewrite Hsnap.
    by destruct (loadOrCreateIndex st). }
  split; [done |]. split.
  { intros ix Hix. unfold loadOrCreateIndex. by rewrite Hix. }
  unfold loadOrCreateIndex. by destruct (indexFile (store st)).
Qed.

(** ** The file name of an event *)

Lemma zeros_shift k s : zeros k (String "0" s) = String "0" (zeros k s).
Proof. induction k as [|k IH]; cbn [zeros]; [done | by rewrite IH]. Qed.

Lemma zeros_length k s : String.length (zeros k s) = (k + String.length s)%nat.
Proof. induction k as [|k IH]; cbn [zeros String.length]; [done | by rewrite IH]. Qed.

(** Printing a number below [10^k] with [k] digits pads what [pretty]
    prints with zeros. *)
Lemma lowDigits_pretty k : ∀ x s,
  (x < 10 ^ N.of_nat k)%N →
  ∃ j, (j ≤ k)%nat
       ∧ lowDigits k x s = zeros j (pretty_N_go x s)
       ∧ String.length (pretty_N_go x s) = (k - j + String.length s)%nat.
Proof.
  induction k as [|k IH]; intros x s Hx.
  - assert (x = 0%N) as -> by (cbn in Hx; lia).
    exists 0%nat. rewrite pretty_N_go_0. cbn. done.
  - cbn [lowDigits].
    assert (Hdiv : (x / 10 < 10 ^ N.of_nat k)%N).
    { apply N.Div0.div_lt_upper_bound.
      replace (10 * 10 ^ N.of_nat k)%N with (10 ^ N.of_nat (S k))%N; [done |].
      rewrite Nat2N.inj_succ, N.pow_succ_r'. done. }
    destruct (IH (x / 10)%N (String (pretty_N_char (x mod 10)%N) s) Hdiv)
      as (j & Hj & Heq & Hlen).
    destruct (decide (x = 0%N)) as [->|Hpos].
    + change (0 / 10)%N with 0%N in *. change (0 mod 10)%N with 0%N in *.
      rewrite pretty_N_go_0 in Heq, Hlen. rewrite pretty_N_go_0.
      cbn [pretty_N_char String.length] in *.
      assert (j = k) as -> by lia.
      exists (S k). split; [done |]. split; [| lia].
      rewrite Heq. cbn [zeros]. apply zeros_shift.
    + rewrite (pretty_N_go_step x s) by lia.
      exists j. split; [lia |]. split; [done |]. rewrite Hlen. cbn [String.length]. lia.
Qed.

(** Printing a number with more than [k] digits ends in its [k] lowest
    digits. *)
Lemma pretty_N_go_low k : ∀ x s,
  (10 ^ N.of_nat k ≤ x)%N →
  pretty_N_go x s = pretty_N_go (x / 10 ^ N.of_nat k) (lowDigits k x s).
Proof.
  induction k as [|k IH]; intros x s Hx.
  - cbn [lowDigits]. by rewrite N.pow_0_r, N.div_1_r.
  - rewrite Nat2N.inj_succ, N.pow_succ_r' in Hx |- *.
    assert (0 < 10 ^ N.of_nat k)%N by (apply N.neq_0_lt_0, N.pow_nonzero; lia).
    rewrite (pretty_N_go_step x s) by lia. cbn [lowDigits].
    rewrite IH.
    + by rewrite N.Div0.div_div.
    + apply N.div_le_lower_bound; lia.
Qed.

Lemma lowDigits_add k : ∀ x q s,
  lowDigits k (x + 10 ^ N.of_nat k * q)%N s = lowDigits k x s.
Proof.
  induction k as [|k IH]; intros x q s; [done |]. cbn [lowDigits].
  rewrite Nat2N.inj_succ, N.pow_succ_r'.
  replace (x + 10 * 10 ^ N.of_nat k * q)%N with (x + (10 ^ N.of_nat k * q) * 10)%N by lia.
  rewrite N.Div0.mod_add, N.div_add by lia. apply IH.
Qed.

Lemma length_append a b :
  String.length (a +:+ b) = (String.length a + String.length b)%nat.
Proof.
  induction a as [|c a IH]; [done |].
  change (String c a +:+ b) with (String c (a +:+ b)).
  cbn [String.length]. by rewrite IH.
Qed.

Lemma substring_0_all s : substring 0 (String.length s) s = s.
Proof. induction s as [|a s IH]; cbn; [done | by rewrite IH]. Qed.

Lemma substring_skip a : ∀ n b,
  substring (String.length a) n (a +:+ b) = substring 0 n b.
Proof. induction a as [|c a IH]; intros n b; [done |]. cbn. apply IH. Qed.

Lemma lowDigits_length k : ∀ x s,
  String.length (lowDigits k x s) = (k + String.length s)%nat.
Proof.
  induction k as [|k IH]; intros x s; cbn [lowDigits]; [done |].
  rewrite IH. cbn [String.length]. lia.
Qed.

(** The last six characters of six zeros followed by a number below one
    million are the number, on six digits. *)
Lemma sliceLast6_pad x :
  (x < 1000000)%N →
  sliceLast6 ("000000" +:+ pretty_N_go x EmptyString) = lowDigits 6 x EmptyString.
Proof.
  intros Hx. destruct (lowDigits_pretty 6 x EmptyString Hx) as (j & Hj & Heq & Hlen).
  set (p := pretty_N_go x EmptyString) in *. cbn [String.length] in Hlen.
  assert (Hsplit : "000000" +:+ p = zeros (6 - j) EmptyString +:+ zeros j p).
  { assert (j = 0 ∨ j = 1 ∨ j = 2 ∨ j = 3 ∨ j = 4 ∨ j = 5 ∨ j = 6)%nat
      as [->|[->|[->|[->|[->|[->| ->]]]]]] by lia; reflexivity. }
  unfold sliceLast6.
  assert (Hl : String.length ("000000" +:+ p) = (12 - j)%nat).
  { rewrite Hsplit, length_append, !zeros_length. cbn [String.length]. lia. }
  rewrite Hl, Hsplit.
  replace (12 - j - 6)%nat with (String.length (zeros (6 - j) EmptyString))
    by (rewrite zeros_length; cbn [String.length]; lia).
  rewrite substring_skip, Heq.
  replace 6%nat with (String.length (zeros j p)) at 1
    by (rewrite zeros_length; lia).
  apply substring_0_all.
Qed.

Lemma append_assoc a b c : (a +:+ b) +:+ c = a +:+ (b +:+ c).
Proof.
  induction a as [|x a IH]; [done |].
  change (String x a +:+ b) with (String x (a +:+ b)).
  change (String x (a +:+ b) +:+ c) with (String x ((a +:+ b) +:+ c)).
  by rewrite IH.
Qed.

(** What [pretty] prints ends in the string it started from. *)
Lemma pretty_N_go_suffix x : ∀ s, ∃ p, pretty_N_go x s = p +:+ s.
Proof.
  induction (N.lt_wf_0 x) as [x _ IH]; intros s.
  destruct (decide (x = 0%N)) as [->|Hx].
  - exists EmptyString. by rewrite pretty_N_go_0.
  - rewrite pretty_N_go_step by lia.
    destruct (IH (x / 10)%N (N.div_lt x 10 ltac:(lia) ltac:(lia))
                 (String (pretty_N_char (x mod 10)%N) s)) as [p ->].
    exists (p +:+ String (pretty_N_char (x mod 10)%N) EmptyString).
    by rewrite append_assoc.
Qed.

(** The last six characters of six zeros followed by a number of one
    million or more are its six lowest digits. *)
Lemma sliceLast6_long x :
  (1000000 ≤ x)%N →
  sliceLast6 ("000000" +:+ pretty_N_go x EmptyString) = lowDigits 6 x EmptyString.
Proof.
  intros Hx. rewrite (pretty_N_go_low 6 x EmptyString) by done.
  destruct (pretty_N_go_suffix (x / 10 ^ N.of_nat 6) (lowDigits 6 x EmptyString))
    as [p ->].
  rewrite <- append_assoc. unfold sliceLast6.
  rewrite (length_append ("000000" +:+ p)), lowDigits_length.
  cbn [String.length].
  replace (String.length ("000000" +:+ p) + (6 + 0) - 6)%nat
    with (String.length ("000000" +:+ p)) by lia.
  rewrite substring_skip.
  replace 6%nat with (String.length (lowDigits 6 x EmptyString)) at 1
    by apply lowDigits_length.
  apply substring_0_all.
Qed.

(** The file name of an event with a non-negative id: the six lowest
    digits of the id, then [.json]. *)
Lemma eventFn_low (n : Z) :
  0 ≤ n →
  eventFn (Some n) = lowDigits 6 (Z.to_N n) ".json".
Proof.
  intros Hn.
  assert (Hjson : ∀ x, lowDigits 6 x EmptyString +:+ ".json" = lowDigits 6 x ".json")
    by (intros x; reflexivity).
  unfold eventFn, idString. destruct n as [|p|p]; [reflexivity | | lia].
  change (pretty (Z.pos p)) with (pretty_N_go (N.pos p) EmptyString).
  destruct (decide (N.pos p < 1000000)%N).
  - rewrite sliceLast6_pad by done. apply Hjson.
  - rewrite sliceLast6_long by lia. apply Hjson.
Qed.

Lemma pretty_N_char_digit x : Regex.digit (pretty_N_char x) = true.
Proof.
  destruct x as [|p]; [done |].
  do 4 (try destruct p as [p|p|]); reflexivity.
Qed.

Lemma lowDigits_plus k : ∀ x,
  Regex.lang (Regex.plus Regex.d) (lowDigits (S k) x EmptyString).
Proof.
  assert (Hgo : ∀ k x s, Regex.lang (Regex.plus Regex.d) s →
                         Regex.lang (Regex.plus Regex.d) (lowDigits k x s)).
  { clear k. induction k as [|k IH]; intros x s Hs; [done |]. cbn [lowDigits].
    apply IH. inversion Hs as [| |r1 r2 s1 s2 H1 H2| | | |]; subst.
    change (String (pretty_N_char (x mod 10)%N) (s1 +:+ s2))
      with (String (pretty_N_char (x mod 10)%N) EmptyString +:+ (s1 +:+ s2)).
    apply Regex.LSeq; [apply Regex.LChr, pretty_N_char_digit |].
    by apply Regex.LStarS. }
  intros x. cbn [lowDigits]. apply Hgo.
  change (String (pretty_N_char (x mod 10)%N) EmptyString)
    with (String (pretty_N_char (x mod 10)%N) EmptyString +:+ EmptyString).
  apply Regex.LSeq; [apply Regex.LChr, pretty_N_char_digit | apply Regex.LStar0].
Qed.

Lemma lowDigits_inj k : ∀ x y s t,
  lowDigits k x s = lowDigits k y t →
  String.length s = String.length t →
  (x mod 10 ^ N.of_nat k = y mod 10 ^ N.of_nat k)%N ∧ s = t.
Proof.
  induction k as [|k IH]; intros x y s t Heq Hlen.
  - cbn [lowDigits] in Heq. by rewrite N.pow_0_r, !N.mod_1_r.
  - cbn [lowDigits] in Heq. apply IH in Heq as [Hmod Hst]; [| cbn; lia].
    injection Hst as Hc ->. split; [| done].
    apply pretty_N_char_inj in Hc; [| by apply N.mod_lt ..].
    rewrite Nat2N.inj_succ, N.pow_succ_r', !N.Div0.mod_mul_r. lia.
Qed.

(** The file name of an event with a non-negative id is one that the
    rebuild of the index scans. *)
Lemma eventFn_matches (n : Z) :
  0 ≤ n → Regex.test eventFile_re (eventFn (Some n)) = true.
Proof.
  intros Hn. rewrite eventFn_low by done.
  apply test_lang.
  change (lowDigits 6 (Z.to_N n) ".json")
    with (lowDigits 6 (Z.to_N n) EmptyString +:+ ".json").
  apply Regex.LSeq; [apply (lowDigits_plus 5) |].
  change ".json"
    with (String "." EmptyString +:+ (String "j" EmptyString
          +:+ (String "s" EmptyString +:+ (String "o" EmptyString
          +:+ (String "n" EmptyString +:+ EmptyString))))).
  unfold Regex.lit. cbn [Regex.seq].
  repeat first [apply Regex.LEps | apply Regex.LSeq | by apply Regex.LChr].
Qed.

(** Below one million, the file name tells the id. *)
Lemma eventFn_inj (n m : Z) :
  0 ≤ n < 1000000 → 0 ≤ m < 1000000 →
  eventFn (Some n) = eventFn (Some m) → n = m.
Proof.
  intros Hn Hm. rewrite !eventFn_low by lia.
  intros Heq. apply lowDigits_inj in Heq as [Heq _]; [| done].
  change (10 ^ N.of_nat 6)%N with 1000000%N in Heq.
  rewrite !N.mod_small in Heq by lia. lia.
Qed.

(** X10. The file of an event whose id is a non-negative integer that
    JavaScript holds exactly (at most 2^53 - 1) is named by six digits and
    [.json], a name that the rebuild of the index scans; two such ids get
    the same file exactly when they are equal modulo one million: ids
    below one million have files of their own, and the event 1000000 + n
    is stored over the event n. *)
Theorem eventFn_modulo (n m : Z) :
  0 ≤ n ≤ 9007199254740991 → 0 ≤ m ≤ 9007199254740991 →
  Regex.test eventFile_re (eventFn (Some n)) = true
  ∧ String.length (eventFn (Some n)) = 11%nat
  ∧ (eventFn (Some n) = eventFn (Some m) ↔ n mod 1000000 = m mod 1000000).
Proof.
  intros [Hn _] [Hm _]. rewrite !eventFn_low by done. split; [| split].
  - rewrite <- eventFn_low by done. by apply eventFn_matches.
  - apply lowDigits_length.
  - split.
    + intros Heq. apply lowDigits_inj in Heq as [Heq _]; [| done].
      change (10 ^ N.of_nat 6)%N with 1000000%N in Heq.
      apply (f_equal Z.of_N) in Heq.
      by rewrite !N2Z.inj_mod, !Z2N.id in Heq by lia.
    + intros Heq.
      assert (Hred : ∀ z, 0 ≤ z →
                lowDigits 6 (Z.to_N z) ".json"
                = lowDigits 6 (Z.to_N (z mod 1000000)) ".json").
      { intros z Hz.
        rewrite <- (lowDigits_add 6 (Z.to_N (z mod 1000000)) (Z.to_N (z / 1000000))).
        f_equal. change (10 ^ N.of_nat 6)%N with 1000000%N.
        pose proof (Z.div_mod z 1000000). pose proof (Z.mod_pos_bound z 1000000).
        assert (0 ≤ z / 1000000) by (apply Z.div_pos; lia). lia. }
      by rewrite (Hred n), (Hred m), Heq.
Qed.

Lemma eventFn_modulo_witness :
  Regex.test eventFile_re (eventFn (Some 1000007)) = true
  ∧ String.length (eventFn (Some 1000007)) = 11%nat
  ∧ (eventFn (Some 1000007) = eventFn (Some 7)
     ↔ 1000007 mod 1000000 = 7 mod 1000000).
Proof.
  apply (eventFn_modulo 1000007 7); lia.
Defined.

(** ** The center directory *)

Lemma lang_Chr_inv p s :
  Regex.lang (Regex.Chr p) s → ∃ a, s = String a EmptyString ∧ p a = true.
Proof. inversion 1; subst; eauto. Qed.

Lemma lang_Star_wordy s :
  Regex.lang (Regex.Star (Regex.Chr wordChar)) s ↔ wordy s = true.
Proof.
  induction s as [|a s IH]; cbn [wordy].
  - split; [done | constructor].
  - rewrite andb_true_iff. split.
    + intros H. apply lang_Star_cons in H as (s1 & s2 & Hs & H1 & H2).
      apply lang_Chr_inv in H1 as (b & Hb1 & Hb). injection Hb1 as -> ->.
      change (EmptyString +:+ s2) with s2 in Hs. subst s2. split; [done | by apply IH].
    + intros [Ha Hs].
      change (String a s) with (String a EmptyString +:+ s).
      apply Regex.LStarS; [by apply Regex.LChr | by apply IH].
Qed.

Lemma lang_json s :
  Regex.lang (Regex.seq [Regex.lit "."; Regex.lit "j"; Regex.lit "s";
                         Regex.lit "o"; Regex.lit "n"]) s
  ↔ s = ".json".
Proof.
  rewrite <- test_lang.
  change (Regex.seq [Regex.lit "."; Regex.lit "j"; Regex.lit "s";
                     Regex.lit "o"; Regex.lit "n"])
    with (Regex.seq (Regex.Chr <$> [Ascii.eqb "."; Ascii.eqb "j"; Ascii.eqb "s";
                                    Ascii.eqb "o"; Ascii.eqb "n"])).
  rewrite test_classes. split.
  - intros H. rewrite <- (string_of_list_ascii_of_string s).
    revert H. generalize (list_ascii_of_string s). intros l H.
    invert_classes. subst.
    repeat match goal with H : Ascii.eqb _ _ = true |- _ => apply Ascii.eqb_eq in H end.
    by subst.
  - intros ->. cbn. repeat constructor.
Qed.

(** The names that [/^(\w+)\.json$/] matches. *)
Lemma centerFile_re_spec f :
  Regex.test centerFile_re f = true ↔ ∃ i, f = i +:+ ".json" ∧ isWord i.
Proof.
  rewrite test_lang. unfold centerFile_re, Regex.plus. split.
  - intros H. apply lang_Seq_inv in H as (s1 & s2 & -> & H1 & H2).
    apply lang_json in H2 as ->.
    apply lang_Seq_inv in H1 as (a1 & a2 & -> & Ha1 & Ha2).
    apply lang_Chr_inv in Ha1 as (a & -> & Ha).
    apply lang_Star_wordy in Ha2.
    exists (String a a2). split; [done |]. split; [done |].
    cbn [wordy]. by rewrite Ha, Ha2.
  - intros (i & -> & Hne & Hw). destruct i as [|a i]; [done |].
    cbn [wordy] in Hw. apply andb_true_iff in Hw as [Ha Hw].
    apply Regex.LSeq; [| by apply lang_json].
    change (String a i) with (String a EmptyString +:+ i).
    apply Regex.LSeq; [by apply Regex.LChr | by apply lang_Star_wordy].
Qed.

Lemma substring_prefix a b :
  substring 0 (String.length a) (a +:+ b) = a.
Proof.
  induction a as [|c a IH]; [by destruct b |].
  change (String c a +:+ b) with (String c (a +:+ b)). cbn. by rewrite IH.
Qed.

Lemma append_inj_json i j : i +:+ ".json" = j +:+ ".json" → i = j.
Proof.
  intros H.
  rewrite <- (substring_prefix i ".json"), <- (substring_prefix j ".json").
  assert (String.length i = String.length j) as Hl.
  { apply (f_equal String.length) in H. rewrite !length_append in H. lia. }
  by rewrite H, Hl.
Qed.

(** The group that the pattern captures is the name without [.json]. *)
Lemma centerFileId_spec f i :
  centerFileId f = Some i ↔ f = i +:+ ".json" ∧ isWord i.
Proof.
  unfold centerFileId. split.
  - destruct (Regex.test centerFile_re f) eqn:Ht; [| done].
    apply centerFile_re_spec in Ht as (j & -> & Hj). intros [= <-].
    rewrite length_append. cbn [String.length].
    replace (String.length j + 5 - 5)%nat with (String.length j) by lia.
    by rewrite substring_prefix.
  - intros [-> Hi].
    rewrite (proj2 (centerFile_re_spec _)) by eauto.
    rewrite length_append. cbn [String.length].
    replace (String.length i + 5 - 5)%nat with (String.length i) by lia.
    by rewrite substring_prefix.
Qed.

(** One turn of the loop of [getCentersAsync]. *)
Lemma loadCenterFile_run env f st m :
  _centers st = Some m →
  loadCenterFile env f st =
  match centerFileId f.1 with
  | Some i =>
      if bool_decide (is_Some (m !! i)) || bool_decide (i ∈ inheritedNames)
      then (Ret tt, st)
      else match f.2 with
           | Some c => (Ret tt, set_centers (Some (<[i := parseCenterAsync env c]> m)) st)
           | None => (Throw, st)
           end
  | None => (Ret tt, st)
  end.
Proof.
  intros Hm. unfold loadCenterFile.
  destruct (centerFileId f.1) as [i|]; [| done].
  unfold bind, gets. rewrite Hm. cbn [default from_option Datatypes.id].
  destruct (bool_decide (is_Some (m !! i)) || bool_decide (i ∈ inheritedNames)); [done |].
  destruct f.2; [| done]. unfold cacheCenter, modify. by rewrite Hm.
Qed.

Lemma loadCenterFile_keeps {X} (g : State → X) env f :
  (∀ c st, g (set_centers c st) = g st) →
  keeps g (loadCenterFile env f).
Proof.
  intros Hg. unfold loadCenterFile. destruct (centerFileId f.1); [| apply keeps_ret].
  apply keeps_bind; [apply keeps_gets |]. intros cached.
  match goal with |- context [if ?b then _ else _] => destruct b end; [apply keeps_ret |].
  destruct f.2; [| apply keeps_throw]. by apply keeps_modify.
Qed.

(** A center file that carries its [fullcity] is returned as it is: the
    geocoder is not asked. *)
Lemma parseCenterAsync_fullcity env c :
  truthy (cfield "fullcity" c) = true → parseCenterAsync env c = c.
Proof. intros H. unfold parseCenterAsync. by rewrite H. Qed.

(** The loop of [getCentersAsync], when it returns. *)
Lemma loadCenterFiles_ret env (files : CenterDir) : ∀ st m l st',
  _centers st = Some m →
  NoDup files.*1 →
  mapM (loadCenterFile env) files st = (Ret l, st') →
  ∃ m',
    st' = set_centers (Some m') st
    ∧ (∀ i c, m !! i = Some c → m' !! i = Some c)
    ∧ (∀ i c, loadable m i → (i +:+ ".json", Some c) ∈ files →
              m' !! i = Some (parseCenterAsync env c))
    ∧ (∀ i c', m' !! i = Some c' →
         m !! i = Some c'
         ∨ (loadable m i
            ∧ ∃ c, (i +:+ ".json", Some c) ∈ files ∧ c' = parseCenterAsync env c)).
Proof.
  induction files as [|f files IH]; intros st m l st' Hm Hnd Hrun.
  - cbn [mapM] in Hrun. unfold ret in Hrun. injection Hrun as <- <-.
    exists m. split; [| split; [| split]].
    + destruct st; cbn in *; by rewrite Hm.
    + done.
    + intros i c _ Hin. by apply elem_of_nil in Hin.
    + intros i c' H. by left.
  - cbn [mapM] in Hrun. unfold bind at 1 in Hrun.
    rewrite (loadCenterFile_run env f st m Hm) in Hrun.
    apply NoDup_cons in Hnd as [Hf Hnd].
    assert (Hskip :
      (let* ys := mapM (loadCenterFile env) files in ret (tt :: ys)) st = (Ret l, st') →
      (∀ i c, loadable m i → (i +:+ ".json", Some c) ≠ f) →
      ∃ m',
        st' = set_centers (Some m') st
        ∧ (∀ i c, m !! i = Some c → m' !! i = Some c)
        ∧ (∀ i c, loadable m i → (i +:+ ".json", Some c) ∈ f :: files →
                  m' !! i = Some (parseCenterAsync env c))
        ∧ (∀ i c', m' !! i = Some c' →
             m !! i = Some c'
             ∨ (loadable m i
                ∧ ∃ c, (i +:+ ".json", Some c) ∈ f :: files
                       ∧ c' = parseCenterAsync env c))).
    { intros Hrun' Hnot. unfold bind in Hrun'.
      destruct (mapM (loadCenterFile env) files st) as [[ys|] st2] eqn:Hmap;
        [| discriminate].
      unfold ret in Hrun'. injection Hrun' as <- <-.
      destruct (IH st m ys st2 Hm Hnd Hmap) as (m' & Hst & H1 & H2 & H3).
      exists m'. split; [done |]. split; [done |]. split.
      - intros i c Hi Hin. apply elem_of_cons in Hin as [Hin|Hin]; [| by eapply H2].
        by destruct (Hnot i c Hi).
      - intros i c' Hi. destruct (H3 i c' Hi) as [?|(? & c & ? & ?)]; [by left |].
        right. split; [done |]. exists c. split; [by apply elem_of_cons; right | done]. }
    destruct (centerFileId f.1) as [i0|] eqn:Hid.
    + apply centerFileId_spec in Hid as [Hname Hword].
      destruct (bool_decide (is_Some (m !! i0)) || bool_decide (i0 ∈ inheritedNames))
        eqn:Hcached.
      * apply Hskip; [exact Hrun |]. intros i c (Hnone & _ & Hninh) Heq.
        subst f. cbn [fst] in Hname. apply append_inj_json in Hname as ->.
        apply orb_true_iff in Hcached as [Hc|Hc]; apply bool_decide_eq_true in Hc.
        -- rewrite Hnone in Hc. by destruct Hc.
        -- done.
      * apply orb_false_iff in Hcached as [Hc1 Hc2].
        apply bool_decide_eq_false in Hc1. apply bool_decide_eq_false in Hc2.
        assert (Hnone : m !! i0 = None).
        { destruct (m !! i0) eqn:E; [| done]. destruct Hc1. eauto. }
        destruct (f.2) as [c0|] eqn:Hc0; [| discriminate].
        set (m1 := <[i0 := parseCenterAsync env c0]> m) in *.
        unfold bind in Hrun.
        destruct (mapM (loadCenterFile env) files (set_centers (Some m1) st))
          as [[ys|] st2] eqn:Hmap; [| discriminate].
        unfold ret in Hrun. injection Hrun as <- <-.
        destruct (IH (set_centers (Some m1) st) m1 ys st2 eq_refl Hnd Hmap)
          as (m' & Hst & H1 & H2 & H3).
        exists m'. split; [by rewrite Hst |].
        split; [| split].
        -- intros i c Hi. apply H1. unfold m1.
           rewrite lookup_insert_ne; [done |]. intros ->. congruence.
        -- intros i c Hi Hin. apply elem_of_cons in Hin as [Hin|Hin].
           ++ subst f. cbn [fst snd] in *. apply append_inj_json in Hname as ->.
              injection Hc0 as ->. apply H1. unfold m1. by rewrite lookup_insert_eq.
           ++ destruct (decide (i = i0)) as [->|Hne].
              ** destruct Hf. rewrite Hname.
                 apply (list_elem_of_fmap_2 fst) in Hin. done.
              ** apply H2; [| done]. destruct Hi as (? & ? & ?).
                 split; [| done]. unfold m1. by rewrite lookup_insert_ne.
        -- intros i c' Hi. destruct (H3 i c' Hi) as [Hm1|(Hl & c & Hin & ->)].
           ++ unfold m1 in Hm1. destruct (decide (i = i0)) as [->|Hne].
              ** rewrite lookup_insert_eq in Hm1. injection Hm1 as <-.
                 right. split; [done |]. exists c0. split; [| done].
                 apply elem_of_cons. left. destruct f. cbn [fst snd] in *. congruence.
              ** rewrite lookup_insert_ne in Hm1 by done. by left.
           ++ right. destruct Hl as (Hl1 & Hl2 & Hl3).
              assert (i ≠ i0) by (intros ->; unfold m1 in Hl1;
                                  by rewrite lookup_insert_eq in Hl1).
              split; [split; [| done] |].
              ** unfold m1 in Hl1. by rewrite lookup_insert_ne in Hl1.
              ** exists c. split; [by apply elem_of_cons; right | done].
    + apply Hskip; [exact Hrun |]. intros i c (_ & Hw & _) Heq.
      assert (centerFileId f.1 = Some i) as Habs
        by (apply centerFileId_spec; subst f; done).
      congruence.
Qed.

(** The loop of [getCentersAsync] returns when every file of the
    directory can be read. *)
Lemma loadCenterFiles_returns env (files : CenterDir) : ∀ st m,
  _centers st = Some m →
  Forall (λ f, is_Some f.2) files →
  ∃ l st', mapM (loadCenterFile env) files st = (Ret l, st').
Proof.
  induction files as [|f files IH]; intros st m Hm Hread; [by eexists _, _ |].
  apply Forall_cons in Hread as [[c0 Hc0] Hread].
  cbn [mapM]. unfold bind at 1. rewrite (loadCenterFile_run env f st m Hm), Hc0.
  assert (Hrest : ∀ st1 m1, _centers st1 = Some m1 →
    ∃ l st', (let* ys := mapM (loadCenterFile env) files in ret (tt :: ys)) st1
             = (Ret l, st')).
  { intros st1 m1 Hm1. destruct (IH st1 m1 Hm1 Hread) as (l & st' & Hrun).
    exists (tt :: l), st'. unfold bind. by rewrite Hrun. }
  destruct (centerFileId f.1) as [i0|]; [| by apply (Hrest st m)].
  destruct (_ || _); [by apply (Hrest st m) |].
  by apply (Hrest _ (<[i0 := parseCenterAsync env c0]> m)).
Qed.

Lemma getCentersAsync_start env dir st :
  getCentersAsync env dir st =
  let st0 := snd (cachedCenters env st) in
  if hasAllCenters st then (Ret (centersValue env st), st0)
  else match dir with
       | None => (Throw, st0)
       | Some files =>
           match mapM (loadCenterFile env) files (set_hasAllCenters true st0) with
           | (Ret _, st') => (Ret (default ∅ (_centers st')), st')
           | (Throw, st') => (Throw, st')
           end
       end.
Proof.
  unfold getCentersAsync. unfold bind at 1. rewrite cachedCenters_run.
  unfold bind at 1. cbn [gets].
  rewrite (cachedCenters_keeps hasAllCenters env (λ _ _, eq_refl) (λ _ _, eq_refl) st).
  cbv zeta. destruct (hasAllCenters st); cbn [negb]; [done |].
  destruct dir as [files|]; [| done].
  unfold bind at 1. cbn [modify]. unfold bind at 1.
  by destruct (mapM _ _ _) as [[?|] ?].
Qed.

(** X11. The first listing of the centers.  When every file of the
    directory can be read and carries its [fullcity] (so that the geocoder
    is not asked), the call returns.  Whenever it returns, it returns the
    directory it leaves in [_centers], marked complete; a center that was
    cached stays as it was cached; the file [i.json] is loaded (through
    [parseCenterAsync]) for every word [i] that was not cached and is not
    the name of a property every object has (such as [constructor]);
    nothing else is in the directory; and the index, the event cache and
    the repository are as before. *)
Theorem getCentersAsync_loads env (files : CenterDir) st :
  hasAllCenters st = false →
  NoDup files.*1 →
  (Forall (λ f, ∃ c, f.2 = Some c ∧ truthy (cfield "fullcity" c) = true) files →
   ∃ m st', getCentersAsync env (Some files) st = (Ret m, st'))
  ∧ ∀ m st',
      getCentersAsync env (Some files) st = (Ret m, st') →
      _centers st' = Some m ∧ hasAllCenters st' = true
      ∧ index st' = index st ∧ eventsCache st' = eventsCache st ∧ store st' = store st
      ∧ (∀ i c, centersValue env st !! i = Some c → m !! i = Some c)
      ∧ (∀ i c, loadable (centersValue env st) i → (i +:+ ".json", Some c) ∈ files →
                m !! i = Some (parseCenterAsync env c))
      ∧ (∀ i c', m !! i = Some c' →
           centersValue env st !! i = Some c'
           ∨ (loadable (centersValue env st) i
              ∧ ∃ c, (i +:+ ".json", Some c) ∈ files ∧ c' = parseCenterAsync env c)).
Proof.
  intros Hall Hnd. rewrite getCentersAsync_start, Hall. cbv zeta.
  set (st0 := set_hasAllCenters true (snd (cachedCenters env st))).
  assert (Hm0 : _centers st0 = Some (centersValue env st))
    by apply cachedCenters_centers.
  split.
  - intros Hread.
    destruct (loadCenterFiles_returns env files st0 _ Hm0) as (l & st' & ->).
    + eapply Forall_impl; [exact Hread |]. intros f (c & -> & _). by eexists.
    + by eexists _, _.
  - intros m st'.
    destruct (mapM (loadCenterFile env) files st0) as [[l|] st2] eqn:Hmap;
      [| discriminate].
    intros [= <- <-].
    destruct (loadCenterFiles_ret env files st0 _ l st2 Hm0 Hnd Hmap)
      as (m' & -> & H1 & H2 & H3).
    cbn [_centers set_centers default from_option Datatypes.id].
    split; [done |]. split; [done |].
    split; [apply (cachedCenters_keeps index env (λ _ _, eq_refl) (λ _ _, eq_refl)) |].
    split; [apply (cachedCenters_keeps eventsCache env (λ _ _, eq_refl) (λ _ _, eq_refl)) |].
    split; [apply (cachedCenters_keeps store env (λ _ _, eq_refl) (λ _ _, eq_refl)) |].
    done.
Qed.

Lemma getCentersAsync_loads_witness :
  let files := [("y.json", Some centerY); ("new-york.json", Some centerY);
                ("constructor.json", Some centerY)] in
  ∃ m st',
    getCentersAsync exampleEnv (Some files) exampleState = (Ret m, st')
    ∧ hasAllCenters st' = true
    ∧ m !! "y" = Some centerY
    ∧ m !! "new-york" = None
    ∧ m !! "constructor" = None.
Proof.
  cbv zeta.
  destruct (getCentersAsync_loads exampleEnv
              [("y.json", Some centerY); ("new-york.json", Some centerY);
               ("constructor.json", Some centerY)] exampleState)
    as [Hret Hspec].
  - reflexivity.
  - apply (bool_decide_unpack _). vm_compute. reflexivity.
  - destruct Hret as (m & st' & Hrun).
    + repeat constructor; exists centerY; split; reflexivity.
    + exists m, st'. split; [exact Hrun |].
      destruct (Hspec m st' Hrun) as (_ & Hall & _).
      split; [exact Hall |].
      vm_compute in Hrun. injection Hrun as <- _. vm_compute. done.
Defined.

Lemma hasAllCenters_mapM env (files : CenterDir) st :
  hasAllCenters (snd (mapM (loadCenterFile env) files st)) = hasAllCenters st.
Proof.
  apply (keeps_mapM hasAllCenters). intros f. by apply loadCenterFile_keeps.
Qed.

(** A lookup in a directory that is marked complete is answered from the
    directory. *)
Lemma getCenterAsync_complete env i st :
  hasAllCenters st = true →
  getCenterAsync env (Some i) st
  = (Ret (centersValue env st !! i), snd (cachedCenters env st)).
Proof.
  intros Hall. cbn [getCenterAsync]. unfold bind at 1. rewrite cachedCenters_run.
  unfold bind at 1. cbn [gets].
  rewrite (cachedCenters_keeps hasAllCenters env (λ _ _, eq_refl) (λ _ _, eq_refl) st).
  rewrite Hall, orb_true_r. done.
Qed.

(** X12. Whatever a listing of the centers does once the directory was
    listed (it may throw on a file that cannot be read), it leaves the
    directory marked complete: from then on a lookup of any id is
    answered with what the directory holds, without a read of the
    repository, and a further listing returns the directory as it is,
    whatever the files are by then.  A center that the listing did not
    load is reported missing until the next pull. *)
Theorem getCentersAsync_marks_complete env (files : CenterDir) st r st' :
  getCentersAsync env (Some files) st = (r, st') →
  hasAllCenters st' = true
  ∧ (∀ i s', fst (getCenterAsync env (Some i) (set_store s' st'))
             = Ret (centersValue env st' !! i))
  ∧ (∀ dir s', fst (getCentersAsync env dir (set_store s' st'))
               = Ret (centersValue env st')).
Proof.
  intros Hrun.
  assert (Hall : hasAllCenters st' = true).
  { rewrite getCentersAsync_start in Hrun. cbv zeta in Hrun.
    destruct (hasAllCenters st) eqn:Hall.
    - injection Hrun as _ <-.
      by rewrite (cachedCenters_keeps hasAllCenters env (λ _ _, eq_refl) (λ _ _, eq_refl) st).
    - pose proof (hasAllCenters_mapM env files
                    (set_hasAllCenters true (snd (cachedCenters env st)))) as Hk.
      destruct (mapM _ _ _) as [[?|] st2]; injection Hrun as _ <-; exact Hk. }
  split; [done |]. split.
  - intros i s'. by rewrite getCenterAsync_complete.
  - intros dir s'. rewrite getCentersAsync_start. cbv zeta.
    by replace (hasAllCenters (set_store s' st')) with true.
Qed.

Lemma getCentersAsync_marks_complete_witness :
  ∃ st',
    getCentersAsync exampleEnv (Some [("w.json", None); ("x.json", Some centerX)])
      exampleState = (Throw, st')
    ∧ hasAllCenters st' = true
    ∧ fst (getCenterAsync exampleEnv (Some "x") st') = Ret None.
Proof.
  eexists. split; [vm_compute; reflexivity |].
  destruct (getCentersAsync_marks_complete exampleEnv
              [("w.json", None); ("x.json", Some centerX)] exampleState Throw _
              ltac:(vm_compute; reflexivity)) as (Hall & Hget & _).
  split; [exact Hall |]. exact (Hget "x" exampleStore).
Defined.

(** X13. A center that a lookup returned is cached: until a pull, the
    same lookup returns the same record and leaves the state as it is,
    whatever has become of the files of the repository.  Once a pull is
    notified, the next lookup reads the file again: it throws if the file
    is gone, and returns the file as it is by then if the file carries its
    [fullcity] (otherwise the geocoder is asked). *)
Theorem getCenterAsync_cached_until_pull env i st c st1 :
  _centers st = None ∨ subscribed st = true →
  getCenterAsync env i st = (Ret (Some c), st1) →
  ∃ cid, i = Some cid
  ∧ (∀ s', getCenterAsync env i (set_store s' st1) = (Ret (Some c), set_store s' st1))
  ∧ (∀ s', match centerFiles s' !! cid with
           | Some file =>
               truthy (cfield "fullcity" file) = true →
               fst (getCenterAsync env i (deliver_update true (set_store s' st1)))
               = Ret (Some file)
           | None =>
               fst (getCenterAsync env i (deliver_update true (set_store s' st1)))
               = Throw
           end).
Proof.
  intros Hsub Hrun.
  assert (Hsub1 : subscribed st1 = true).
  { destruct i as [cid|]; [| discriminate]. revert Hrun.
    cbn [getCenterAsync]. unfold bind at 1. rewrite cachedCenters_run.
    assert (Hs0 : subscribed (snd (cachedCenters env st)) = true
                  ∨ gitfs_events env = false).
    { unfold cachedCenters. destruct (gitfs_events env); [| by right]. left.
      destruct Hsub as [->| Hs]; [done |]. by destruct (_centers st). }
    unfold bind at 1. cbn [gets].
    match goal with |- context [if ?b then _ else _] => destruct b end.
    - unfold ret. intros H. simplify_eq. destruct Hs0 as [?|Hg]; [done |].
      unfold centersValue in *. rewrite Hg in *. cbn in *. unfold tools.lookup in *.
      by rewrite lookup_empty in *.
    - unfold bind at 1.
      pose proof (readCenterFile_state env cid (snd (cachedCenters env st))) as Hst.
      destruct (readCenterFile env cid _) as [[file|] st2] eqn:Hread; [| discriminate].
      cbn [snd] in Hst. subst st2.
      unfold bind, cacheCenter, modify, ret. intros H. simplify_eq. cbn.
      destruct Hs0 as [?|Hg]; [done |].
      unfold readCenterFile in Hread. by rewrite Hg in Hread. }
  apply getCenterAsync_Some in Hrun as (Hgit & cid & -> & m & Hm & Hc).
  exists cid. split; [done |]. split.
  - intros s'. apply (getCenterAsync_held env Hgit cid c). by exists m.
  - intros s'.
    assert (Hfetch :
      fst (getCenterAsync env (Some cid) (deliver_update true (set_store s' st1)))
      = match centerFiles s' !! cid with
        | Some file => Ret (Some (parseCenterAsync env file))
        | None => Throw
        end).
    { unfold deliver_update. cbn [subscribed set_store]. rewrite Hsub1.
      cbn [onUpdate_handler getCenterAsync]. unfold bind at 1.
      unfold cachedCenters at 1. rewrite Hgit.
      cbn [negb _centers set_hasAllCenters set_centers].
      unfold bind at 1. cbn [gets hasAllCenters set_hasAllCenters tools.lookup].
      unfold tools.lookup. rewrite lookup_empty.
      rewrite bool_decide_eq_false_2 by (by intros [? ?]). cbn [orb].
      unfold bind at 1. unfold readCenterFile. rewrite Hgit.
      cbn [negb store set_hasAllCenters set_centers set_store].
      by destruct (centerFiles s' !! cid). }
    rewrite Hfetch. destruct (centerFiles s' !! cid) as [file|]; [| done].
    intros Hcity. by rewrite parseCenterAsync_fullcity.
Qed.

Lemma getCenterAsync_cached_until_pull_witness :
  let moved := mkStore {["x" := centerY]} [] None in
  ∃ c st1,
    getCenterAsync exampleEnv (Some "x") exampleState = (Ret (Some c), st1)
    ∧ getCenterAsync exampleEnv (Some "x") (set_store (mkStore ∅ [] None) st1)
      = (Ret (Some c), set_store (mkStore ∅ [] None) st1)
    ∧ fst (getCenterAsync exampleEnv (Some "x")
             (deliver_update true (set_store (mkStore ∅ [] None) st1))) = Throw
    ∧ fst (getCenterAsync exampleEnv (Some "x")
             (deliver_update true (set_store moved st1))) = Ret (Some centerY).
Proof.
  cbv zeta. eexists _, _. split; [vm_compute; reflexivity |].
  destruct (getCenterAsync_cached_until_pull exampleEnv (Some "x") exampleState _ _
              (or_introl eq_refl) ltac:(vm_compute; reflexivity))
    as (cid & Hcid & Hkeep & Hpull).
  split; [apply Hkeep |]. injection Hcid as <-.
  split.
  - exact (Hpull (mkStore ∅ [] None)).
  - exact (Hpull (mkStore {["x" := centerY]} [] None) eq_refl).
Defined.

(** ** Reading an event *)

(** The augmenter keeps the id and every field but the four it sets. *)
Lemma augmentWith_frame env centers ev :
  id (augmentWith env centers ev) = id ev
  ∧ ∀ k, k ∉ ["fullcity"; "weekdayRange"; "dateRange"; "combinedRange"] →
         field k (augmentWith env centers ev) = field k ev.
Proof.
  unfold augmentWith, tools.clone. split.
  - destruct (centers !! _) as [c|]; destruct (truthy _); cbn [id set_field];
      [by destruct (cfield "fullcity" c) .. | done | done].
  - intros k Hk.
    assert (k ≠ "fullcity" ∧ k ≠ "weekdayRange" ∧ k ≠ "dateRange" ∧ k ≠ "combinedRange")
      as (H1 & H2 & H3 & H4).
    { repeat split; intros ->; apply Hk; in_keys. }
    destruct (centers !! _); destruct (truthy _);
      rewrite !set_field_ne by done; by rewrite ?assign_field_ne by done.
Qed.

Lemma existsb_id_true (l : list FullEvent) (i : option Z) :
  existsb (λ e, bool_decide (id e = i)) l = true ↔ ∃ e, e ∈ l ∧ id e = i.
Proof.
  rewrite existsb_exists. split.
  - intros (e & Hin & He). exists e. split; [by apply list_elem_of_In |].
    by apply bool_decide_eq_true in He.
  - intros (e & Hin & He). exists e. split; [by apply list_elem_of_In |].
    by apply bool_decide_eq_true.
Qed.

(** A read of an id that the index does not list returns nothing and
    leaves the state as it is. *)
Lemma readEventAsync_unlisted env n st :
  (∀ e, e ∈ events (index st) → id e ≠ Some n) →
  readEventAsync env n st = (Ret None, st).
Proof.
  intros Hno. unfold readEventAsync. unfold bind at 1. cbn [gets].
  destruct (existsb _ (events (index st))) eqn:Hex; [| done].
  apply existsb_id_true in Hex as (e & Hin & Hid). by destruct (Hno e Hin).
Qed.

(** A read of a listed id returns a record, made from the cached
    document of the id or from its file. *)
Lemma readEventAsync_listed env n st r st1 :
  (∃ e, e ∈ events (index st) ∧ id e = Some n) →
  readEventAsync env n st = (Ret r, st1) →
  ∃ ev raw,
      r = Some ev
      ∧ (eventsCache st !! idString (Some n) = Some raw
         ∨ (eventsCache st !! idString (Some n) = None
            ∧ readFile (eventFn (Some n)) (eventFiles (store st)) = Some raw))
      ∧ eventsCache st1 = <[idString (Some n) := raw]> (eventsCache st)
      ∧ id ev = id raw
      ∧ ∀ k, k ∉ displayKeys → field k ev = field k raw.
Proof.
  intros Hl. unfold readEventAsync. unfold bind at 1. cbn [gets].
  rewrite (proj2 (existsb_id_true _ _) Hl). cbn [negb].
  unfold bind at 1. cbn [gets].
  assert (Hraw : ∀ raw st0,
    eventsCache st0 = <[idString (Some n) := raw]> (eventsCache st) →
    (eventsCache st !! idString (Some n) = Some raw
     ∨ (eventsCache st !! idString (Some n) = None
        ∧ readFile (eventFn (Some n)) (eventFiles (store st)) = Some raw)) →
    (let* c := getCenterAsync env (field "center" raw) in
     let* r0 :=
       if negb (truthy (field "address" raw)) then
         match c with
         | None => throw
         | Some c =>
             ret (assign_field "name" (cfield "name" c)
                   (assign_field "address" (cfield "address" c) raw))
         end
       else ret raw in
     let* r0 := augmentEvent env r0 in
     ret (Some r0)) st0 = (Ret r, st1) →
    ∃ ev raw,
      r = Some ev
      ∧ (eventsCache st !! idString (Some n) = Some raw
         ∨ (eventsCache st !! idString (Some n) = None
            ∧ readFile (eventFn (Some n)) (eventFiles (store st)) = Some raw))
      ∧ eventsCache st1 = <[idString (Some n) := raw]> (eventsCache st)
      ∧ id ev = id raw
      ∧ ∀ k, k ∉ displayKeys → field k ev = field k raw).
  { intros raw st0 Hcache Hsrc. unfold bind at 1.
    pose proof (getCenterAsync_keeps eventsCache env (field "center" raw)
                  (λ _ _, eq_refl) (λ _ _, eq_refl) st0) as Hc.
    destruct (getCenterAsync env (field "center" raw) st0) as [[c|] st2];
      [| discriminate]. cbn [snd] in Hc.
    assert (Hfin : ∀ r0,
      id r0 = id raw →
      (∀ k, k ∉ displayKeys → field k r0 = field k raw) →
      (let* r1 := augmentEvent env r0 in ret (Some r1)) st2 = (Ret r, st1) →
      ∃ ev raw,
      r = Some ev
      ∧ (eventsCache st !! idString (Some n) = Some raw
         ∨ (eventsCache st !! idString (Some n) = None
            ∧ readFile (eventFn (Some n)) (eventFiles (store st)) = Some raw))
      ∧ eventsCache st1 = <[idString (Some n) := raw]> (eventsCache st)
      ∧ id ev = id raw
      ∧ ∀ k, k ∉ displayKeys → field k ev = field k raw).
    { intros r0 Hid Hfields. unfold bind at 1. rewrite augmentEvent_run.
      unfold ret. intros H. injection H as <- <-.
      exists (augmentWith env (centersValue env st2) r0), raw.
      split; [done |]. split; [done |]. split.
      - rewrite (cachedCenters_keeps eventsCache env (λ _ _, eq_refl) (λ _ _, eq_refl)).
        congruence.
      - destruct (augmentWith_frame env (centersValue env st2) r0) as [Hi Hf].
        split; [congruence |]. intros k Hk. rewrite Hf, Hfields; [done | done |].
        intros Hin. apply Hk. unfold displayKeys.
        do 2 apply list_elem_of_further. done. }
    unfold bind at 1.
    destruct (negb (truthy (field "address" raw))).
    - destruct c as [c|]; [| discriminate]. cbn [ret]. apply Hfin.
      + by destruct (cfield "name" c), (cfield "address" c).
      + intros k Hk.
        rewrite !assign_field_ne; [done | |]; intros ->; apply Hk; in_keys.
    - cbn [ret]. by apply Hfin. }
  destruct (eventsCache st !! idString (Some n)) as [curr|] eqn:Hcached.
  - unfold bind at 1. cbn [ret]. apply Hraw; [| by left].
    by rewrite insert_id.
  - unfold bind at 1. unfold bind at 1.
    pose proof (readEventFile_state env (eventFn (Some n)) st) as Hst.
    destruct (readEventFile env (eventFn (Some n)) st) as [[text|] st0] eqn:Hread;
      [| discriminate].
    cbn [snd] in Hst. subst st0.
    unfold bind at 1. cbn [modify ret]. apply Hraw; [done |]. right. split; [done |].
    unfold readEventFile in Hread. destruct (negb (gitfs_events env)); [done |].
    destruct (readFile _ _); by simplify_eq.
Qed.

Lemma listed_or_not (l : list FullEvent) (n : Z) :
  (∃ e, e ∈ l ∧ id e = Some n) ∨ (∀ e, e ∈ l → id e ≠ Some n).
Proof.
  destruct (existsb (λ e, bool_decide (id e = Some n)) l) eqn:Hex.
  - left. by apply existsb_id_true.
  - right. intros e Hin Hid.
    assert (existsb (λ e, bool_decide (id e = Some n)) l = true)
      by (apply existsb_id_true; eauto).
    congruence.
Qed.

(** A record that a read returns, and where it comes from. *)
Lemma readEventAsync_raw env n st ev st1 :
  readEventAsync env n st = (Ret (Some ev), st1) →
  (∃ e, e ∈ events (index st) ∧ id e = Some n)
  ∧ ∃ raw,
      (eventsCache st !! idString (Some n) = Some raw
       ∨ (eventsCache st !! idString (Some n) = None
          ∧ readFile (eventFn (Some n)) (eventFiles (store st)) = Some raw))
      ∧ eventsCache st1 = <[idString (Some n) := raw]> (eventsCache st)
      ∧ id ev = id raw
      ∧ ∀ k, k ∉ displayKeys → field k ev = field k raw.
Proof.
  intros Hrun. destruct (listed_or_not (events (index st)) n) as [Hl|Hno].
  - split; [done |].
    destruct (readEventAsync_listed env n st _ _ Hl Hrun) as (ev' & raw & [= <-] & H).
    by exists raw.
  - by rewrite (readEventAsync_unlisted env n st Hno) in Hrun.
Qed.

(** X14. A read of an event never changes the index or the repository.
    It returns nothing, and leaves the state as it is, exactly when the
    index lists no event of the id, whether or not a file or a cached
    document exists.  A record it returns is the cached document of the
    id or, when none is cached, the content of the file of the id, which
    is cached from then on; the record has the id of the document and
    its fields, but for [address], [name], [fullcity] and the three date
    ranges. *)
Theorem readEventAsync_document env n st r st1 :
  readEventAsync env n st = (Ret r, st1) →
  index st1 = index st ∧ store st1 = store st
  ∧ (r = None ↔ ∀ e, e ∈ events (index st) → id e ≠ Some n)
  ∧ match r with
    | None => st1 = st
    | Some ev =>
        ∃ raw,
          (eventsCache st !! idString (Some n) = Some raw
           ∨ (eventsCache st !! idString (Some n) = None
              ∧ readFile (eventFn (Some n)) (eventFiles (store st)) = Some raw))
          ∧ eventsCache st1 = <[idString (Some n) := raw]> (eventsCache st)
          ∧ id ev = id raw
          ∧ ∀ k, k ∉ displayKeys → field k ev = field k raw
    end.
Proof.
  intros Hrun.
  pose proof (readEventAsync_keeps index env n (λ _ _, eq_refl) (λ _ _, eq_refl)
                (λ _ _, eq_refl) st) as Hix.
  pose proof (readEventAsync_keeps store env n (λ _ _, eq_refl) (λ _ _, eq_refl)
                (λ _ _, eq_refl) st) as Hstore.
  rewrite Hrun in Hix, Hstore. cbn [snd] in Hix, Hstore.
  split; [done |]. split; [done |].
  destruct (listed_or_not (events (index st)) n) as [Hl|Hno].
  - destruct (readEventAsync_listed env n st r st1 Hl Hrun) as (ev & raw & -> & H).
    split; [| by exists raw]. split; [done |]. intros Hno.
    destruct Hl as (e & Hin & Hid). by destruct (Hno e Hin).
  - rewrite (readEventAsync_unlisted env n st Hno) in Hrun.
    injection Hrun as <- <-. done.
Qed.

Lemma readEventAsync_document_witness :
  ∃ r st1,
    readEventAsync exampleEnv 7 queryState = (Ret r, st1)
    ∧ r = None ∧ st1 = queryState.
Proof.
  eexists _, _. split; [vm_compute; reflexivity |].
  destruct (readEventAsync_document exampleEnv 7 queryState None queryState
              ltac:(vm_compute; reflexivity)) as (_ & _ & _ & H).
  split; [reflexivity | exact H].
Defined.

(** ** The query engine *)

Lemma string_compare_refl s : String.compare s s = Eq.
Proof.
  induction s as [|a s IH]; [done |]. cbn. unfold Ascii.compare.
  by rewrite N.compare_refl.
Qed.

Lemma string_compare_trans s1 : ∀ s2 s3,
  String.compare s1 s2 = Lt → String.compare s2 s3 = Lt → String.compare s1 s3 = Lt.
Proof.
  induction s1 as [|a s1 IH]; intros [|b s2] [|c s3]; cbn; try done.
  unfold Ascii.compare.
  destruct (N.compare_spec (N_of_ascii a) (N_of_ascii b)) as [Hab|Hab|Hab];
    destruct (N.compare_spec (N_of_ascii b) (N_of_ascii c)) as [Hbc|Hbc|Hbc];
    try done; intros H1 H2.
  - rewrite Hab, Hbc, N.compare_refl. eauto.
  - rewrite Hab. by apply N.compare_lt_iff in Hbc as ->.
  - rewrite <- Hbc. by apply N.compare_lt_iff in Hab as ->.
  - assert (N_of_ascii a < N_of_ascii c)%N as Hac by lia.
    by apply N.compare_lt_iff in Hac as ->.
Qed.

Lemma string_ltb_irrefl s : String.ltb s s = false.
Proof. unfold String.ltb. by rewrite string_compare_refl. Qed.

Lemma string_ltb_total x y : String.ltb x y = false → x ≠ y → String.ltb y x = true.
Proof.
  unfold String.ltb. intros H Hne. rewrite String.compare_antisym.
  destruct (String.compare x y) eqn:E; [| done | done].
  by apply String.compare_eq_iff in E.
Qed.

Lemma string_ltb_trans x y z :
  String.ltb x y = true → String.ltb y z = true → String.ltb x z = true.
Proof.
  unfold String.ltb. intros H1 H2.
  destruct (String.compare x y) eqn:E1; try done.
  destruct (String.compare y z) eqn:E2; try done.
  by rewrite (string_compare_trans x y z).
Qed.

(** On entries with a start date and an id, the comparator of the sort
    decides [eventOrder]. *)
Lemma compareEvents_order a b :
  dated a → dated b → (compareEvents a b ≤ 0 ↔ eventOrder a b).
Proof.
  intros [[x Hx] [i Hi]] [[y Hy] [j Hj]].
  unfold compareEvents, eventOrder, tools.strcmp, js_eq, js_lt.
  rewrite Hx, Hy, Hi, Hj.
  destruct (decide (x = y)) as [->|Hne].
  - rewrite bool_decide_eq_true_2 by done. cbn [Z.eqb].
    rewrite string_ltb_irrefl. split; [intros; right; split; [done | lia] |].
    intros [?|[_ ?]]; [done | lia].
  - rewrite bool_decide_eq_false_2 by congruence.
    destruct (String.ltb x y) eqn:Hlt; cbn [Z.eqb].
    + split; [by left | lia].
    + split; [lia |]. intros [?|[? _]]; done.
Qed.

Lemma eventOrder_total a b : dated a → dated b → eventOrder a b ∨ eventOrder b a.
Proof.
  intros [[x Hx] [i Hi]] [[y Hy] [j Hj]]. unfold eventOrder.
  rewrite Hx, Hy, Hi, Hj.
  destruct (decide (x = y)) as [->|Hne].
  - destruct (decide (i ≤ j)); [left | right]; right; split; [done | lia | done | lia].
  - destruct (String.ltb x y) eqn:Hlt; [by left; left |].
    right. left. by apply string_ltb_total.
Qed.

Lemma eventOrder_trans a b c : eventOrder a b → eventOrder b c → eventOrder a c.
Proof.
  unfold eventOrder.
  destruct (field "startDate" a) as [x|], (field "startDate" b) as [y|],
    (field "startDate" c) as [z|], (id a) as [i|], (id b) as [j|], (id c) as [k|];
    try done.
  intros [H1|[-> H1]] [H2|[-> H2]].
  - left. by eapply string_ltb_trans.
  - by left.
  - by left.
  - right. split; [done | lia].
Qed.

Lemma insertBy_sorted x l :
  dated x → Forall dated l →
  StronglySorted eventOrder l → StronglySorted eventOrder (insertBy compareEvents x l).
Proof.
  intros Hx Hl Hs. induction Hs as [|y l Hs IH Hy]; cbn [insertBy].
  - by repeat constructor.
  - apply Forall_cons in Hl as [Hdy Hl].
    destruct (Z.leb_spec (compareEvents x y) 0) as [Hle|Hgt].
    + apply compareEvents_order in Hle; [| done | done].
      constructor; [by constructor |]. constructor; [done |].
      eapply Forall_impl; [exact Hy |]. intros z Hz. by eapply eventOrder_trans.
    + assert (eventOrder y x) as Hyx.
      { destruct (eventOrder_total x y Hx Hdy) as [H|H]; [| done].
        apply compareEvents_order in H; [lia | done | done]. }
      constructor; [by apply IH |].
      rewrite insertBy_perm. by constructor.
Qed.

Lemma sortBy_sorted l :
  Forall dated l → StronglySorted eventOrder (sortBy compareEvents l).
Proof.
  unfold sortBy. induction l as [|x l IH]; intros Hl; cbn [foldr]; [constructor |].
  apply Forall_cons in Hl as [Hx Hl].
  apply insertBy_sorted; [done | | by apply IH].
  fold (sortBy compareEvents l). by rewrite sortBy_perm.
Qed.

Lemma StronglySorted_sublist {A} (R : A → A → Prop) l1 l2 :
  l1 `sublist_of` l2 → StronglySorted R l2 → StronglySorted R l1.
Proof.
  induction 1 as [|x l1 l2 Hs IH|x l1 l2 Hs IH]; intros H2; [done | |].
  - apply StronglySorted_inv in H2 as [H2 Hx].
    constructor; [by apply IH |]. apply Forall_forall. intros y Hy.
    rewrite Forall_forall in Hx. apply Hx. by eapply elem_of_sublist.
  - apply StronglySorted_inv in H2 as [H2 _]. by apply IH.
Qed.

Lemma Forall_filter_dated (f : EventIndexEntry → Prop) `{∀ x, Decision (f x)} l :
  Forall dated l → Forall dated (filter f l).
Proof.
  rewrite !Forall_forall. intros Hl x Hx.
  apply list_elem_of_filter in Hx as [_ Hx]. by apply Hl.
Qed.

Lemma filteredEvents_sorted env today3 q st l st3 :
  Forall dated (events (index st)) →
  filteredEvents env today3 q st = (Ret l, st3) →
  StronglySorted eventOrder l.
Proof.
  intros Hd. rewrite filteredEvents_run. cbv zeta.
  assert (Hw : Forall dated (windowEvents today3 q (index st))).
  { unfold windowEvents. by apply Forall_filter_dated. }
  destruct (mapM _ _ st) as [[u|] st2]; [| done].
  destruct (negb _); intros H; injection H as <- _; apply sortBy_sorted; [| done].
  by apply Forall_filter_dated.
Qed.

(** X15. When every entry of the index has a start date and an id, the
    events of a query result are in the order of their start dates, and
    events of the same start date in the order of their ids. *)
Theorem queryEventsAsync_sorted env today3 q st r st' :
  Forall dated (events (index st)) →
  queryEventsAsync env today3 q st = (Ret r, st') →
  StronglySorted eventOrder (resultEvents r).
Proof.
  intros Hd. rewrite queryEventsAsync_run.
  destruct (filteredEvents env today3 q st) as [[l|] st3] eqn:Hf; [| done].
  intros H. injection H as <- _. cbn [resultEvents].
  apply (filteredEvents_sorted _ _ _ _ _ _ Hd) in Hf.
  apply (StronglySorted_sublist _ _ _ (paginate_sublist q l)) in Hf.
  induction Hf as [|x p Hs IH Hx]; [constructor |].
  rewrite fmap_cons. constructor; [done |].
  apply Forall_fmap. eapply Forall_impl; [exact Hx |]. intros y Hxy. cbn.
  unfold eventOrder in *.
  destruct (augmentWith_frame env (centersValue env st3) x) as [-> Hfx].
  destruct (augmentWith_frame env (centersValue env st3) y) as [-> Hfy].
  rewrite Hfx, Hfy; [done | |];
    intros Hin; repeat (apply elem_of_cons in Hin as [Hin|Hin]; [done |]);
    by apply elem_of_nil in Hin.
Qed.

Lemma queryEventsAsync_sorted_witness :
  ∃ r st',
    queryEventsAsync exampleEnv "2024-01-01" ∅ queryState = (Ret r, st')
    ∧ StronglySorted eventOrder (resultEvents r).
Proof.
  eexists _, _. split; [vm_compute; reflexivity |].
  eapply (queryEventsAsync_sorted exampleEnv "2024-01-01" ∅ queryState).
  - repeat constructor; eexists; reflexivity.
  - vm_compute. reflexivity.
Defined.

(** The outcome of a lookup, case by case. *)
Lemma getCenterAsync_run env cid st :
  getCenterAsync env (Some cid) st =
  let st0 := snd (cachedCenters env st) in
  match centersValue env st !! cid with
  | Some c => (Ret (Some c), st0)
  | None =>
      if hasAllCenters st then (Ret None, st0)
      else if gitfs_events env then
        match centerFiles (store st) !! cid with
        | Some file =>
            (Ret (Some (parseCenterAsync env file)),
             set_centers (Some (<[cid := parseCenterAsync env file]> (centersValue env st)))
                         st0)
        | None => (Throw, st0)
        end
      else (Throw, st0)
  end.
Proof.
  cbn [getCenterAsync]. unfold bind at 1. rewrite cachedCenters_run.
  unfold bind at 1. cbn [gets]. cbv zeta.
  rewrite (cachedCenters_keeps hasAllCenters env (λ _ _, eq_refl) (λ _ _, eq_refl) st).
  unfold tools.lookup. destruct (centersValue env st !! cid) as [c|] eqn:Hc.
  - by rewrite bool_decide_eq_true_2 by eauto.
  - rewrite bool_decide_eq_false_2 by (by intros [? ?]). cbn [orb].
    destruct (hasAllCenters st); [done |].
    unfold bind at 1, readCenterFile.
    rewrite (cachedCenters_keeps store env (λ _ _, eq_refl) (λ _ _, eq_refl) st).
    destruct (gitfs_events env); cbn [negb]; [| done].
    destruct (centerFiles (store st) !! cid) as [file|]; [| done].
    unfold bind, cacheCenter, modify, ret.
    by rewrite cachedCenters_centers.
Qed.

Lemma canLookup_cachedCenters env st cid :
  canLookup env (snd (cachedCenters env st)) cid ↔ canLookup env st cid.
Proof.
  unfold canLookup. rewrite centersValue_cachedCenters.
  rewrite (cachedCenters_keeps hasAllCenters env (λ _ _, eq_refl) (λ _ _, eq_refl) st).
  by rewrite (cachedCenters_keeps store env (λ _ _, eq_refl) (λ _ _, eq_refl) st).
Qed.

(** A lookup returns exactly when it can be answered, and it changes
    nothing to what can be answered. *)
Lemma getCenterAsync_returns env i st :
  (fst (getCenterAsync env i st) ≠ Throw
   ↔ ∀ cid, i = Some cid → canLookup env st cid)
  ∧ ∀ cid', canLookup env (snd (getCenterAsync env i st)) cid' ↔ canLookup env st cid'.
Proof.
  destruct i as [cid|].
  2:{ split; [| done]. split; [by intros _ cid | by intros _]. }
  rewrite getCenterAsync_run. cbv zeta.
  pose proof (canLookup_cachedCenters env st) as Hcc. unfold canLookup in *.
  destruct (centersValue env st !! cid) as [c|] eqn:Hc.
  { split; [| apply Hcc]. split; [| done]. intros _ ? [= <-]. rewrite Hc. eauto. }
  destruct (hasAllCenters st) eqn:Hall.
  { split; [| apply Hcc]. split; [| done]. intros _ ? [= <-]. by left. }
  destruct (gitfs_events env) eqn:Hgit.
  2:{ split; [| apply Hcc]. split; [done |]. intros H.
      destruct (H cid eq_refl) as [?|[[? ?]|[? _]]]; congruence. }
  destruct (centerFiles (store st) !! cid) as [file|] eqn:Hfile.
  2:{ split; [| apply Hcc]. split; [done |]. intros H.
      destruct (H cid eq_refl) as [?|[[? ?]|[_ [? ?]]]]; congruence. }
  split.
  { split; [| done]. intros _ ? [= <-]. right. right. rewrite Hfile. eauto. }
  intros cid'. cbn [fst snd].
  assert (Hv : centersValue env
                 (set_centers (Some (<[cid := parseCenterAsync env file]> (centersValue env st)))
                              (snd (cachedCenters env st)))
               = <[cid := parseCenterAsync env file]> (centersValue env st)).
  { unfold centersValue at 1. by rewrite Hgit. }
  rewrite Hv. cbn [hasAllCenters set_centers store].
  rewrite (cachedCenters_keeps hasAllCenters env (λ _ _, eq_refl) (λ _ _, eq_refl) st).
  rewrite (cachedCenters_keeps store env (λ _ _, eq_refl) (λ _ _, eq_refl) st).
  destruct (decide (cid' = cid)) as [->|Hne].
  - rewrite lookup_insert_eq, Hfile, Hc. split; intros _; right; [right | left]; eauto.
  - rewrite lookup_insert_ne by done. rewrite ?Hall. reflexivity.
Qed.

Lemma mapM_getCenterAsync_returns env (l : list EventIndexEntry) : ∀ st,
  fst (mapM (λ e, getCenterAsync env (field "center" e)) l st) ≠ Throw
  ↔ Forall (λ e, ∀ cid, field "center" e = Some cid → canLookup env st cid) l.
Proof.
  induction l as [|e l IH]; intros st; cbn [mapM].
  - split; [constructor | done].
  - rewrite Forall_cons. unfold bind at 1.
    destruct (getCenterAsync_returns env (field "center" e) st) as [Hret Hinv].
    destruct (getCenterAsync env (field "center" e) st) as [[c|] st1]; cbn [fst snd] in *.
    + unfold bind at 1. specialize (IH st1).
      destruct (mapM _ l st1) as [[u|] st2]; cbn [fst] in *.
      * split; [| done]. intros _. split; [by apply Hret |].
        eapply Forall_impl; [by apply IH |]. intros x Hx cid Hcid. by apply Hinv, Hx.
      * split; [done |]. intros [_ Hl]. apply IH.
        eapply Forall_impl; [exact Hl |]. intros x Hx cid Hcid. by apply Hinv, Hx.
    + split; [done |]. intros [He _] _. by apply (proj2 Hret He).
Qed.

(** X16. A query that returns could look up the center of every index
    entry in its date window and of its center (the directory is marked
    complete, or holds the center, or the repository has the file of the
    center), so that one listed event whose center has no file makes every
    query that reaches it throw; and when the center files carry their
    [fullcity] (the geocoder is not asked), a query for which all these
    centers can be looked up does return. *)
Theorem queryEventsAsync_returns_iff env today3 q st :
  (fst (queryEventsAsync env today3 q st) ≠ Throw →
   ∀ e cid, e ∈ windowEvents today3 q (index st) →
            field "center" e = Some cid → canLookup env st cid)
  ∧ (geocoded st →
     (∀ e cid, e ∈ windowEvents today3 q (index st) →
               field "center" e = Some cid → canLookup env st cid) →
     fst (queryEventsAsync env today3 q st) ≠ Throw).
Proof.
  rewrite queryEventsAsync_run, filteredEvents_run. cbv zeta.
  pose proof (mapM_getCenterAsync_returns env (windowEvents today3 q (index st)) st) as H.
  rewrite Forall_forall in H.
  destruct (mapM _ _ st) as [[u|] st2]; cbn [fst] in H.
  - split.
    + intros _ e cid He. by apply H.
    + intros _ _. by destruct (negb _).
  - cbn [fst]. split; [done |]. intros _ Hall _.
    apply (proj2 H); [| done]. intros e He cid. by apply Hall.
Qed.

Lemma queryEventsAsync_keeps {X} (f : State → X) env today3 q :
  (∀ c st, f (set_centers c st) = f st) →
  (∀ b st, f (set_subscribed b st) = f st) →
  keeps f (queryEventsAsync env today3 q).
Proof.
  intros H1 H2. unfold queryEventsAsync, filteredEvents.
  apply keeps_bind.
  { apply keeps_bind; [apply keeps_gets |]. intros ix.
    apply keeps_bind; [apply keeps_mapM; intros e; by apply getCenterAsync_keeps |].
    intros _. apply keeps_bind; [| intros; apply keeps_ret].
    destruct (negb _); [| apply keeps_ret].
    apply keeps_bind; [by apply cachedCenters_keeps | intros; apply keeps_ret]. }
  intros l. apply keeps_bind; [| intros; apply keeps_ret].
  apply keeps_mapM. intros e. by apply augmentEvent_keeps.
Qed.

Lemma preserves_mapM {A B} P (g : A → M B) (l : list A) :
  (∀ a, preserves P (g a)) → preserves P (mapM g l).
Proof.
  intros Hg. induction l as [|x l IH]; cbn [mapM]; [apply preserves_ret |].
  apply preserves_bind; [apply Hg |]. intros y.
  apply preserves_bind; [apply IH |]. intros ys. apply preserves_ret.
Qed.

(** X17. A query only reads: whether it returns or throws, the index,
    the cached documents, the repository and the completeness mark of
    the directory are as before, and a center that the directory held is
    still held, with the same record. *)
Theorem queryEventsAsync_readonly env today3 q st :
  let st' := snd (queryEventsAsync env today3 q st) in
  index st' = index st ∧ eventsCache st' = eventsCache st ∧ store st' = store st
  ∧ hasAllCenters st' = hasAllCenters st
  ∧ (gitfs_events env = true →
     ∀ cid c, holdsCenter cid c st → holdsCenter cid c st').
Proof.
  cbv zeta.
  split; [by apply queryEventsAsync_keeps |].
  split; [by apply queryEventsAsync_keeps |].
  split; [by apply queryEventsAsync_keeps |].
  split; [by apply queryEventsAsync_keeps |].
  intros Hgit cid c. revert st.
  change (preserves (holdsCenter cid c) (queryEventsAsync env today3 q)).
  unfold queryEventsAsync, filteredEvents.
  apply preserves_bind.
  { apply preserves_bind; [apply preserves_gets |]. intros ix.
    apply preserves_bind;
      [apply preserves_mapM; intros e; by apply getCenterAsync_preserves |].
    intros _. apply preserves_bind; [| intros; apply preserves_ret].
    destruct (negb _); [| apply preserves_ret].
    apply preserves_bind; [by apply cachedCenters_preserves | intros; apply preserves_ret]. }
  intros l. apply preserves_bind; [| intros; apply preserves_ret].
  apply preserves_mapM. intros e. by apply augmentEvent_preserves.
Qed.

(** ** The mutation pipeline of events *)

(** The handler, outcome by outcome. *)
Lemma postEvent_run env req st :
  postEvent env req st =
  match appuser req with
  | None | Some EmptyString => (Ret (Status 403), st)
  | Some user =>
      match getCenterAsync env (field "center" (body req)) st with
      | (Throw, st1) => (Throw, st1)
      | (Ret None, st1) => (Ret (Status 404), st1)
      | (Ret (Some center), st1) =>
          if negb (hasWritePermAsync env user (users center)) then (Ret (Status 402), st1)
          else
            let fresh := {| id := Some (nextId (index st1)); props := ∅ |} in
            match id (body req) with
            | Some n =>
                if (n <=? 0)%Z then
                  commitEvent env user center fresh
                    {| id := None; props := props (body req) |} true st1
                else
                  match readEventAsync env n st1 with
                  | (Throw, st2) => (Throw, st2)
                  | (Ret None, st2) => (Ret (Status 444), st2)
                  | (Ret (Some curr), st2) =>
                      commitEvent env user center curr (body req) false st2
                  end
            | None => commitEvent env user center fresh (body req) true st1
            end
      end
  end.
Proof.
  unfold postEvent. destruct (appuser req) as [[|a u]|]; [done | | done].
  unfold bind at 1.
  destruct (getCenterAsync env (field "center" (body req)) st) as [[[center|]|] st1];
    [| done | done].
  destruct (negb _); [done |]. unfold bind at 1. cbn [gets].
  destruct (id (body req)) as [n|]; [| done].
  destruct (n <=? 0)%Z; [done |]. unfold bind at 1.
  by destruct (readEventAsync env n st1) as [[[curr|]|] st2].
Qed.

Lemma commitEvent_run env user center curr delta isFresh st :
  gitfs_events env = true →
  commitEvent env user center curr delta isFresh st =
  if bool_decide (snd (applyChanges curr delta) = EmptyString)
  then let e := collapse center (copyFields eventKeys curr delta) in
       (Ret (Json e), committed e isFresh st)
  else (Ret (StatusError 412 (snd (applyChanges curr delta))), st).
Proof.
  intros Hgit. unfold commitEvent.
  pose proof (applyChanges_ok curr delta) as Hok.
  destruct (applyChanges curr delta) as [c' err]. cbn [fst snd] in *.
  destruct err as [|a err]; cbn [truthy].
  - rewrite bool_decide_eq_true_2 by done. rewrite Hok by done. cbv zeta.
    unfold saveEventAsync, bind, modify, ret. rewrite Hgit. cbn [negb].
    by destruct isFresh.
  - by rewrite bool_decide_eq_false_2 by done.
Qed.

(** A request answered with the event, taken apart: the user, the center
    of the body as the directory holds it, the record the changes were
    applied to, and the commit. *)
Lemma postEvent_json env req st ev st' :
  postEvent env req st = (Ret (Json ev), st') →
  gitfs_events env = true
  ∧ ∃ user cid center st1 curr delta isFresh st2,
      appuser req = Some user ∧ user ≠ EmptyString
      ∧ field "center" (body req) = Some cid
      ∧ getCenterAsync env (Some cid) st = (Ret (Some center), st1)
      ∧ hasWritePermAsync env user (users center) = true
      ∧ props delta = props (body req)
      ∧ ((isFresh = true ∧ isCreation (body req) = true ∧ st2 = st1
          ∧ curr = {| id := Some (nextId (index st1)); props := ∅ |})
         ∨ (isFresh = false ∧ delta = body req
            ∧ ∃ n, id (body req) = Some n ∧ 0 < n
                   ∧ readEventAsync env n st1 = (Ret (Some curr), st2)))
      ∧ snd (applyChanges curr delta) = EmptyString
      ∧ ev = collapse center (copyFields eventKeys curr delta)
      ∧ st' = committed ev isFresh st2.
Proof.
  rewrite postEvent_run.
  destruct (appuser req) as [[|a u]|] eqn:Huser; [discriminate | | discriminate].
  destruct (getCenterAsync env (field "center" (body req)) st) as [[[center|]|] st1]
    eqn:Hget; [| discriminate | discriminate].
  pose proof Hget as (Hgit & cid & Hcid & _)%getCenterAsync_Some.
  rewrite Hcid in Hget.
  destruct (hasWritePermAsync env (String a u) (users center)) eqn:Hperm;
    cbn [negb]; [| discriminate].
  cbv zeta. intros Hrun. split; [done |].
  assert (Hcommit : ∀ curr delta isFresh st2,
    commitEvent env (String a u) center curr delta isFresh st2 = (Ret (Json ev), st') →
    snd (applyChanges curr delta) = EmptyString
    ∧ ev = collapse center (copyFields eventKeys curr delta)
    ∧ st' = committed ev isFresh st2).
  { intros curr delta isFresh st2. rewrite commitEvent_run by done.
    case_bool_decide as Herr; [| discriminate]. cbv zeta. intros H.
    injection H as <- <-. done. }
  unfold isCreation. destruct (id (body req)) as [n|] eqn:Hid.
  - destruct (Z.leb_spec n 0) as [Hn|Hn].
    + apply Hcommit in Hrun as (? & ? & ?).
      exists (String a u), cid, center, st1,
        {| id := Some (nextId (index st1)); props := ∅ |},
        {| id := None; props := props (body req) |}, true, st1.
      repeat (split; [done |]). split; [| done]. by left.
    + destruct (readEventAsync env n st1) as [[[curr|]|] st2] eqn:Hread;
        [| discriminate | discriminate].
      apply Hcommit in Hrun as (? & ? & ?).
      exists (String a u), cid, center, st1, curr, (body req), false, st2.
      repeat (split; [done |]). split; [| done]. right.
      split; [done |]. split; [done |]. by exists n.
  - apply Hcommit in Hrun as (? & ? & ?).
    exists (String a u), cid, center, st1,
      {| id := Some (nextId (index st1)); props := ∅ |}, (body req), true, st1.
    repeat (split; [done |]). split; [| done]. by left.
Qed.

(** X18. A request to [POST /api/events] that is answered with a status
    and not with the event (403, 404, 402, 444 or 412) has changed neither
    the index nor the repository; a request without a user is answered
    403 and changes nothing at all. *)
Theorem postEvent_rejected env req st resp st' :
  postEvent env req st = (Ret resp, st') →
  (∀ ev, resp ≠ Json ev) →
  index st' = index st ∧ store st' = store st
  ∧ (truthy (appuser req) = false → resp = Status 403 ∧ st' = st).
Proof.
  rewrite postEvent_run. intros Hrun Hno.
  destruct (appuser req) as [[|a u]|] eqn:Huser; cbn [truthy];
    [by simplify_eq | | by simplify_eq].
  split; [| split; [| done]].
  - revert Hrun.
    pose proof (getCenterAsync_keeps index env (field "center" (body req))
                  (λ _ _, eq_refl) (λ _ _, eq_refl) st) as Hc.
    destruct (getCenterAsync env (field "center" (body req)) st) as [[[center|]|] st1]
      eqn:Hget; cbn [snd] in Hc; [| intros; by simplify_eq ..].
    apply getCenterAsync_Some in Hget as (Hgit & _).
    destruct (negb _); [intros; by simplify_eq |]. cbv zeta.
    assert (Hcommit : ∀ curr delta isFresh st2,
      commitEvent env (String a u) center curr delta isFresh st2 = (Ret resp, st')
      → st' = st2).
    { intros curr delta isFresh st2. rewrite commitEvent_run by done.
      case_bool_decide; cbv zeta; intros Heq; injection Heq as <- <-; [| done].
      exact (False_ind _ (Hno _ eq_refl)). }
    destruct (id (body req)) as [n|].
    + destruct (n <=? 0)%Z; [intros ->%Hcommit; done |].
      pose proof (readEventAsync_keeps index env n (λ _ _, eq_refl) (λ _ _, eq_refl)
                    (λ _ _, eq_refl) st1) as Hr.
      destruct (readEventAsync env n st1) as [[[curr|]|] st2]; cbn [snd] in Hr;
        [| intros; simplify_eq; congruence ..].
      intros ->%Hcommit. congruence.
    + intros ->%Hcommit. done.
  - revert Hrun.
    pose proof (getCenterAsync_keeps store env (field "center" (body req))
                  (λ _ _, eq_refl) (λ _ _, eq_refl) st) as Hc.
    destruct (getCenterAsync env (field "center" (body req)) st) as [[[center|]|] st1]
      eqn:Hget; cbn [snd] in Hc; [| intros; by simplify_eq ..].
    apply getCenterAsync_Some in Hget as (Hgit & _).
    destruct (negb _); [intros; by simplify_eq |]. cbv zeta.
    assert (Hcommit : ∀ curr delta isFresh st2,
      commitEvent env (String a u) center curr delta isFresh st2 = (Ret resp, st')
      → st' = st2).
    { intros curr delta isFresh st2. rewrite commitEvent_run by done.
      case_bool_decide; cbv zeta; intros Heq; injection Heq as <- <-; [| done].
      exact (False_ind _ (Hno _ eq_refl)). }
    destruct (id (body req)) as [n|].
    + destruct (n <=? 0)%Z; [intros ->%Hcommit; done |].
      pose proof (readEventAsync_keeps store env n (λ _ _, eq_refl) (λ _ _, eq_refl)
                    (λ _ _, eq_refl) st1) as Hr.
      destruct (readEventAsync env n st1) as [[[curr|]|] st2]; cbn [snd] in Hr;
        [| intros; simplify_eq; congruence ..].
      intros ->%Hcommit. congruence.
    + intros ->%Hcommit. done.
Qed.

Lemma postEvent_rejected_witness :
  let req := mkRequest (Some "bob") (mkEvent None (obj [("center", "x"); ("title", "T")])) in
  ∃ st',
    postEvent exampleEnv req exampleState = (Ret (Status 402), st')
    ∧ index st' = index exampleState ∧ store st' = store exampleState.
Proof.
  cbv zeta. eexists. split; [vm_compute; reflexivity |].
  destruct (postEvent_rejected exampleEnv
              (mkRequest (Some "bob") (mkEvent None (obj [("center", "x"); ("title", "T")])))
              exampleState (Status 402) _ ltac:(vm_compute; reflexivity))
    as (H1 & H2 & _); [discriminate |].
  split; [exact H1 | exact H2].
Defined.

(** X19. A request to [POST /api/events] that is answered with an event
    has stored it: the file of its id holds it, it is the cached document
    of its id, the index lists its summary, and the index file holds the
    index as it is in memory, so that a restart (the module state lost,
    the repository kept) loads the same index.  The center files and
    every other event file are as before. *)
Theorem postEvent_persists env req st ev st' :
  postEvent env req st = (Ret (Json ev), st') →
  readFile (eventFn (id ev)) (eventFiles (store st')) = Some ev
  ∧ eventsCache st' !! idString (id ev) = Some ev
  ∧ forIndex ev ∈ events (index st')
  ∧ indexFile (store st') = Some (index st')
  ∧ (∀ st0, store st0 = store st' → index (loadOrCreateIndex st0) = index st')
  ∧ centerFiles (store st') = centerFiles (store st)
  ∧ (∀ fn, fn ≠ eventFn (id ev) →
       readFile fn (eventFiles (store st')) = readFile fn (eventFiles (store st))).
Proof.
  intros Hrun.
  apply postEvent_json in Hrun
    as (Hgit & user & cid & center & st1 & curr & delta & isFresh & st2
        & _ & _ & _ & Hget & _ & _ & Hcase & _ & _ & ->).
  assert (Hstore : store st2 = store st).
  { pose proof (getCenterAsync_keeps store env (Some cid)
                  (λ _ _, eq_refl) (λ _ _, eq_refl) st) as Hc.
    rewrite Hget in Hc. cbn [snd] in Hc.
    destruct Hcase as [(_ & _ & -> & _)|(_ & _ & n & _ & _ & Hread)]; [done |].
    pose proof (readEventAsync_keeps store env n (λ _ _, eq_refl) (λ _ _, eq_refl)
                  (λ _ _, eq_refl) st1) as Hr.
    rewrite Hread in Hr. cbn [snd] in Hr. congruence. }
  unfold committed. cbn [store eventFiles eventsCache index indexFile centerFiles].
  rewrite Hstore.
  split; [apply readFile_writeFile |]. split; [apply lookup_insert_eq |].
  split.
  { destruct (upsertIndex_cases ev
                (if isFresh then {| events := events (index st2);
                                    nextId := jsIncr (nextId (index st2)) |}
                 else index st2)) as [(i & x & Hx & _ & _ & ->)|[_ ->]].
    - eapply list_elem_of_lookup_2. apply list_lookup_insert_eq.
      by eapply lookup_lt_Some.
    - apply elem_of_app. right. apply list_elem_of_here. }
  split; [done |]. split.
  { intros st0 Hst0. unfold loadOrCreateIndex. rewrite Hst0. done. }
  split; [done |]. intros fn Hfn. by apply readFile_writeFile_ne.
Qed.

Lemma postEvent_persists_witness :
  let req := mkRequest (Some "ann") (mkEvent None (obj [("center", "x"); ("title", "T")])) in
  ∃ ev st',
    postEvent exampleEnv req exampleState = (Ret (Json ev), st')
    ∧ readFile (eventFn (id ev)) (eventFiles (store st')) = Some ev
    ∧ index (loadOrCreateIndex (set_store (store st') freshState)) = index st'.
Proof.
  cbv zeta. eexists _, _. split; [vm_compute; reflexivity |].
  destruct (postEvent_persists exampleEnv
              (mkRequest (Some "ann") (mkEvent None (obj [("center", "x"); ("title", "T")])))
              exampleState _ _ ltac:(vm_compute; reflexivity))
    as (H1 & _ & _ & _ & H5 & _).
  split; [exact H1 |]. apply H5. reflexivity.
Defined.

(** X20. An event is only written for a user with write permission on
    its center: when a request is answered with an event, the request
    names a user, the center of the event is the center of the body, the
    directory holds that center, and the user may write to it.  For an
    update, the document stored before the request had the same center,
    or none. *)
Theorem postEvent_authorised env req st ev st' :
  postEvent env req st = (Ret (Json ev), st') →
  ∃ user cid center,
    appuser req = Some user ∧ user ≠ EmptyString
    ∧ field "center" (body req) = Some cid
    ∧ field "center" ev = Some cid
    ∧ holdsCenter cid center st'
    ∧ hasWritePermAsync env user (users center) = true
    ∧ (∀ n raw, id (body req) = Some n → 0 < n →
         (eventsCache st !! idString (Some n) = Some raw
          ∨ (eventsCache st !! idString (Some n) = None
             ∧ readFile (eventFn (Some n)) (eventFiles (store st)) = Some raw)) →
         truthy (field "center" raw) = false ∨ field "center" raw = Some cid).
Proof.
  intros Hrun.
  apply postEvent_json in Hrun
    as (Hgit & user & cid & center & st1 & curr & delta & isFresh & st2
        & Huser & Hne & Hcid & Hget & Hperm & Hprops & Hcase & Herr & -> & ->).
  exists user, cid, center. repeat (split; [done |]).
  assert (Hdelta : field "center" delta = Some cid).
  { unfold field. by rewrite Hprops. }
  split; [| split; [| split; [done |]]].
  - rewrite collapse_field.
    rewrite !(bool_decide_eq_false_2 ("center" = _)) by done. cbn [andb].
    rewrite copyFields_field, Hdelta.
    by rewrite bool_decide_eq_true_2 by in_keys.
  - pose proof Hget as (_ & cid' & [= <-] & Hheld)%getCenterAsync_Some.
    assert (Hheld2 : holdsCenter cid center st2).
    { destruct Hcase as [(_ & _ & -> & _)|(_ & _ & n & _ & _ & Hread)]; [done |].
      pose proof (readEventAsync_preserves env Hgit cid center n st1 Hheld) as Hp.
      by rewrite Hread in Hp. }
    destruct Hheld2 as (m & Hm & Hc). by exists m.
  - intros n raw Hid Hn Hraw.
    destruct Hcase as [(_ & Hcre & _ & _)|(_ & -> & n' & Hid' & _ & Hread)].
    { unfold isCreation in Hcre. rewrite Hid in Hcre. apply Z.leb_le in Hcre. lia. }
    assert (n' = n) as -> by congruence.
    apply readEventAsync_raw in Hread as (_ & raw' & Hsrc & _ & _ & Hfields).
    assert (Hc1 : eventsCache st1 = eventsCache st).
    { pose proof (getCenterAsync_keeps eventsCache env (Some cid)
                    (λ _ _, eq_refl) (λ _ _, eq_refl) st) as Hc.
      by rewrite Hget in Hc. }
    assert (Hs1 : store st1 = store st).
    { pose proof (getCenterAsync_keeps store env (Some cid)
                    (λ _ _, eq_refl) (λ _ _, eq_refl) st) as Hc.
      by rewrite Hget in Hc. }
    rewrite Hc1, Hs1 in Hsrc.
    assert (raw' = raw) as ->.
    { destruct Hsrc as [?|[? ?]], Hraw as [?|[? ?]]; congruence. }
    apply applyChanges_centerKept in Herr as [Hk|Hk].
    + left. rewrite <- (Hfields "center"); [exact Hk |].
      intros Hin. unfold displayKeys in Hin.
      repeat (apply elem_of_cons in Hin as [Hin|Hin]; [done |]).
      by apply elem_of_nil in Hin.
    + right. rewrite <- (Hfields "center"); [congruence |].
      intros Hin. unfold displayKeys in Hin.
      repeat (apply elem_of_cons in Hin as [Hin|Hin]; [done |]).
      by apply elem_of_nil in Hin.
Qed.

Lemma postEvent_authorised_witness :
  let req := mkRequest (Some "ann") (mkEvent None (obj [("center", "x"); ("title", "T")])) in
  ∃ ev st',
    postEvent exampleEnv req exampleState = (Ret (Json ev), st')
    ∧ ∃ user cid center,
        appuser req = Some user
        ∧ field "center" ev = Some cid
        ∧ holdsCenter cid center st'
        ∧ hasWritePermAsync exampleEnv user (users center) = true.
Proof.
  cbv zeta. eexists _, _. split; [vm_compute; reflexivity |].
  destruct (postEvent_authorised exampleEnv
              (mkRequest (Some "ann") (mkEvent None (obj [("center", "x"); ("title", "T")])))
              exampleState _ _ ltac:(vm_compute; reflexivity))
    as (user & cid & center & H1 & _ & _ & H4 & H5 & H6 & _).
  by exists user, cid, center.
Defined.

(** ** The agreement of the index, the cache and the files *)









Lemma readFile_elem_of fn fs e : readFile fn fs = Some e → (fn, e) ∈ fs.
Proof.
  induction fs as [|[n x] fs IH]; cbn [readFile]; [done |].
  destruct (String.eqb n fn) eqn:E.
  - apply String.eqb_eq in E as ->. intros [= ->]. apply list_elem_of_here.
  - intros H. apply list_elem_of_further. by apply IH.
Qed.

Lemma NoDup_fst_eq {A B} (l : list (A * B)) x y :
  NoDup l.*1 → x ∈ l → y ∈ l → x.1 = y.1 → x = y.
Proof.
  induction l as [|z l IH]; [by intros _ ?%not_elem_of_nil |].
  rewrite fmap_cons. intros [Hz Hnd]%NoDup_cons.
  intros [->|Hx]%elem_of_cons [->|Hy]%elem_of_cons Heq; [done | | | by apply IH].
  - destruct Hz. rewrite Heq. by apply list_elem_of_fmap_2.
  - destruct Hz. rewrite <- Heq. by apply list_elem_of_fmap_2.
Qed.

Lemma foldr_max_le (l : list Z) b : 0 ≤ b → Forall (λ x, x ≤ b) l → foldr Z.max 0 l ≤ b.
Proof. intros Hb. induction 1; cbn; lia. Qed.

(** X22. The rebuild of the index over a repository that was only
    written by this module gives a well-formed state: with no index file,
    no cached document, and event files that have distinct names and are
    each named after the positive id, below one million, of the document
    they hold, the ids of the index built are pairwise distinct and below
    [nextId], and every listed id has its document in its file. *)
Theorem loadOrCreateIndex_wellFormed (st : State) :
  indexFile (store st) = None →
  eventsCache st = ∅ →
  consistentFiles (eventFiles (store st)) →
  wellFormed (loadOrCreateIndex st).
Proof.
  intros Hnone Hcache [Hnd Hfiles].
  set (fs := eventFiles (store st)) in *.
  set (matched := filter (λ f, Regex.test eventFile_re f.1 = true) fs).
  assert (Hm : ∀ f, f ∈ matched →
    f ∈ fs ∧ ∃ n, id f.2 = Some n ∧ 0 < n < 1000000 ∧ f.1 = eventFn (Some n)).
  { intros f [Ht Hin]%list_elem_of_filter. split; [done |]. by apply Hfiles. }
  assert (Hev : events (index (loadOrCreateIndex st)) = forIndex <$> (snd <$> matched)).
  { unfold loadOrCreateIndex. rewrite Hnone. cbn. by rewrite scanFiles_events. }
  assert (Hstore : eventFiles (store (loadOrCreateIndex st)) = fs).
  { unfold loadOrCreateIndex. by rewrite Hnone. }
  assert (Hc : eventsCache (loadOrCreateIndex st) = ∅).
  { unfold loadOrCreateIndex. by rewrite Hnone. }
  assert (Hids : id <$> (forIndex <$> (snd <$> matched)) = (λ f, id f.2) <$> matched).
  { rewrite <- !list_fmap_compose. done. }
  assert (Hub : foldr Z.max 0 (observedIds (snd <$> matched)) ≤ 999999).
  { apply foldr_max_le; [lia |]. apply Forall_forall. intros x Hx.
    unfold observedIds in Hx. rewrite <- list_fmap_compose in Hx.
    apply list_elem_of_fmap in Hx as (f & -> & Hf).
    destruct (Hm f Hf) as (_ & n & Hn & ? & _). cbn. rewrite Hn. cbn. lia. }
  assert (Hnext : nextId (index (loadOrCreateIndex st))
                  = 1 + foldr Z.max 0 (observedIds (snd <$> matched))).
  { unfold loadOrCreateIndex. rewrite Hnone.
    cbn [index set_store set_index nextId].
    rewrite scanFiles_nextId by (cbn; lia). cbn [nextId].
    fold fs. change (eventDocs fs) with (snd <$> matched).
    assert (0 ≤ foldr Z.max 0 (observedIds (snd <$> matched))).
    { generalize (observedIds (snd <$> matched)). intros l. induction l; cbn; lia. }
    rewrite jsIncr_safe by (unfold maxSafeInteger; lia). lia. }
  assert (Hlb : ∀ f n, f ∈ matched → id f.2 = Some n →
                       n ≤ foldr Z.max 0 (observedIds (snd <$> matched))).
  { intros f n Hf Hn. apply foldr_max_bound. unfold observedIds.
    rewrite <- list_fmap_compose. apply list_elem_of_fmap. exists f.
    split; [| done]. cbn. by rewrite Hn. }
  unfold wellFormed. rewrite Hev, Hnext, Hstore, Hc, Hids.
  split; [| split; [| split; [| split]]].
  - apply NoDup_fmap_2_strong; [| apply NoDup_filter; by eapply NoDup_fmap_1].
    intros x y Hx Hy Heq.
    destruct (Hm x Hx) as (Hxin & n & Hn & _ & Hxn).
    destruct (Hm y Hy) as (Hyin & n' & Hn' & _ & Hyn).
    apply (NoDup_fst_eq fs); [done | done | done |]. congruence.
  - intros e He. rewrite <- list_fmap_compose in He.
    apply list_elem_of_fmap in He as (f & -> & Hf).
    destruct (Hm f Hf) as (_ & n & Hn & ? & _). exists n. cbn [forIndex id compose].
    split; [done |]. pose proof (Hlb f n Hf Hn). lia.
  - assert (0 ≤ foldr Z.max 0 (observedIds (snd <$> matched))).
    { generalize (observedIds (snd <$> matched)). intros l. induction l; cbn; lia. }
    lia.
  - intros n raw Hn. by rewrite lookup_empty in Hn.
  - intros n raw Hl Hfile.
    apply list_elem_of_fmap in Hl as (f & Hfid & Hf).
    destruct (Hm f Hf) as (_ & n' & Hn' & Hb & _).
    assert (n' = n) as -> by congruence.
    apply readFile_elem_of in Hfile.
    destruct (Hfiles _ Hfile) as (m & Hm' & Hmb & Hname).
    { cbn. apply eventFn_matches. lia. }
    cbn [fst snd] in *. apply eventFn_inj in Hname as ->; [done | lia | lia].
Qed.

Lemma loadOrCreateIndex_wellFormed_witness :
  let fs := [("000003.json", mkEvent (Some 3) (obj [("title", "A")]));
             ("index.bak", mkEvent (Some 9) ∅);
             ("000001.json", mkEvent (Some 1) (obj [("title", "B")]))] in
  wellFormed (loadOrCreateIndex
                (mkState (mkIndex [] 0) ∅ false None false (mkStore ∅ fs None))).
Proof.
  cbv zeta. apply loadOrCreateIndex_wellFormed; [reflexivity | reflexivity |].
  split.
  - apply (bool_decide_unpack _). vm_compute. reflexivity.
  - intros f Hf Ht.
    repeat (apply elem_of_cons in Hf as [->|Hf]);
      [by exists 3 | by vm_compute in Ht | by exists 1 | by apply elem_of_nil in Hf].
Defined.

(** ** The mutation pipeline of centers *)

(** [updateCenterAsync], outcome by outcome. *)
Lemma updateCenterAsync_run env poke i f st :
  updateCenterAsync env poke i f st =
  if negb (gitfs_events env) then (Throw, st)
  else
    match poke st with
    | (Throw, st1) => (Throw, st1)
    | (Ret _, st1) =>
        match getCenterAsync env i st1, i with
        | (Ret (Some c), st2), Some key =>
            (Ret (f c),
             set_store (mkStore (<[propKey (cfield "id" (f c)) := f c]>
                                   (centerFiles (store st2)))
                                (eventFiles (store st2)) (indexFile (store st2)))
               (set_centers (Some (<[key := f c]> (default ∅ (_centers st2)))) st2))
        | (_, st2), _ => (Throw, st2)
        end
    end.
Proof.
  unfold updateCenterAsync. unfold bind at 1.
  destruct (gitfs_events env) eqn:Hgit; cbn [negb]; [| done].
  destruct (poke st) as [[[]|] st1]; [| done]. unfold bind at 1.
  destruct (getCenterAsync env i st1) as [[[c|]|] st2]; [| done | by destruct i].
  destruct i as [key|]; [| done].
  unfold bind, cacheCenter, writeCenterFile, modify, ret. by rewrite Hgit.
Qed.

(** The handler up to the update. *)
Lemma postCenter_run env poke req st :
  postCenter env poke req st =
  match cappuser req with
  | None | Some EmptyString => (Ret (CStatus 403), st)
  | Some user =>
      match getCenterAsync env (cfield "id" (cbody req)) st, cfield "id" (cbody req) with
      | (Throw, st1), _ => (Throw, st1)
      | (Ret (Some center), st1), Some key =>
          if negb (hasWritePermAsync env user (users center)) then (Ret (CStatus 402), st1)
          else
            let center' := fst (applyCenterChanges center (cbody req)) in
            let err := snd (applyCenterChanges center (cbody req)) in
            let st2 := set_centers (Some (<[key := center']> (default ∅ (_centers st1)))) st1 in
            if bool_decide (err = EmptyString) then
              match updateCenterAsync env poke (cfield "id" center')
                      (λ c, fst (applyCenterChanges c (cbody req))) st2 with
              | (Ret c, st3) => (Ret (CJson c), st3)
              | (Throw, st3) => (Throw, st3)
              end
            else (Ret (CStatusError 412 err), st2)
      | (Ret _, st1), _ => (Ret (CStatus 404), st1)
      end
  end.
Proof.
  unfold postCenter. destruct (cappuser req) as [[|a u]|]; [done | | done].
  unfold bind at 1.
  destruct (getCenterAsync env (cfield "id" (cbody req)) st) as [[[center|]|] st1];
    [| by destruct (cfield "id" (cbody req)) | by destruct (cfield "id" (cbody req))].
  destruct (cfield "id" (cbody req)) as [key|]; [| done].
  destruct (negb _); [done |]. cbv zeta.
  destruct (applyCenterChanges center (cbody req)) as [center' err]. cbn [fst snd].
  unfold bind at 1. cbn [cacheCenter modify].
  destruct err as [|a' err]; cbn [truthy].
  - rewrite bool_decide_eq_true_2 by done. unfold bind at 1.
    by destruct (updateCenterAsync _ _ _ _ _) as [[c|] st3].
  - by rewrite bool_decide_eq_false_2 by done.
Qed.

(** X23. A request to [POST /api/centers] that is not answered with the
    center (a status 403, 404, 402 or 412) writes nothing: the
    repository, the index and the cached documents are as before, and a
    request without a user changes nothing at all. *)
Theorem postCenter_rejected env poke req st resp st' :
  postCenter env poke req st = (Ret resp, st') →
  (∀ c, resp ≠ CJson c) →
  store st' = store st ∧ index st' = index st ∧ eventsCache st' = eventsCache st
  ∧ (truthy (cappuser req) = false → resp = CStatus 403 ∧ st' = st).
Proof.
  rewrite postCenter_run. intros Hrun Hno.
  destruct (cappuser req) as [[|a u]|]; cbn [truthy]; [by simplify_eq | | by simplify_eq].
  pose proof (getCenterAsync_keeps store env (cfield "id" (cbody req))
                (λ _ _, eq_refl) (λ _ _, eq_refl) st) as H1.
  pose proof (getCenterAsync_keeps index env (cfield "id" (cbody req))
                (λ _ _, eq_refl) (λ _ _, eq_refl) st) as H2.
  pose proof (getCenterAsync_keeps eventsCache env (cfield "id" (cbody req))
                (λ _ _, eq_refl) (λ _ _, eq_refl) st) as H3.
  destruct (getCenterAsync env (cfield "id" (cbody req)) st) as [[[center|]|] st1];
    cbn [snd] in *.
  - destruct (cfield "id" (cbody req)) as [key|].
    + destruct (negb _).
      * injection Hrun as <- <-. split; [done |]. split; [done |]. split; done.
      * cbv zeta in Hrun. case_bool_decide.
        -- destruct (updateCenterAsync _ _ _ _ _) as [[c|] st3]; [| done].
           injection Hrun as <- <-. by destruct (Hno c).
        -- injection Hrun as <- <-. cbn. split; [done |]. split; [done |]. split; done.
    + injection Hrun as <- <-. split; [done |]. split; [done |]. split; done.
  - destruct (cfield "id" (cbody req)); injection Hrun as <- <-;
      (split; [done |]; split; [done |]; split; done).
  - by destruct (cfield "id" (cbody req)).
Qed.

Lemma postCenter_rejected_witness :
  let req := mkCenterRequest (Some "bob") (mkCenter [] (obj [("id", "x"); ("name", "N")])) in
  ∃ st',
    postCenter exampleEnv (ret tt) req exampleState = (Ret (CStatus 402), st')
    ∧ store st' = store exampleState.
Proof.
  cbv zeta. eexists. split; [vm_compute; reflexivity |].
  destruct (postCenter_rejected exampleEnv (ret tt)
              (mkCenterRequest (Some "bob") (mkCenter [] (obj [("id", "x"); ("name", "N")])))
              exampleState (CStatus 402) _ ltac:(vm_compute; reflexivity))
    as (H1 & _); [discriminate | exact H1].
Defined.

(** X24. A request to [POST /api/centers] that is answered with a center
    has stored it: the request names a user who may write to the center
    that the directory gave for the id of the body; every value of the
    body is within its limit; the center answered has the [program],
    [about], [name] and [address] that the body carries; the directory
    holds it; and the file named after its id holds it. *)
Theorem postCenter_persists env poke req st c st' :
  postCenter env poke req st = (Ret (CJson c), st') →
  gitfs_events env = true
  ∧ withinLimits (cbody req)
  ∧ (∃ user key center st1,
       cappuser req = Some user ∧ user ≠ EmptyString
       ∧ cfield "id" (cbody req) = Some key
       ∧ getCenterAsync env (Some key) st = (Ret (Some center), st1)
       ∧ hasWritePermAsync env user (users center) = true)
  ∧ (∀ k v, k ∈ ["program"; "about"; "name"; "address"] →
            cfield k (cbody req) = Some v → cfield k c = Some v)
  ∧ (∃ key, holdsCenter key c st')
  ∧ centerFiles (store st') !! propKey (cfield "id" c) = Some c.
Proof.
  rewrite postCenter_run.
  destruct (cappuser req) as [[|a u]|] eqn:Huser; [discriminate | | discriminate].
  destruct (getCenterAsync env (cfield "id" (cbody req)) st) as [[[center|]|] st1]
    eqn:Hget; [| by destruct (cfield "id" (cbody req))
               | by destruct (cfield "id" (cbody req))].
  destruct (cfield "id" (cbody req)) as [key|] eqn:Hkey; [| discriminate].
  destruct (hasWritePermAsync env (String a u) (users center)) eqn:Hperm;
    cbn [negb]; [| discriminate].
  cbv zeta. case_bool_decide as Herr; [| discriminate].
  rewrite updateCenterAsync_run.
  destruct (gitfs_events env) eqn:Hgit; cbn [negb]; [| discriminate].
  destruct (poke _) as [[[]|] st2]; [| discriminate].
  destruct (getCenterAsync env _ st2) as [[[c0|]|] st3] eqn:Hget2;
    [| by destruct (cfield "id" _) | by destruct (cfield "id" _)].
  destruct (cfield "id" (applyCenterChanges center (cbody req)).1) as [key2|];
    [| discriminate].
  intros H. injection H as <- <-.
  assert (Hw : withinLimits (cbody req)) by (by apply (applyCenterChanges_ok center)).
  split; [done |]. split; [done |]. split.
  { exists (String a u), key, center, st1. by repeat split. }
  split.
  { intros k v Hk Hv.
    rewrite applyCenterChanges_fields by done.
    rewrite bool_decide_eq_true_2 by done. by rewrite Hv. }
  split.
  { exists key2. eexists. split; [reflexivity |]. apply lookup_insert_eq. }
  cbn [store set_store centerFiles]. apply lookup_insert_eq.
Qed.

Lemma postCenter_persists_witness :
  let req := mkCenterRequest (Some "ann") (mkCenter [] (obj [("id", "x"); ("name", "N")])) in
  ∃ c st',
    postCenter exampleEnv (ret tt) req exampleState = (Ret (CJson c), st')
    ∧ cfield "name" c = Some "N"
    ∧ centerFiles (store st') !! propKey (cfield "id" c) = Some c.
Proof.
  cbv zeta. eexists _, _. split; [vm_compute; reflexivity |].
  destruct (postCenter_persists exampleEnv (ret tt)
              (mkCenterRequest (Some "ann") (mkCenter [] (obj [("id", "x"); ("name", "N")])))
              exampleState _ _ ltac:(vm_compute; reflexivity))
    as (_ & _ & _ & Hf & _ & Hfile).
  split; [| exact Hfile]. apply Hf; [| reflexivity].
  do 2 apply list_elem_of_further. apply list_elem_of_here.
Defined.
